(** * HelixKit core: reactivity graph, task scheduler and tree reconciler

    A shallow embedding of the TypeScript sources

    - [core/reactivity.ts]  (createSignal, createEffect, createMemo),
    - [core/store.ts]       (createStore),
    - [core/scheduler.ts]   (scheduleTask, cancelTask, processTaskQueue,
                             afterLayout),
    - [core/diff.ts]        (diff, createDOMNode, updateDOMProps,
                             updateChildren),
    - [core/component.ts]   (h),
    - [core/render.ts]      (render, mount, unmount),

    (the reactivity module is the text that begins "Reactivity system for
    Helix", the scheduler the one that begins "Task scheduler for
    optimizing rendering and reactivity", the diff module the one that
    begins "Virtual DOM diffing algorithm for Helix"), followed by the
    properties of these functions.  Mutable module state
    (the task queues, the current effect slot, the DOM) is threaded
    explicitly; code supplied by the application (effect bodies, task
    callbacks) is represented by the sequence of runtime calls it makes. *)

From stdpp Require Import base list.
From Stdlib Require Import ZArith String Ascii Lia DecimalString DecimalNat.

Open Scope Z_scope.
Open Scope nat_scope.

(** ** JavaScript values *)

Module Js.

(** The values that flow through signals, props and keys.  Numbers are
    integers (no NaN, no fractions); functions and objects have reference
    identity, given by a number. *)
#[warnings="-register-all"]
Inductive Val : Type :=
| VUndefined
| VNull
| VBool (b : bool)
| VNum (z : Z)
| VStr (s : string)
| VFun (f : nat)
| VObj (ref : nat) (fields : list (string * Val)).

(** [typeof v === 'function'] *)
Definition is_function (v : Val) : bool :=
  match v with VFun _ => true | _ => false end.

(** [typeof v === 'object'] (true of [null]) *)
Definition is_object (v : Val) : bool :=
  match v with VNull | VObj _ _ => true | _ => false end.

(** [typeof v === 'boolean'] *)
Definition is_boolean (v : Val) : bool :=
  match v with VBool _ => true | _ => false end.

(** [v == null] *)
Definition nullish (v : Val) : bool :=
  match v with VUndefined | VNull => true | _ => false end.

(** Truthiness, as tested by [if (v)] and [!v]. *)
Definition truthy (v : Val) : bool :=
  match v with
  | VUndefined | VNull => false
  | VBool b => b
  | VNum z => negb (z =? 0)%Z
  | VStr s => negb (String.eqb s EmptyString)
  | VFun _ | VObj _ _ => true
  end.

(** [a === b] *)
Definition strict_eq (a b : Val) : bool :=
  match a, b with
  | VUndefined, VUndefined => true
  | VNull, VNull => true
  | VBool x, VBool y => Bool.eqb x y
  | VNum x, VNum y => (x =? y)%Z
  | VStr x, VStr y => String.eqb x y
  | VFun x, VFun y => x =? y
  | VObj x _, VObj y _ => x =? y
  | _, _ => false
  end.

(** [String(v)].  The source text of a function is not modelled; every
    function prints as the same placeholder. *)
Definition to_string (v : Val) : string :=
  match v with
  | VUndefined => "undefined"
  | VNull => "null"
  | VBool true => "true"
  | VBool false => "false"
  | VNum z => NilZero.string_of_int (Z.to_int z)
  | VStr s => s
  | VFun _ => "function () { [code] }"
  | VObj _ _ => "[object Object]"
  end.

(** The primitive values, which [===] compares by value. *)
Inductive Primitive : Type :=
| PUndefined
| PNull
| PBool (b : bool)
| PNum (z : Z)
| PStr (s : string).

Definition of_primitive (p : Primitive) : Val :=
  match p with
  | PUndefined => VUndefined
  | PNull => VNull
  | PBool b => VBool b
  | PNum z => VNum z
  | PStr s => VStr s
  end.

Definition lower (c : ascii) : ascii :=
  let n := nat_of_ascii c in
  if (65 <=? n) && (n <=? 90) then ascii_of_nat (n + 32) else c.

(** [s.toLowerCase()], on ASCII *)
Fixpoint toLowerCase (s : string) : string :=
  match s with
  | EmptyString => EmptyString
  | String c s => String (lower c) (toLowerCase s)
  end.

(** The function-valued properties of [Object.prototype], which every
    object literal inherits. *)
Definition object_prototype : list string :=
  ["constructor"; "__defineGetter__"; "__defineSetter__"; "hasOwnProperty";
   "__lookupGetter__"; "__lookupSetter__"; "isPrototypeOf";
   "propertyIsEnumerable"; "toString"; "valueOf"; "toLocaleString"]%string.

Fixpoint position (name : string) (l : list string) (i : nat) : option nat :=
  match l with
  | [] => None
  | x :: l => if String.eqb x name then Some i else position name l (S i)
  end.

(** [({})[name]]: what an object literal yields for a name that is not a
    property of its own.  The functions of [Object.prototype] are numbered
    from 100, in the order of the list; the accessor [__proto__] yields
    the prototype itself, an object (numbered 100) without enumerable
    properties. *)
Definition inherited (name : string) : Val :=
  if String.eqb name "__proto__" then VObj 100 []
  else
    match position name object_prototype 0 with
    | Some i => VFun (100 + i)
    | None => VUndefined
    end.

End Js.
Export Js.

(** ** Scheduler and reactivity graph *)

Module Core.

(** [enum Priority { HIGH = 0, NORMAL = 1, LOW = 2 }] *)
Inductive Priority := HIGH | NORMAL | LOW.

Definition priority_index (p : Priority) : nat :=
  match p with HIGH => 0 | NORMAL => 1 | LOW => 2 end.

(** Application code (an effect body, a task callback, a script), seen
    from the runtime: the calls it makes into the runtime, in order, each
    continuation receiving the call's result.  [Print] stands for an
    observable side effect such as [console.log]; [Read] and [Write] call
    a signal's reader and writer; the code ends by returning or by
    throwing.  It catches nothing itself. *)
Inductive Prog : Type :=
| Return
| Throw (e : Val)
| Print (v : Val) (k : Prog)
| Read (s : nat) (k : Val -> Prog)
| Write (s : nat) (newValue : Val) (k : Prog)
| CreateSignal (initialValue : Val) (k : nat -> Prog)
| CreateEffect (fn : Prog) (k : nat -> Prog)
| ScheduleTask (callback : Prog) (priority : Priority) (k : nat -> Prog)
| CancelTask (taskId : nat) (k : bool -> Prog).

(** The two kinds of closure that reach the task queues: a callback given
    by the application, and the arrow function built by a signal's writer
    (it captures the signal). *)
Inductive Closure :=
| UserFn (body : Prog)
| Notify (s : nat).

Record Task := { id : nat; callback : Closure; priority : Priority }.

(** [type SignalValue<T> = { value: T; subscribers: Set<() => void> }].
    A JavaScript [Set] iterates in insertion order: a duplicate-free list
    of effect closures, each named by its index in [effects]. *)
Record SignalValue := { value : Val; subscribers : list nat }.

(** What [requestAnimationFrame] holds: the continuation armed by
    [processTaskQueue], or an [afterLayout] callback. *)
Inductive Frame :=
| Continuation
| Layout (cb : Closure).

Record Queues := { qHigh : list Task; qNormal : list Task; qLow : list Task }.

Record Scheduler := {
  nextTaskId : nat;
  taskQueue : Queues;
  isScheduled : bool;
  currentFrameDeadline : Z
}.

Record Graph := {
  signals : list SignalValue;
  effects : list Prog;
  currentEffect : option nat
}.

(** The host: the number of [performance.now()] readings taken so far, the
    pending [processTaskQueue] microtasks, the animation-frame callbacks
    and what was passed to [console.error]. *)
Record Host := {
  ticks : nat;
  microtasks : nat;
  frames : list Frame;
  errors : list Val
}.

(** Observation only, never read by the code: the tasks executed, the
    effect closures invoked and the values printed, oldest first. *)
Record History := {
  executed : list Task;
  effectRuns : list nat;
  output : list Val
}.

Record World := {
  sched : Scheduler;
  graph : Graph;
  host : Host;
  history : History
}.

Definition with_sched (f : Scheduler -> Scheduler) (w : World) : World :=
  {| sched := f (sched w); graph := graph w; host := host w;
     history := history w |}.
Definition with_graph (f : Graph -> Graph) (w : World) : World :=
  {| sched := sched w; graph := f (graph w); host := host w;
     history := history w |}.
Definition with_host (f : Host -> Host) (w : World) : World :=
  {| sched := sched w; graph := graph w; host := f (host w);
     history := history w |}.
Definition with_history (f : History -> History) (w : World) : World :=
  {| sched := sched w; graph := graph w; host := host w;
     history := f (history w) |}.

Definition queue_of (p : Priority) (q : Queues) : list Task :=
  match p with HIGH => qHigh q | NORMAL => qNormal q | LOW => qLow q end.

Definition set_queue (p : Priority) (l : list Task) (q : Queues) : Queues :=
  match p with
  | HIGH => {| qHigh := l; qNormal := qNormal q; qLow := qLow q |}
  | NORMAL => {| qHigh := qHigh q; qNormal := l; qLow := qLow q |}
  | LOW => {| qHigh := qHigh q; qNormal := qNormal q; qLow := l |}
  end.

Definition queue (p : Priority) (w : World) : list Task :=
  queue_of p (taskQueue (sched w)).

Definition put_queue (p : Priority) (l : list Task) : World -> World :=
  with_sched (fun s =>
    {| nextTaskId := nextTaskId s; taskQueue := set_queue p l (taskQueue s);
       isScheduled := isScheduled s;
       currentFrameDeadline := currentFrameDeadline s |}).

Definition set_isScheduled (b : bool) : World -> World :=
  with_sched (fun s =>
    {| nextTaskId := nextTaskId s; taskQueue := taskQueue s;
       isScheduled := b; currentFrameDeadline := currentFrameDeadline s |}).

Definition set_deadline (d : Z) : World -> World :=
  with_sched (fun s =>
    {| nextTaskId := nextTaskId s; taskQueue := taskQueue s;
       isScheduled := isScheduled s; currentFrameDeadline := d |}).

Definition bump_nextTaskId : World -> World :=
  with_sched (fun s =>
    {| nextTaskId := S (nextTaskId s); taskQueue := taskQueue s;
       isScheduled := isScheduled s;
       currentFrameDeadline := currentFrameDeadline s |}).

Definition set_signals (l : list SignalValue) : World -> World :=
  with_graph (fun g =>
    {| signals := l; effects := effects g;
       currentEffect := currentEffect g |}).

Definition set_effects (l : list Prog) : World -> World :=
  with_graph (fun g =>
    {| signals := signals g; effects := l;
       currentEffect := currentEffect g |}).

Definition set_currentEffect (e : option nat) : World -> World :=
  with_graph (fun g =>
    {| signals := signals g; effects := effects g; currentEffect := e |}).

(** [queueMicrotask(processTaskQueue)] *)
Definition queueMicrotask : World -> World :=
  with_host (fun h =>
    {| ticks := ticks h; microtasks := S (microtasks h);
       frames := frames h; errors := errors h |}).

(** [requestAnimationFrame(cb)] *)
Definition requestAnimationFrame (cb : Frame) : World -> World :=
  with_host (fun h =>
    {| ticks := ticks h; microtasks := microtasks h;
       frames := frames h ++ [cb]; errors := errors h |}).

(** [console.error('Error in scheduled task:', error)] *)
Definition console_error (e : Val) : World -> World :=
  with_host (fun h =>
    {| ticks := ticks h; microtasks := microtasks h;
       frames := frames h; errors := errors h ++ [e] |}).

Definition record_task (t : Task) : World -> World :=
  with_history (fun h =>
    {| executed := executed h ++ [t]; effectRuns := effectRuns h;
       output := output h |}).

Definition record_effect (e : nat) : World -> World :=
  with_history (fun h =>
    {| executed := executed h; effectRuns := effectRuns h ++ [e];
       output := output h |}).

Definition record_output (v : Val) : World -> World :=
  with_history (fun h =>
    {| executed := executed h; effectRuns := effectRuns h;
       output := output h ++ [v] |}).

Definition initial : World :=
  {| sched := {| nextTaskId := 1;
                 taskQueue := {| qHigh := []; qNormal := []; qLow := [] |};
                 isScheduled := false; currentFrameDeadline := 0 |};
     graph := {| signals := []; effects := []; currentEffect := None |};
     host := {| ticks := 0; microtasks := 0; frames := []; errors := [] |};
     history := {| executed := []; effectRuns := []; output := [] |} |}.

(** [const frameLength = 16] *)
Definition frameLength : Z := 16.

Inductive Outcome := Normal | Threw (e : Val).

Section Runtime.

(** The clock: [clock n] is what the [n]-th call of [performance.now()]
    returns. *)
Variable clock : nat -> Z.

(** What calling the function object [f] on one argument returns (updater
    functions are pure). *)
Variable apply_fn : nat -> Val -> Val.

Definition performance_now (w : World) : Z * World :=
  (clock (ticks (host w)),
   with_host (fun h =>
     {| ticks := S (ticks h); microtasks := microtasks h;
        frames := frames h; errors := errors h |}) w).

(** *** scheduler.ts *)

Definition scheduleTask (callback : Closure) (priority : Priority)
    (w : World) : nat * World :=
  let task := {| id := nextTaskId (sched w); callback := callback;
                 priority := priority |} in
  let w := bump_nextTaskId w in
  let w := put_queue priority (queue priority w ++ [task]) w in
  let w :=
    if isScheduled (sched w) then w
    else
      let w := set_isScheduled true w in
      let (t, w) := performance_now w in
      let w := set_deadline (t + frameLength) w in
      queueMicrotask w in
  (id task, w).

Definition has_id (taskId : nat) (t : Task) : bool := id t =? taskId.

(** [queue.splice(queue.findIndex(...), 1)] *)
Fixpoint remove_first (taskId : nat) (q : list Task) : list Task :=
  match q with
  | [] => []
  | t :: q' => if has_id taskId t then q' else t :: remove_first taskId q'
  end.

Definition cancelTask (taskId : nat) (w : World) : bool * World :=
  if existsb (has_id taskId) (queue HIGH w) then
    (true, put_queue HIGH (remove_first taskId (queue HIGH w)) w)
  else if existsb (has_id taskId) (queue NORMAL w) then
    (true, put_queue NORMAL (remove_first taskId (queue NORMAL w)) w)
  else if existsb (has_id taskId) (queue LOW w) then
    (true, put_queue LOW (remove_first taskId (queue LOW w)) w)
  else (false, w).

Definition afterLayout (callback : Closure) (w : World) : World :=
  requestAnimationFrame (Layout callback) w.

(** *** reactivity.ts *)

Definition createSignal (initialValue : Val) (w : World) : nat * World :=
  (List.length (signals (graph w)),
   set_signals
     (signals (graph w) ++ [{| value := initialValue; subscribers := [] |}])
     w).

(** [Set.prototype.add] *)
Definition set_add (e : nat) (s : list nat) : list nat :=
  if existsb (Nat.eqb e) s then s else s ++ [e].

Definition read (s : nat) (w : World) : Val * World :=
  match signals (graph w) !! s with
  | None => (VUndefined, w)
  | Some signal =>
      let w :=
        match currentEffect (graph w) with
        | Some effect =>
            set_signals
              (<[s := {| value := value signal;
                         subscribers := set_add effect (subscribers signal) |}]>
                 (signals (graph w))) w
        | None => w
        end in
      (value signal, w)
  end.

Definition resolve (newValue prev : Val) : Val :=
  match newValue with
  | VFun f => apply_fn f prev
  | _ => newValue
  end.

Definition write (s : nat) (newValue : Val) (w : World) : World :=
  match signals (graph w) !! s with
  | None => w
  | Some signal =>
      let resolvedValue := resolve newValue (value signal) in
      if strict_eq (value signal) resolvedValue then w
      else
        let w :=
          set_signals
            (<[s := {| value := resolvedValue;
                       subscribers := subscribers signal |}]>
               (signals (graph w))) w in
        snd (scheduleTask (Notify s) NORMAL w)
  end.

(** Running application code.  [createEffect] registers the closure
    [effect], runs it at once and hands it back. *)
Fixpoint exec (p : Prog) (w : World) : Outcome * World :=
  match p with
  | Return => (Normal, w)
  | Throw e => (Threw e, w)
  | Print v k => exec k (record_output v w)
  | Read s k => let (v, w) := read s w in exec (k v) w
  | Write s newValue k => exec k (write s newValue w)
  | CreateSignal initialValue k =>
      let (s, w) := createSignal initialValue w in exec (k s) w
  | CreateEffect fn k =>
      let effect := List.length (effects (graph w)) in
      let w := set_effects (effects (graph w) ++ [fn]) w in
      let w := record_effect effect w in
      let w := set_currentEffect (Some effect) w in
      let (o, w) := exec fn w in
      let w := set_currentEffect None w in
      match o with
      | Normal => exec (k effect) w
      | Threw e => (Threw e, w)
      end
  | ScheduleTask callback priority k =>
      let (taskId, w) := scheduleTask (UserFn callback) priority w in
      exec (k taskId) w
  | CancelTask taskId k =>
      let (b, w) := cancelTask taskId w in exec (k b) w
  end.

(** The closure [effect] of [createEffect]: the function the subscriber
    sets hold, and the function [createEffect] returns. *)
Definition run_effect (effect : nat) (w : World) : Outcome * World :=
  match effects (graph w) !! effect with
  | None => (Normal, w)
  | Some fn =>
      let w := record_effect effect w in
      let w := set_currentEffect (Some effect) w in
      let (o, w) := exec fn w in
      (o, set_currentEffect None w)
  end.

Definition createEffect (fn : Prog) (w : World) : Outcome * nat * World :=
  let effect := List.length (effects (graph w)) in
  let w := set_effects (effects (graph w) ++ [fn]) w in
  let (o, w) := run_effect effect w in
  (o, effect, w).

(** [for (const subscriber of subscribers) subscriber();] the first
    subscriber that throws ends the loop. *)
Fixpoint run_subscribers (l : list nat) (w : World) : Outcome * World :=
  match l with
  | [] => (Normal, w)
  | subscriber :: l' =>
      match run_effect subscriber w with
      | (Normal, w) => run_subscribers l' w
      | (Threw e, w) => (Threw e, w)
      end
  end.

(** [task.callback()] *)
Definition invoke (c : Closure) (w : World) : Outcome * World :=
  match c with
  | UserFn body => exec body w
  | Notify s =>
      match signals (graph w) !! s with
      | None => (Normal, w)
      | Some signal => run_subscribers (subscribers signal) w
      end
  end.

(** *** processTaskQueue *)

(** How the [while] loop over one queue ended: the queue ran empty, the
    frame budget ran out (a continuation is armed and the function
    returns), or the bound on the number of iterations was reached. *)
Inductive LoopExit := Emptied | Yielded | Starved.

Definition over_budget (p : Priority) (w : World) : bool * World :=
  match p with
  | HIGH => (false, w)
  | _ =>
      let (t, w) := performance_now w in
      ((currentFrameDeadline (sched w) <=? t)%Z, w)
  end.

Fixpoint run_queue (fuel : nat) (p : Priority) (w : World)
    : LoopExit * World :=
  match queue p w with
  | [] => (Emptied, w)
  | task :: rest =>
      match fuel with
      | 0 => (Starved, w)
      | S fuel =>
          let (over, w) := over_budget p w in
          if over then
            (Yielded,
             requestAnimationFrame Continuation (set_isScheduled true w))
          else
            let w := put_queue p rest w in
            let w := record_task task w in
            let (o, w) := invoke (callback task) w in
            let w :=
              match o with
              | Normal => w
              | Threw error => console_error error w
              end in
            run_queue fuel p w
      end
  end.

Definition processTaskQueue (fuel : nat) (w : World) : LoopExit * World :=
  let (_startTime, w) := performance_now w in
  let w := set_isScheduled false w in
  match run_queue fuel HIGH w with
  | (Emptied, w) =>
      match run_queue fuel NORMAL w with
      | (Emptied, w) => run_queue fuel LOW w
      | r => r
      end
  | r => r
  end.

(** *** The host's turn structure *)

(** The microtask checkpoint at the end of a synchronous turn. *)
Fixpoint run_microtasks (turns fuel : nat) (w : World) : World :=
  match turns with
  | 0 => w
  | S turns =>
      match microtasks (host w) with
      | 0 => w
      | S n =>
          let w := with_host (fun h =>
            {| ticks := ticks h; microtasks := n;
               frames := frames h; errors := errors h |}) w in
          run_microtasks turns fuel (snd (processTaskQueue fuel w))
      end
  end.

(** One animation frame: the callbacks registered so far run in order.
    The continuation of [processTaskQueue] opens a new budget and queues
    the drain; an [afterLayout] callback is called (an exception in it is
    the host's to report). *)
Definition run_frame_callback (f : Frame) (w : World) : World :=
  match f with
  | Continuation =>
      let (t, w) := performance_now w in
      queueMicrotask (set_deadline (t + frameLength) w)
  | Layout cb => snd (invoke cb w)
  end.

Definition run_frame (w : World) : World :=
  let cbs := frames (host w) in
  let w := with_host (fun h =>
    {| ticks := ticks h; microtasks := microtasks h;
       frames := []; errors := errors h |}) w in
  fold_left (fun w f => run_frame_callback f w) cbs w.

(** A run of [scheduleTask] calls, one per request, in order. *)
Definition schedule_all (reqs : list (Closure * Priority)) (w : World)
    : World :=
  fold_left (fun w r => snd (scheduleTask (fst r) (snd r) w)) reqs w.

End Runtime.

(** *** Vocabulary of the statements *)

Definition priority_eqb (p q : Priority) : bool :=
  priority_index p =? priority_index q.

(** The task records that a run of [scheduleTask] calls creates when the
    first of them receives the id [n]. *)
Fixpoint tasks_from (n : nat) (reqs : list (Closure * Priority))
    : list Task :=
  match reqs with
  | [] => []
  | r :: reqs =>
      {| id := n; callback := fst r; priority := snd r |}
        :: tasks_from (S n) reqs
  end.

(** The tasks of one priority, in the order of the list. *)
Definition tier (p : Priority) (l : list Task) : list Task :=
  List.filter (fun t => priority_eqb (priority t) p) l.

(** The tasks created before the task counter reached [n]. *)
Definition older (n : nat) (l : list Task) : list Task :=
  List.filter (fun t => id t <? n) l.

(** Callbacks that do not call back into the runtime: they print, then
    return or throw. *)
Fixpoint inert (p : Prog) : bool :=
  match p with
  | Return | Throw _ => true
  | Print _ k => inert k
  | _ => false
  end.

Definition inert_task (t : Task) : bool :=
  match callback t with
  | UserFn body => inert body
  | Notify _ => false
  end.

(** What an inert callback throws, if it throws. *)
Fixpoint thrown (p : Prog) : option Val :=
  match p with
  | Throw e => Some e
  | Print _ k => thrown k
  | _ => None
  end.

Definition thrown_by (t : Task) : option Val :=
  match callback t with
  | UserFn body => thrown body
  | Notify _ => None
  end.

Definition outcome_of (p : Prog) : Outcome :=
  match thrown p with
  | Some e => Threw e
  | None => Normal
  end.

(** The exceptions a list of tasks raises, in order. *)
Definition reports (l : list Task) : list Val := omap thrown_by l.

Definition outcome_by (t : Task) : Outcome :=
  match thrown_by t with Some e => Threw e | None => Normal end.

(** [keeps n w w']: going from [w] to [w'], the tasks created before the
    counter reached [n] were at most removed, never added or reordered. *)
Definition keeps (n : nat) (w w' : World) : Prop :=
  n <= nextTaskId (sched w') /\
  forall q, sublist (older n (queue q w')) (older n (queue q w)).

(** The effect closure [e] is in the subscriber set of the signal [s]. *)
Definition subscribed (e s : nat) (w : World) : Prop :=
  exists signal,
    signals (graph w) !! s = Some signal /\ e ∈ subscribers signal.

(** The frame budget of [w] outlasts every reading of the clock. *)
Definition within_budget (clock : nat -> Z) (w : World) : Prop :=
  forall n, (clock n < currentFrameDeadline (sched w))%Z.

(** *** Example programs, from the project's documentation *)

(** A clock that stands still and updaters that return their argument. *)
Definition still : nat -> Z := fun _ => 0%Z.
Definition identity_fn : nat -> Val -> Val := fun _ v => v.

(** One synchronous turn of application code followed by the microtask
    checkpoint. *)
Definition turn (script : Prog) (w : World) : World :=
  run_microtasks still identity_fn 8 64 (snd (exec still identity_fn script w)).

(** "Signal Batching": two signals, an effect that reads both, and one
    handler that writes both. *)
Definition batching_example : Prog :=
  CreateSignal (VStr "John") (fun first =>
  CreateSignal (VStr "Doe") (fun last =>
  CreateEffect
    (Read first (fun f => Read last (fun l => Print f (Print l Return))))
    (fun _ =>
  Write first (VStr "Jane") (Write last (VStr "Smith") Return)))).

(** [const [count, setCount] = createSignal(0);
     const dispose = createEffect(() => console.log(count()));] *)
Definition counter_example : Prog :=
  CreateSignal (VNum 0) (fun count =>
  CreateEffect (Read count (fun c => Print c Return)) (fun _ => Return)).

(** "Dependency Tracking": the effect reads [b] only while [a] is
    positive. *)
Definition branching_effect (a b : nat) : Prog :=
  Read a (fun va =>
    match va with
    | VNum z =>
        if (0 <? z)%Z then Read b (fun vb => Print va (Print vb Return))
        else Print va Return
    | _ => Return
    end).

Definition branching_example : Prog :=
  CreateSignal (VNum 1) (fun a =>
  CreateSignal (VNum 2) (fun b =>
  CreateEffect (branching_effect a b) (fun _ => Return))).

(** The spec's reading of the writer: no write can leave a function in a
    signal that held none. *)
Definition writer_never_stores_function : Prop :=
  forall (clock : nat -> Z) (apply_fn : nat -> Val -> Val)
         (s : nat) (newValue : Val) (w : World) (before after : SignalValue),
    signals (graph w) !! s = Some before ->
    is_function (value before) = false ->
    signals (graph (write clock apply_fn s newValue w)) !! s = Some after ->
    is_function (value after) = false.

(** What is left of [processTaskQueue] once its [for] loop is at the tier
    [p]: the rest of the [while] loop of that tier, then the tiers after
    it.  [n] bounds the iterations of the loop under way, [fuel] those of
    each later loop; [processTaskQueue] is [drain_from] at [HIGH], after
    the clock reading and the reset of the flag. *)
Definition drain_from (clock : nat -> Z) (apply_fn : nat -> Val -> Val)
    (n fuel : nat) (p : Priority) (w : World) : LoopExit * World :=
  match p with
  | HIGH =>
      match run_queue clock apply_fn n HIGH w with
      | (Emptied, w) =>
          match run_queue clock apply_fn fuel NORMAL w with
          | (Emptied, w) => run_queue clock apply_fn fuel LOW w
          | r => r
          end
      | r => r
      end
  | NORMAL =>
      match run_queue clock apply_fn n NORMAL w with
      | (Emptied, w) => run_queue clock apply_fn fuel LOW w
      | r => r
      end
  | LOW => run_queue clock apply_fn n LOW w
  end.



(** *** reactivity.ts: createMemo *)

(** [createMemo(fn)]: [createSignal(fn())], then
    [createEffect(() => setValue(fn()))]; the reader of the signal is
    handed back.  A function of the application that returns a value is
    given in continuation-passing form: [fn k] is the code of [fn()]
    followed by [k] applied to what it returns; the continuation [k] of
    [createMemo] receives the memo's signal. *)
Definition createMemo (fn : (Val -> Prog) -> Prog) (k : nat -> Prog) : Prog :=
  fn (fun initialValue =>
  CreateSignal initialValue (fun value =>
  CreateEffect (fn (fun v => Write value v Return)) (fun _ =>
  k value))).

(** [() => g(source())], for a pure function [g] whose results are
    primitive values ([undefined], [null], booleans, integers, strings):
    called twice on one value of the source, it returns two values that
    [===] holds equal.  (A function that builds an object or an array
    returns a new one at each call; it is not of this form.) *)
Definition derived (source : nat) (g : Val -> Primitive)
    : (Val -> Prog) -> Prog :=
  fun k => Read source (fun v => k (of_primitive (g v))).

(** *** Vocabulary of the statements, continued *)

(** Every queued task, in the order in which a drain takes them. *)
Definition queued (w : World) : list Task :=
  queue HIGH w ++ queue NORMAL w ++ queue LOW w.

(** The ids of the queued tasks are distinct and below the counter. *)
Definition well_numbered (w : World) : Prop :=
  NoDup (id <$> queued w) /\
  Forall (fun t => id t < nextTaskId (sched w)) (queued w).

Definition other_id (taskId : nat) (t : Task) : bool := negb (has_id taskId t).

(** A drain is on its way: [processTaskQueue] is a queued microtask, or
    its continuation is an animation-frame callback. *)
Definition armed (w : World) : Prop :=
  0 < microtasks (host w) \/ Continuation ∈ frames (host w).

(** No queued task is left without a drain on its way. *)
Definition attended (w : World) : Prop :=
  (queued w <> [] -> isScheduled (sched w) = true) /\
  (isScheduled (sched w) = true -> armed w).

(** Going from [w] to [w'], the drain was queued at most once: not at
    all if it was pending in [w], once if it is pending in [w'] only. *)
Definition armed_once (w w' : World) : Prop :=
  microtasks (host w') =
    microtasks (host w)
      + (if isScheduled (sched w) then 0
         else if isScheduled (sched w') then 1 else 0) /\
  (isScheduled (sched w) = true ->
   isScheduled (sched w') = true /\
   currentFrameDeadline (sched w') = currentFrameDeadline (sched w) /\
   ticks (host w') = ticks (host w)).

(** Going from [w] to [w'] with the flag not set at the end: it was not
    set before, and no queue has gained a task. *)
Definition quiet (w w' : World) : Prop :=
  isScheduled (sched w') = false ->
  isScheduled (sched w) = false /\
  forall q, queue q w' `sublist_of` queue q w.

(** Going from [w] to [w'], a set flag stays backed by a drain on its
    way, and a drain on its way is not lost. *)
Definition keeps_armed (w w' : World) : Prop :=
  ((isScheduled (sched w) = true -> armed w) ->
   (isScheduled (sched w') = true -> armed w')) /\
  (armed w -> armed w').

Definition tended (w w' : World) : Prop := quiet w w' /\ keeps_armed w w'.

(** While the tier [p] is drained: unless the flag was set again, the
    tiers before [p] are empty. *)
Definition drained_before (p : Priority) (w : World) : Prop :=
  isScheduled (sched w) = false ->
  forall q, priority_index q < priority_index p -> queue q w = [].

(** Code that only reads signals and prints, and ends with the outcome
    [o]. *)
Fixpoint reads_only (o : Outcome) (p : Prog) : Prop :=
  match p with
  | Return => o = Normal
  | Throw e => o = Threw e
  | Print _ k => reads_only o k
  | Read _ k => forall v, reads_only o (k v)
  | _ => False
  end.

(** Effect bodies that only read signals and print, and return. *)
Definition observer (p : Prog) : Prop := reads_only Normal p.

(** The effect closures of [l] exist and are observers. *)
Definition observers (l : list nat) (w : World) : Prop :=
  Forall (fun e => exists fn, effects (graph w) !! e = Some fn /\ observer fn) l.

(** A document-free world with two tasks queued: task 1 at LOW and task 2
    at HIGH. *)
Definition two_queued : World :=
  schedule_all still
    [(UserFn (Print (VNum 1) Return), LOW);
     (UserFn (Print (VNum 2) Return), HIGH)] initial.

(** [n => typeof n === 'number' ? 2 * n : undefined] *)
Definition double (v : Val) : Primitive :=
  match v with VNum z => PNum (2 * z) | _ => PUndefined end.

(** A signal with three subscribers, the second of which throws: two
    effects created in one script (the throwing one ends it), a third
    created later. *)
Definition throwing_example : Prog :=
  CreateSignal (VNum 0) (fun s =>
  CreateEffect (Read s (fun c => Print c Return)) (fun _ =>
  CreateEffect (Read s (fun _ => Throw (VStr "boom"))) (fun _ => Return))).

Definition late_observer : Prog :=
  CreateEffect (Read 0 (fun c => Print c Return)) (fun _ => Return).

Definition three_subscribers : World :=
  snd (exec still identity_fn late_observer
         (snd (exec still identity_fn throwing_example initial))).



(** An effect that creates an effect and then reads a signal. *)
Definition nested_example : Prog :=
  CreateSignal (VNum 0) (fun s =>
  CreateEffect
    (CreateEffect (Print (VStr "inner") Return)
       (fun _ => Read s (fun _ => Return)))
    (fun _ => Return)).

End Core.

(** ** store.ts *)

Module Store.
Import Core.

(** The outcome of a call into the store: a value, or the [TypeError] of
    indexing [undefined]. *)
Inductive Result (A : Type) :=
| Returned (a : A)
| ThrewTypeError.
Arguments Returned {A} a.
Arguments ThrewTypeError {A}.

(** [const state: Record<keyof T, ReturnType<typeof createSignal>>]: each
    key with the signal created for it, in insertion order. *)
Definition State := list (string * nat).

(** [state[key]] *)
Fixpoint state_get (key : string) (state : State) : option nat :=
  match state with
  | [] => None
  | (k, signal) :: state =>
      if String.eqb k key then Some signal else state_get key state
  end.

(** [state[key] = signal] *)
Fixpoint state_set (key : string) (signal : nat) (state : State) : State :=
  match state with
  | [] => [(key, signal)]
  | (k, s) :: state' =>
      if String.eqb k key then (key, signal) :: state'
      else (k, s) :: state_set key signal state'
  end.

(** [for (const [key, value] of Object.entries(initialState))
       state[key] = createSignal(value);] *)
Fixpoint create_state (entries : list (string * Val)) (state : State)
    (w : World) : State * World :=
  match entries with
  | [] => (state, w)
  | (key, value) :: entries =>
      let (signal, w) := createSignal value w in
      create_state entries (state_set key signal state) w
  end.

(** [createStore(initialState)], on the entries of [initialState] as
    [Object.entries] lists them; it yields the record [state] that the
    closures [getState] and [setState] capture. *)
Definition createStore (initialState : list (string * Val)) (w : World)
    : State * World :=
  create_state initialState [] w.

(** [getState(key)]: [state[key][0]()] *)
Definition getState (state : State) (key : string) (w : World)
    : Result Val * World :=
  match state_get key state with
  | Some signal => let (v, w) := read signal w in (Returned v, w)
  | None => (ThrewTypeError, w)
  end.

Section Runtime.

Variable clock : nat -> Z.
Variable apply_fn : nat -> Val -> Val.

(** [setState(key, value)]: [state[key][1](value)] *)
Definition setState (state : State) (key : string) (value : Val) (w : World)
    : Result unit * World :=
  match state_get key state with
  | Some signal => (Returned tt, write clock apply_fn signal value w)
  | None => (ThrewTypeError, w)
  end.

End Runtime.

(** *** Vocabulary of the statements *)

(** [initialState[key]] *)
Fixpoint entry (key : string) (entries : list (string * Val)) : option Val :=
  match entries with
  | [] => None
  | (k, v) :: entries => if String.eqb k key then Some v else entry key entries
  end.

(** Every key of the state has a signal of its own, created already. *)
Definition allotted (state : State) (w : World) : Prop :=
  (forall k1 k2 s, state_get k1 state = Some s -> state_get k2 state = Some s ->
     k1 = k2) /\
  (forall k s, state_get k state = Some s -> s < List.length (signals (graph w))).

End Store.

(** ** The render target *)

Module Dom.

(** A DOM node is an element (in the SVG namespace or not) or a text
    node. *)
Inductive Kind :=
| ElementNode (svg : bool) (tag : string)
| TextNode (data : string).

Record Node := {
  kind : Kind;
  parentNode : option nat;
  childNodes : list nat;
  attributes : list (string * string);
  listeners : list (string * Val);
  style : list (string * Val)
}.

(** The calls made on the document and its nodes, for observation. *)
Inductive Mutation :=
| CreateElement (node : nat) (tag : string)
| CreateTextNode (node : nat) (data : string)
| AppendChild (parent child : nat)
| InsertBefore (parent child reference : nat)
| RemoveChild (parent child : nat)
| ReplaceChild (parent newChild oldChild : nat)
| ClearChildren (parent : nat)
| SetAttribute (node : nat) (name value : string)
| RemoveAttribute (node : nat) (name : string)
| AddEventListener (node : nat) (event : string) (listener : Val)
| RemoveEventListener (node : nat) (event : string) (listener : Val)
| SetStyle (node : nat) (property : string) (value : Val).

Inductive Exn :=
| TypeError
| NotFoundError
| HierarchyRequestError
| InvalidCharacterError.

(** The outcome of a call: a value, an exception, or the bound on the
    recursion depth was reached. *)
Inductive Res (A : Type) :=
| Ok (a : A)
| Thrown (e : Exn)
| Diverged.
Arguments Ok {A} a.
Arguments Thrown {A} e.
Arguments Diverged {A}.

(** Calls into application functions that the reconciler makes: a [ref]
    function receives a node or [null]; a cleanup receives nothing. *)
Inductive Call :=
| CallRef (ref : Val) (node : option nat)
| CallCleanup (cleanup : Val).

(** The document: its nodes, each named by its index; the mutation log;
    the callbacks handed to [afterLayout], each a [ref] function with the
    node it captured; and the application functions called so far. *)
Record Page := {
  nodes : list Node;
  mutations : list Mutation;
  layout : list (Val * option nat);
  calls : list Call
}.

Definition empty_page : Page :=
  {| nodes := []; mutations := []; layout := []; calls := [] |}.

Definition M (A : Type) : Type := Page -> Res A * Page.

Definition ret {A} (a : A) : M A := fun pg => (Ok a, pg).

Definition throw {A} (e : Exn) : M A := fun pg => (Thrown e, pg).

Definition diverge {A} : M A := fun pg => (Diverged, pg).

Definition bind {A B} (m : M A) (k : A -> M B) : M B :=
  fun pg =>
    match m pg with
    | (Ok a, pg) => k a pg
    | (Thrown e, pg) => (Thrown e, pg)
    | (Diverged, pg) => (Diverged, pg)
    end.

Notation "x <- m ;; k" := (bind m (fun x => k))
  (at level 20, m at level 99, k at level 200, only parsing).
Notation "' pat <- m ;; k" := (bind m (fun x => match x with pat => k end))
  (at level 20, pat pattern, m at level 99, k at level 200, only parsing).
Notation "m ;; k" := (bind m (fun _ => k))
  (at level 100, k at level 200, only parsing, right associativity).

Fixpoint for_each {A} (f : A -> M unit) (l : list A) : M unit :=
  match l with
  | [] => ret tt
  | x :: l => f x ;; for_each f l
  end.

Definition set_nodes (l : list Node) (pg : Page) : Page :=
  {| nodes := l; mutations := mutations pg; layout := layout pg;
     calls := calls pg |}.

Definition log (m : Mutation) : M unit := fun pg =>
  (Ok tt,
   {| nodes := nodes pg; mutations := mutations pg ++ [m];
      layout := layout pg; calls := calls pg |}).

Definition call (c : Call) : M unit := fun pg =>
  (Ok tt,
   {| nodes := nodes pg; mutations := mutations pg; layout := layout pg;
      calls := calls pg ++ [c] |}).

(** [afterLayout(() => { ref(node); })]: scheduler.ts hands the closure
    to [requestAnimationFrame]; the document keeps it, as the function
    and the node it captured, until the next frame. *)
Definition afterLayout_ref (ref : Val) (node : option nat) : M unit :=
  fun pg =>
  (Ok tt,
   {| nodes := nodes pg; mutations := mutations pg;
      layout := layout pg ++ [(ref, node)]; calls := calls pg |}).

(** Dereferencing a node; [undefined] has no properties. *)
Definition get (n : option nat) : M Node := fun pg =>
  match n with
  | None => (Thrown TypeError, pg)
  | Some n =>
      match nodes pg !! n with
      | Some nd => (Ok nd, pg)
      | None => (Thrown TypeError, pg)
      end
  end.

Definition put (n : nat) (nd : Node) : M unit := fun pg =>
  (Ok tt, set_nodes (<[n := nd]> (nodes pg)) pg).

Definition is_element (nd : Node) : bool :=
  match kind nd with ElementNode _ _ => true | TextNode _ => false end.

Definition with_parent (p : option nat) (nd : Node) : Node :=
  {| kind := kind nd; parentNode := p; childNodes := childNodes nd;
     attributes := attributes nd; listeners := listeners nd;
     style := style nd |}.

Definition with_children (l : list nat) (nd : Node) : Node :=
  {| kind := kind nd; parentNode := parentNode nd; childNodes := l;
     attributes := attributes nd; listeners := listeners nd;
     style := style nd |}.

Definition with_attributes (l : list (string * string)) (nd : Node) : Node :=
  {| kind := kind nd; parentNode := parentNode nd;
     childNodes := childNodes nd; attributes := l;
     listeners := listeners nd; style := style nd |}.

Definition with_listeners (l : list (string * Val)) (nd : Node) : Node :=
  {| kind := kind nd; parentNode := parentNode nd;
     childNodes := childNodes nd; attributes := attributes nd;
     listeners := l; style := style nd |}.

Definition with_style (l : list (string * Val)) (nd : Node) : Node :=
  {| kind := kind nd; parentNode := parentNode nd;
     childNodes := childNodes nd; attributes := attributes nd;
     listeners := listeners nd; style := l |}.

(** Names accepted by [document.createElement]: the ASCII part of the
    XML [Name] production. *)
Definition name_start_char (c : ascii) : bool :=
  let n := nat_of_ascii c in
  ((65 <=? n) && (n <=? 90)) || ((97 <=? n) && (n <=? 122))
  || (n =? 95) || (n =? 58) || (128 <=? n).

Definition name_char (c : ascii) : bool :=
  let n := nat_of_ascii c in
  name_start_char c || ((48 <=? n) && (n <=? 57)) || (n =? 45) || (n =? 46).

Definition valid_name (s : string) : bool :=
  match s with
  | EmptyString => false
  | String c s' => name_start_char c && forallb name_char (list_ascii_of_string s')
  end.

Definition fresh_node (k : Kind) : Node :=
  {| kind := k; parentNode := None; childNodes := []; attributes := [];
     listeners := []; style := [] |}.

Definition allocate (k : Kind) : M nat := fun pg =>
  (Ok (List.length (nodes pg)), set_nodes (nodes pg ++ [fresh_node k]) pg).

(** [document.createElement(tag)] and
    [document.createElementNS('http://www.w3.org/2000/svg', tag)] *)
Definition createElement (svg : bool) (tag : string) : M nat :=
  if valid_name tag then
    n <- allocate (ElementNode svg tag) ;;
    log (CreateElement n tag) ;;
    ret n
  else throw InvalidCharacterError.

(** [document.createTextNode(data)] *)
Definition createTextNode (data : string) : M nat :=
  n <- allocate (TextNode data) ;;
  log (CreateTextNode n data) ;;
  ret n.

Definition remove_id (n : nat) (l : list nat) : list nat :=
  List.filter (fun m => negb (m =? n)) l.

(** Taking a node out of its parent's child list, if it has a parent. *)
Definition detach (child : nat) : M unit :=
  c <- get (Some child) ;;
  match parentNode c with
  | None => ret tt
  | Some p =>
      pn <- get (Some p) ;;
      put p (with_children (remove_id child (childNodes pn)) pn) ;;
      put child (with_parent None c)
  end.

Definition adopt (parent child : nat) (place : list nat -> list nat) : M unit :=
  detach child ;;
  pn <- get (Some parent) ;;
  c <- get (Some child) ;;
  put parent (with_children (place (childNodes pn)) pn) ;;
  put child (with_parent (Some parent) c).

Fixpoint insert_before (child reference : nat) (l : list nat) : list nat :=
  match l with
  | [] => [child]
  | m :: l' =>
      if m =? reference then child :: l
      else m :: insert_before child reference l'
  end.

Fixpoint replace_id (newChild oldChild : nat) (l : list nat) : list nat :=
  match l with
  | [] => []
  | m :: l' =>
      if m =? oldChild then newChild :: l'
      else m :: replace_id newChild oldChild l'
  end.

(** [parent.appendChild(child)] *)
Definition appendChild (parent : option nat) (child : nat) : M unit :=
  pn <- get parent ;;
  match parent with
  | None => throw TypeError
  | Some p =>
      if is_element pn && negb (p =? child) then
        adopt p child (fun l => l ++ [child]) ;;
        log (AppendChild p child)
      else throw HierarchyRequestError
  end.

Definition has_parent (parent : nat) (nd : Node) : bool :=
  match parentNode nd with
  | Some p => p =? parent
  | None => false
  end.

(** [parent.insertBefore(child, reference)] *)
Definition insertBefore (parent : option nat) (child reference : nat)
    : M unit :=
  pn <- get parent ;;
  match parent with
  | None => throw TypeError
  | Some p =>
      if is_element pn && negb (p =? child) then
        r <- get (Some reference) ;;
        if has_parent p r then
          (if child =? reference then ret tt
           else adopt p child (insert_before child reference)) ;;
          log (InsertBefore p child reference)
        else throw NotFoundError
      else throw HierarchyRequestError
  end.

(** [parent.removeChild(child)] *)
Definition removeChild (parent : option nat) (child : option nat) : M unit :=
  pn <- get parent ;;
  c <- get child ;;
  match parent, child with
  | Some p, Some ch =>
      if has_parent p c then
        detach ch ;;
        log (RemoveChild p ch)
      else throw NotFoundError
  | _, _ => throw TypeError
  end.

(** [parent.replaceChild(newChild, oldChild)] *)
Definition replaceChild (parent : option nat) (newChild oldChild : nat)
    : M unit :=
  pn <- get parent ;;
  match parent with
  | None => throw TypeError
  | Some p =>
      if is_element pn && negb (p =? newChild) then
        o <- get (Some oldChild) ;;
        if has_parent p o then
          (if newChild =? oldChild then ret tt
           else
             adopt p newChild (insert_before newChild oldChild) ;;
             detach oldChild) ;;
          log (ReplaceChild p newChild oldChild)
        else throw NotFoundError
      else throw HierarchyRequestError
  end.

(** [parent.textContent = ''] and [parent.innerHTML = ''] *)
Definition clearChildren (parent : option nat) : M unit :=
  pn <- get parent ;;
  match parent with
  | None => throw TypeError
  | Some p =>
      for_each detach (childNodes pn) ;;
      log (ClearChildren p)
  end.

Fixpoint assoc_set {V} (k : string) (v : V) (l : list (string * V))
    : list (string * V) :=
  match l with
  | [] => [(k, v)]
  | (k', v') :: l' =>
      if String.eqb k' k then (k, v) :: l' else (k', v') :: assoc_set k v l'
  end.

Definition assoc_remove {V} (k : string) (l : list (string * V))
    : list (string * V) :=
  List.filter (fun kv => negb (String.eqb (fst kv) k)) l.

(** Only elements have attributes and a style. *)
Definition get_element (n : option nat) : M (nat * Node) :=
  nd <- get n ;;
  match n with
  | Some i => if is_element nd then ret (i, nd) else throw TypeError
  | None => throw TypeError
  end.

(** Names accepted by [setAttribute]: not empty, and without ASCII
    whitespace, NUL, [/], [=] and [>]. *)
Definition attribute_name_char (c : ascii) : bool :=
  let n := nat_of_ascii c in
  negb ((n =? 0) || (n =? 9) || (n =? 10) || (n =? 12) || (n =? 13)
        || (n =? 32) || (n =? 47) || (n =? 61) || (n =? 62)).

Definition valid_attribute_name (s : string) : bool :=
  match s with
  | EmptyString => false
  | String _ _ => forallb attribute_name_char (list_ascii_of_string s)
  end.

(** The name under which an element holds the attribute [name]: an HTML
    element puts it in ASCII lower case, an element of the SVG namespace
    keeps it as given. *)
Definition attribute_name (k : Kind) (name : string) : string :=
  match k with
  | ElementNode false _ => toLowerCase name
  | _ => name
  end.

(** [node.setAttribute(name, value)] *)
Definition setAttribute (n : option nat) (name value : string) : M unit :=
  '(i, nd) <- get_element n ;;
  if valid_attribute_name name then
    put i (with_attributes
             (assoc_set (attribute_name (kind nd) name) value (attributes nd))
             nd) ;;
    log (SetAttribute i name value)
  else throw InvalidCharacterError.

(** [node.removeAttribute(name)] *)
Definition removeAttribute (n : option nat) (name : string) : M unit :=
  '(i, nd) <- get_element n ;;
  put i (with_attributes
           (assoc_remove (attribute_name (kind nd) name) (attributes nd))
           nd) ;;
  log (RemoveAttribute i name).

Definition same_listener (event : string) (listener : Val)
    (l : string * Val) : bool :=
  String.eqb (fst l) event && strict_eq (snd l) listener.

(** [node.addEventListener(event, listener)]: a listener already
    registered for the event is not registered twice. *)
Definition addEventListener (n : option nat) (event : string)
    (listener : Val) : M unit :=
  nd <- get n ;;
  match n with
  | None => throw TypeError
  | Some i =>
      (if nullish listener
          || existsb (same_listener event listener) (listeners nd)
       then ret tt
       else put i (with_listeners (listeners nd ++ [(event, listener)]) nd)) ;;
      log (AddEventListener i event listener)
  end.

Definition removeEventListener (n : option nat) (event : string)
    (listener : Val) : M unit :=
  nd <- get n ;;
  match n with
  | None => throw TypeError
  | Some i =>
      put i (with_listeners
               (List.filter (fun l => negb (same_listener event listener l))
                  (listeners nd)) nd) ;;
      log (RemoveEventListener i event listener)
  end.

(** [node.style[property] = value] *)
Definition setStyle (n : option nat) (property : string) (value : Val)
    : M unit :=
  '(i, nd) <- get_element n ;;
  put i (with_style (assoc_set property value (style nd)) nd) ;;
  log (SetStyle i property value).

(** *** Vocabulary of the statements *)

(** The place of a node in the tree: what it is, its parent and its
    children. *)
Definition shape (nd : Node) : Kind * option nat * list nat :=
  (kind nd, parentNode nd, childNodes nd).

(** The tree structure of the document. *)
Definition structure (pg : Page) : list (Kind * option nat * list nat) :=
  shape <$> nodes pg.

(** [n] names an element of the document. *)
Definition element_at (n : nat) (pg : Page) : Prop :=
  exists svg tag p c, structure pg !! n = Some (ElementNode svg tag, p, c).

(** A computation that, run on a document where [n] is an element,
    returns normally and leaves the tree structure as it was. *)
Definition stable (n : nat) (m : M unit) : Prop :=
  forall pg, element_at n pg ->
    exists pg', m pg = (Ok tt, pg') /\ structure pg' = structure pg.


Definition is_ref_call (c : Call) : bool :=
  match c with CallRef _ _ => true | CallCleanup _ => false end.

(** The calls of [ref] functions among the application calls made. *)
Definition ref_calls (pg : Page) : list Call :=
  List.filter is_ref_call (calls pg).

(** A computation that calls no [ref] function. *)
Definition silent {A} (m : M A) : Prop :=
  forall pg, ref_calls (snd (m pg)) = ref_calls pg.

(** The mutations logged since the log had [n] entries. *)
Definition mutations_since (n : nat) (pg : Page) : list Mutation :=
  drop n (mutations pg).

(** A step that, run on a document where [n] is an element of the kind
    [k], returns normally, leaves that element at [n] and turns its
    attributes [a] into [f a]. *)
Definition alters (k : Kind) (n : nat) (m : M unit)
    (f : list (string * string) -> list (string * string)) : Prop :=
  forall pg nd,
    nodes pg !! n = Some nd -> kind nd = k -> is_element nd = true ->
    exists pg' nd',
      m pg = (Ok tt, pg') /\ nodes pg' !! n = Some nd' /\
      kind nd' = k /\ attributes nd' = f (attributes nd).

End Dom.

(** ** Elements and the reconciler *)

Module Reconciler.
Import Dom.

(** [type: string | ((...args) => any)]; [Untyped] stands for a [type]
    that is neither. *)
Inductive ElType :=
| Tag (name : string)
| Comp (f : nat)
| Untyped.

(** What the reconciler meets where it expects an element: an [Element]
    object (types.ts), the object [updateChildren] substitutes for a
    primitive child ([{ type: '#text', props: {}, children: [], value }]),
    or a value that is no element at all (a primitive child, [null]).
    Props are an insertion-ordered record, [rendered] is the optional
    field that [diff] and [createDOMNode] assign. *)
#[warnings="-register-all"]
Inductive Element :=
| Elem (type : ElType) (props : list (string * Val))
       (children : list Element) (key : Val) (rendered : option Element)
| Text (value : string)
| Prim (v : Val).

Definition el_type (e : Element) : ElType :=
  match e with
  | Elem t _ _ _ _ => t
  | Text _ => Tag "#text"
  | Prim _ => Untyped
  end.

Definition el_props (e : Element) : list (string * Val) :=
  match e with Elem _ p _ _ _ => p | _ => [] end.

Definition el_children (e : Element) : list Element :=
  match e with Elem _ _ c _ _ => c | _ => [] end.

Definition el_key (e : Element) : Val :=
  match e with Elem _ _ _ k _ => k | _ => VUndefined end.

Definition el_rendered (e : Element) : option Element :=
  match e with Elem _ _ _ _ r => r | _ => None end.

Definition set_rendered (r : Element) (e : Element) : Element :=
  match e with
  | Elem t p c k _ => Elem t p c k (Some r)
  | _ => e
  end.

Definition set_children (c : list Element) (e : Element) : Element :=
  match e with
  | Elem t p _ k r => Elem t p c k r
  | _ => e
  end.

(** [if (e)] *)
Definition present (e : Element) : bool :=
  match e with Prim v => truthy v | _ => true end.

(** [e == null] *)
Definition absent (e : Element) : bool :=
  match e with Prim v => nullish v | _ => false end.

(** [typeof e === 'object'] *)
Definition el_is_object (e : Element) : bool :=
  match e with Prim v => is_object v | _ => true end.

(** [typeof e === 'string' || typeof e === 'number' ||
     typeof e === 'boolean'] *)
Definition el_is_primitive (e : Element) : bool :=
  match e with
  | Prim (VStr _) | Prim (VNum _) | Prim (VBool _) => true
  | _ => false
  end.

(** [String(e)] *)
Definition el_to_string (e : Element) : string :=
  match e with Prim v => to_string v | _ => "[object Object]" end.

(** Reading a property of [e] throws when [e] is [null] or
    [undefined]. *)
Definition deref (e : Element) : M unit :=
  if absent e then throw TypeError else ret tt.

(** [typeof a === typeof b], for two [type] fields. *)
Definition same_typeof (a b : ElType) : bool :=
  match a, b with
  | Tag _, Tag _ | Comp _, Comp _ | Untyped, Untyped => true
  | _, _ => false
  end.

(** The test of [diff] under "Different element types". *)
Definition different_types (a b : ElType) : bool :=
  negb (same_typeof a b)
  || match a, b with
     | Tag x, Tag y => negb (String.eqb x y)
     | _, _ => false
     end.

(** [props[name]]: a property of the object's own, or else what it
    inherits from [Object.prototype]. *)
Fixpoint lookup_prop (name : string) (props : list (string * Val)) : Val :=
  match props with
  | [] => inherited name
  | (k, v) :: props =>
      if String.eqb k name then v else lookup_prop name props
  end.

(** component.ts: [h(type, props, ...children)], for children given
    without nested arrays. *)
Definition h (type : ElType) (props : list (string * Val))
    (children : list Element) : Element :=
  Elem type props
    (List.filter
       (fun child =>
          match child with
          | Prim VUndefined | Prim VNull | Prim (VBool false) => false
          | _ => true
          end) children)
    (lookup_prop "key" props) None.

(** [name.startsWith('on')] *)
Definition starts_with_on (name : string) : bool :=
  match name with
  | String "o" (String "n" _) => true
  | _ => false
  end.

(** [name.slice(2).toLowerCase()] *)
Definition event_name (name : string) : string :=
  match name with
  | String _ (String _ rest) => toLowerCase rest
  | _ => EmptyString
  end.

(** The elements of [new Set([...a, ...b])], in insertion order. *)
Fixpoint dedup (l : list string) (seen : list string) : list string :=
  match l with
  | [] => []
  | x :: l =>
      if existsb (String.eqb x) seen then dedup l seen
      else x :: dedup l (x :: seen)
  end.

Definition special_prop (name : string) : bool :=
  String.eqb name "children" || String.eqb name "key"
  || String.eqb name "ref".

(** The body of the loop of [updateDOMProps], for one prop name. *)
Definition update_prop (node : option nat)
    (oldProps newProps : list (string * Val)) (name : string) : M unit :=
  if special_prop name then ret tt
  else
    let oldValue := lookup_prop name oldProps in
    let newValue := lookup_prop name newProps in
    if nullish newValue || strict_eq newValue (VBool false) then
      if starts_with_on name then
        removeEventListener node (event_name name) oldValue
      else removeAttribute node name
    else if String.eqb name "style" && is_object newValue then
      match newValue with
      | VObj _ fields =>
          for_each (fun kv => setStyle node (fst kv) (snd kv)) fields
      | _ => ret tt
      end
    else if starts_with_on name && is_function newValue then
      (if truthy oldValue
       then removeEventListener node (event_name name) oldValue
       else ret tt) ;;
      addEventListener node (event_name name) newValue
    else if is_boolean newValue && truthy newValue then
      setAttribute node name ""
    else setAttribute node name (to_string newValue).

Definition updateDOMProps (node : option nat)
    (oldProps newProps : list (string * Val)) : M unit :=
  let allProps := dedup (map fst oldProps ++ map fst newProps) [] in
  for_each (update_prop node oldProps newProps) allProps ;;
  let ref := lookup_prop "ref" newProps in
  if truthy ref && is_function ref then afterLayout_ref ref node
  else ret tt.

Section Components.

(** What calling the component function [f] on its props returns
    (components are pure). *)
Variable component : nat -> list (string * Val) -> Element.

(** The loop over [element.children] in [createDOMNode], given the
    function to call on an element child; it yields the children as the
    calls left them. *)
Fixpoint create_children
    (create : Element -> M (nat * Element)) (node : nat)
    (children : list Element) : M (list Element) :=
  match children with
  | [] => ret []
  | child :: rest =>
      child' <-
        (if absent child then ret child
         else if el_is_primitive child then
           t <- createTextNode (el_to_string child) ;;
           appendChild (Some node) t ;;
           ret child
         else
           '(n, child') <- create child ;;
           appendChild (Some node) n ;;
           ret child') ;;
      rest' <- create_children create node rest ;;
      ret (child' :: rest')
  end.

Fixpoint createDOMNode (fuel : nat) (element : Element)
    : M (nat * Element) :=
  match fuel with
  | 0 => diverge
  | S fuel =>
      deref element ;;
      match el_type element with
      | Comp f =>
          let rendered := component f (el_props element) in
          '(node, rendered) <- createDOMNode fuel rendered ;;
          ret (node, set_rendered rendered element)
      | Tag type =>
          node <- createElement (String.eqb type "svg") type ;;
          updateDOMProps (Some node) [] (el_props element) ;;
          children <-
            create_children (createDOMNode fuel) node (el_children element) ;;
          ret (node, set_children children element)
      | Untyped =>
          node <- createTextNode (el_to_string element) ;;
          ret (node, element)
      end
  end.

(** [typeof child === 'object' ? child : { type: '#text', ... }] *)
Definition normalize (child : Element) : Element :=
  if el_is_object child then child else Text (el_to_string child).

(** What becomes of the caller's child once its normalized form has been
    through [diff] or [createDOMNode]: an object child is that object. *)
Definition denormalize (child result : Element) : Element :=
  if el_is_object child then result else child.

(** [`index:${i}`] *)
Definition index_key (i : nat) : string :=
  String.append "index:" (NilZero.string_of_uint (Nat.to_uint i)).

(** [child.key != null ? String(child.key) : `index:${i}`] *)
Definition child_key (child : Element) (i : nat) : M string :=
  deref child ;;
  let key := el_key child in
  ret (if nullish key then index_key i else to_string key).

(** An entry of [oldKeyMap]. *)
Record Info := { element : Element; index : nat; node : option nat }.

(** [Map.prototype.set] *)
Fixpoint map_set (key : string) (info : Info) (m : list (string * Info))
    : list (string * Info) :=
  match m with
  | [] => [(key, info)]
  | (k, i) :: m' =>
      if String.eqb k key then (key, info) :: m'
      else (k, i) :: map_set key info m'
  end.

(** [Map.prototype.get] *)
Fixpoint map_get (key : string) (m : list (string * Info)) : option Info :=
  match m with
  | [] => None
  | (k, i) :: m' => if String.eqb k key then Some i else map_get key m'
  end.

(** [normalizedOldChildren.forEach((child, i) => oldKeyMap.set(...))] *)
Fixpoint build_key_map (parentNode : option nat) (children : list Element)
    (i : nat) (m : list (string * Info)) : M (list (string * Info)) :=
  match children with
  | [] => ret m
  | child :: rest =>
      key <- child_key child i ;;
      parent <- get parentNode ;;
      build_key_map parentNode rest (S i)
        (map_set key {| element := child; index := i;
                        node := childNodes parent !! i |} m)
  end.

(** The "only appending" loop of [updateChildren]. *)
Fixpoint append_children
    (create : Element -> M (nat * Element)) (parentNode : option nat)
    (children : list Element) : M (list Element) :=
  match children with
  | [] => ret []
  | child :: rest =>
      child' <-
        (if absent child then ret child
         else
           '(n, child') <-
             (if el_is_object child then create child
              else
                t <- createTextNode (el_to_string child) ;;
                ret (t, child)) ;;
           appendChild parentNode n ;;
           ret child') ;;
      rest' <- append_children create parentNode rest ;;
      ret (child' :: rest')
  end.

(** "First pass: handle updates and moves".  It yields the set
    [processed], the array [newChildNodes] and the children as the calls
    left them. *)
Fixpoint first_pass
    (diff : Element -> Element -> option nat -> M (option nat * Element))
    (create : Element -> M (nat * Element))
    (oldKeyMap : list (string * Info))
    (newChildren : list Element) (i : nat)
    (processed : list string) (newChildNodes : list nat)
    : M (list string * list nat * list Element) :=
  match newChildren with
  | [] => ret (processed, newChildNodes, [])
  | child :: rest =>
      let newChild := normalize child in
      key <- child_key newChild i ;;
      '(processed, newChildNode, newChild) <-
        match map_get key oldKeyMap with
        | Some oldChildInfo =>
            '(n, e) <- diff (element oldChildInfo) newChild
                          (node oldChildInfo) ;;
            ret (key :: processed, n, e)
        | None =>
            '(n, e) <- create newChild ;;
            ret (processed, Some n, e)
        end ;;
      let newChildNodes :=
        match newChildNode with
        | Some n => newChildNodes ++ [n]
        | None => newChildNodes
        end in
      '(processed, newChildNodes, rest) <-
        first_pass diff create oldKeyMap rest (S i) processed
          newChildNodes ;;
      ret (processed, newChildNodes, denormalize child newChild :: rest)
  end.

(** [a === b], for a node's parent and a node *)
Definition same_node (a b : option nat) : bool :=
  match a, b with
  | Some x, Some y => x =? y
  | _, _ => false
  end.

(** "Second pass: remove unused old nodes" *)
Definition second_pass (parentNode : option nat)
    (oldKeyMap : list (string * Info)) (processed : list string) : M unit :=
  for_each
    (fun entry : string * Info =>
       if existsb (String.eqb (fst entry)) processed then ret tt
       else
         n <- get (node (snd entry)) ;;
         if same_node (Dom.parentNode n) parentNode
         then removeChild parentNode (node (snd entry))
         else ret tt)
    oldKeyMap.

(** "Final pass: ensure correct order" *)
Fixpoint final_pass (parentNode : option nat) (newChildNodes : list nat)
    (i : nat) : M unit :=
  match newChildNodes with
  | [] => ret tt
  | childNode :: rest =>
      parent <- get parentNode ;;
      (match childNodes parent !! i with
       | Some currentChild =>
           if childNode =? currentChild then ret tt
           else insertBefore parentNode childNode currentChild
       | None => appendChild parentNode childNode
       end) ;;
      final_pass parentNode rest (S i)
  end.

Definition updateChildren
    (diff : Element -> Element -> option nat -> M (option nat * Element))
    (create : Element -> M (nat * Element))
    (parentNode : option nat) (oldChildren newChildren : list Element)
    : M (list Element) :=
  match oldChildren, newChildren with
  | [], _ => append_children create parentNode newChildren
  | _, [] => clearChildren parentNode ;; ret []
  | _, _ =>
      oldKeyMap <- build_key_map parentNode (map normalize oldChildren) 0 [] ;;
      '(processed, newChildNodes, children) <-
        first_pass diff create oldKeyMap newChildren 0 [] [] ;;
      second_pass parentNode oldKeyMap processed ;;
      final_pass parentNode newChildNodes 0 ;;
      ret children
  end.

(** [oldRendered || null] *)
Definition or_null (rendered : option Element) : Element :=
  match rendered with
  | Some e => if present e then e else Prim VNull
  | None => Prim VNull
  end.

(** "Different element types": mount the new element in place of the
    old node. *)
Definition replace_node (create : Element -> M (nat * Element))
    (newElement : Element) (dom : option nat)
    : M (option nat * Element) :=
  '(newNode, newElement) <- create newElement ;;
  d <- get dom ;;
  (match Dom.parentNode d, dom with
   | Some p, Some old => replaceChild (Some p) newNode old
   | _, _ => ret tt
   end) ;;
  ret (Some newNode, newElement).

Fixpoint diff (fuel : nat) (oldElement newElement : Element)
    (dom : option nat) : M (option nat * Element) :=
  match fuel with
  | 0 => diverge
  | S fuel =>
      if negb (present oldElement) && negb (present newElement) then
        ret (None, newElement)
      else if present oldElement && negb (present newElement) then
        d <- get dom ;;
        (match Dom.parentNode d with
         | Some p => removeChild (Some p) dom
         | None => ret tt
         end) ;;
        ret (None, newElement)
      else if negb (present oldElement) && present newElement then
        '(newNode, newElement) <- createDOMNode fuel newElement ;;
        d <- get dom ;;
        (match Dom.parentNode d, dom with
         | Some p, Some old =>
             insertBefore (Some p) newNode old ;;
             removeChild (Some p) dom
         | _, _ => ret tt
         end) ;;
        ret (Some newNode, newElement)
      else if different_types (el_type oldElement) (el_type newElement) then
        replace_node (createDOMNode fuel) newElement dom
      else
        match el_type newElement with
        | Comp Component =>
            let oldRendered := el_rendered oldElement in
            let newRendered := component Component (el_props newElement) in
            '(node, newRendered) <-
              diff fuel (or_null oldRendered) newRendered dom ;;
            ret (node, set_rendered newRendered newElement)
        | Tag _ =>
            updateDOMProps dom (el_props oldElement) (el_props newElement) ;;
            children <-
              updateChildren (diff fuel) (createDOMNode fuel) dom
                (el_children oldElement) (el_children newElement) ;;
            ret (dom, set_children children newElement)
        | Untyped => ret (dom, newElement)
        end
  end.

End Components.

(** *** Vocabulary of the statements *)

(** Props whose names [setAttribute] accepts. *)
Definition well_named (props : list (string * Val)) : Prop :=
  Forall (fun kv => valid_attribute_name (fst kv) = true) props.



(** [node.getAttribute(name)] *)
Fixpoint attr_get (name : string) (l : list (string * string))
    : option string :=
  match l with
  | [] => None
  | (k, v) :: l => if String.eqb k name then Some v else attr_get name l
  end.

(** The attribute that [updateDOMProps] leaves for a prop value: none for
    [null], [undefined] and [false], the empty string for [true], the
    value's string otherwise. *)
Definition attribute_of (newValue : Val) : option string :=
  if nullish newValue || strict_eq newValue (VBool false) then None
  else if is_boolean newValue && truthy newValue then Some EmptyString
  else Some (to_string newValue).

(** The props that [updateDOMProps] treats as attributes: not [children],
    [key] or [ref], not named [on...], not a [style] object. *)
Definition plain_prop (name : string) (newValue : Val) : bool :=
  negb (special_prop name) && negb (starts_with_on name)
  && negb (String.eqb name "style" && is_object newValue).

(** No two of the names stand for one attribute of an element of the
    kind [k]. *)
Definition distinct_attributes (k : Kind) (names : list string) : Prop :=
  forall x y, x ∈ names -> y ∈ names ->
    attribute_name k x = attribute_name k y -> x = y.

End Reconciler.

(** ** render.ts *)

Module Render.
Import Dom Reconciler.

(** [interface MountedComponent] *)
#[warnings="-register-all"]
Inductive Mounted :=
| MountedComponent (element : Element) (node : nat) (cleanup : list Val)
    (children : list Mounted).

Definition m_element (m : Mounted) : Element :=
  match m with MountedComponent e _ _ _ => e end.
Definition m_node (m : Mounted) : nat :=
  match m with MountedComponent _ n _ _ => n end.
Definition m_cleanup (m : Mounted) : list Val :=
  match m with MountedComponent _ _ c _ => c end.
Definition m_children (m : Mounted) : list Mounted :=
  match m with MountedComponent _ _ _ c => c end.

(** [element.ref]: [interface Element] has no such field and [h] creates
    none, so the read yields [undefined]. *)
Definition el_ref (e : Element) : Val := VUndefined.

(** The body of the loop over [Object.entries(element.props)] in
    [mount]. *)
Definition mount_prop (node : nat) (entry : string * Val) : M unit :=
  let (key, value) := entry in
  if String.eqb key "ref" && is_function value then
    call (CallRef value (Some node))
  else if String.eqb key "style" && is_object value then
    match value with
    | VObj _ fields =>
        for_each (fun kv => setStyle (Some node) (fst kv) (snd kv)) fields
    | _ => ret tt
    end
  else if starts_with_on key && is_function value then
    addEventListener (Some node) (event_name key) value
  else if negb (String.eqb key "children") && negb (String.eqb key "key") then
    if is_boolean value && truthy value then setAttribute (Some node) key ""
    else if negb (nullish value) && negb (strict_eq value (VBool false)) then
      setAttribute (Some node) key (to_string value)
    else ret tt
  else ret tt.

Section Components.

Variable component : nat -> list (string * Val) -> Element.

(** The loop over [element.children] in [mount]. *)
Fixpoint mount_children (mount : Element -> M Mounted) (node : nat)
    (children : list Element) : M (list Mounted) :=
  match children with
  | [] => ret []
  | child :: rest =>
      here <-
        (if el_is_primitive child then
           textNode <- createTextNode (el_to_string child) ;;
           appendChild (Some node) textNode ;;
           ret []
         else if present child then
           mounted <- mount child ;;
           ret [mounted]
         else ret []) ;;
      rest <- mount_children mount node rest ;;
      ret (here ++ rest)
  end.

Fixpoint mount (fuel : nat) (element : Element) (container : option nat)
    (isSVG : bool) : M Mounted :=
  match fuel with
  | 0 => diverge
  | S fuel =>
      deref element ;;
      match el_type element with
      | Comp Component =>
          let renderedElement := component Component (el_props element) in
          mounted <- mount fuel renderedElement container isSVG ;;
          ret (MountedComponent element (m_node mounted)
                 (m_cleanup mounted) [mounted])
      | Tag type =>
          let isNS := isSVG || String.eqb type "svg" in
          node <- createElement isNS type ;;
          for_each (mount_prop node) (el_props element) ;;
          childComponents <-
            mount_children (fun child => mount fuel child (Some node) isNS)
              node (el_children element) ;;
          (match container with
           | Some c => appendChild (Some c) node
           | None => ret tt
           end) ;;
          ret (MountedComponent element node [] childComponents)
      | Untyped =>
          node <- createTextNode "" ;;
          (match container with
           | Some c => appendChild (Some c) node
           | None => ret tt
           end) ;;
          ret (MountedComponent element node [] [])
      end
  end.

Fixpoint unmount (mounted : Mounted) : M unit :=
  match mounted with
  | MountedComponent element node cleanup children =>
      for_each (fun c => call (CallCleanup c)) cleanup ;;
      (fix unmount_all (l : list Mounted) : M unit :=
         match l with
         | [] => ret tt
         | child :: l => unmount child ;; unmount_all l
         end) children ;;
      n <- get (Some node) ;;
      (match parentNode n with
       | Some p => removeChild (Some p) (Some node)
       | None => ret tt
       end) ;;
      if is_function (el_ref element) then call (CallRef (el_ref element) None)
      else ret tt
  end.

(** [container._helixRoot] *)
Record RenderRoot := {
  root_element : option Element;
  root_mount : option Mounted
}.

(** [render(element, container)], given what [container._helixRoot]
    holds; it yields what that property holds afterwards. *)
Definition render (fuel : nat) (element : Element) (container : nat)
    (helixRoot : option RenderRoot) : M RenderRoot :=
  let renderRoot :=
    match helixRoot with
    | Some r => r
    | None => {| root_element := None; root_mount := None |}
    end in
  match root_element renderRoot with
  | None =>
      clearChildren (Some container) ;;
      mounted <- mount fuel element (Some container) false ;;
      ret {| root_element := Some element; root_mount := Some mounted |}
  | Some previous =>
      c <- get (Some container) ;;
      match childNodes c !! 0 with
      | Some firstChild =>
          '(_, element) <- diff component fuel previous element
                             (Some firstChild) ;;
          ret {| root_element := Some element;
                 root_mount := root_mount renderRoot |}
      | None =>
          mounted <- mount fuel element (Some container) false ;;
          ret {| root_element := Some element;
                 root_mount := Some mounted |}
      end
  end.

(** The function [render] returns. *)
Definition render_cleanup (renderRoot : RenderRoot) : M RenderRoot :=
  match root_mount renderRoot with
  | Some mounted =>
      unmount mounted ;;
      ret {| root_element := None; root_mount := None |}
  | None => ret renderRoot
  end.

End Components.

(** The next animation frame: the callbacks handed to [afterLayout] run,
    each calling its [ref] with the node it captured. *)
Definition run_layout : M unit := fun pg =>
  (Ok tt,
   {| nodes := nodes pg; mutations := mutations pg; layout := [];
      calls := calls pg ++ map (fun r => CallRef (fst r) (snd r)) (layout pg) |}).

End Render.

(** ** Example trees *)

Module Examples.
Import Dom Reconciler Render.
#[local] Open Scope string_scope.

(** Two component functions, [Card] (1) and [Panel] (2), that both
    render a [div] carrying the [id] they are given. *)
Definition Card : nat := 1.

Definition components (f : nat) (props : list (string * Val)) : Element :=
  match f with
  | 1 | 2 =>
      h (Tag "div") [("id", lookup_prop "id" props)]
        [Prim (lookup_prop "id" props)]
  | _ => Prim VNull
  end.



(** A keyed list and the document it mounts to: node 0 is the [ul], nodes
    1, 3 and 5 are the items [a], [b] and [c], each followed by its
    text. *)
Definition item (k : string) : Element :=
  h (Tag "li") [("key", VStr k); ("class", VStr k)] [Prim (VStr k)].

Definition list_page : Page :=
  snd (createDOMNode components 4
         (h (Tag "ul") [] [item "a"; item "b"; item "c"]) empty_page).

(** A tree with an attribute, a listener, a text child and an element
    child. *)
Definition greeting : Element :=
  h (Tag "div") [("id", VStr "x"); ("onClick", VFun 9)]
    [Prim (VStr "hi"); h (Tag "span") [("title", VStr "t")] []].

Definition greeting_page : Page :=
  snd (createDOMNode components 4 greeting empty_page).

(** An element with a function-valued [ref], and a document holding one
    empty container (node 0). *)
Definition with_ref : Element := h (Tag "div") [("ref", VFun 4)] [].

Definition container_page : Page :=
  snd (allocate (ElementNode false "div") empty_page).



(** The item [k] with one more text child. *)
Definition longer_item (k : string) : Element :=
  h (Tag "li") [("key", VStr k); ("class", VStr k)]
    [Prim (VStr k); Prim (VStr "!")].

(** A list of keyed [Card] components, and the document after its first
    [render] into the container: node 1 is the [ul], nodes 2, 4 and 6 are
    the [div]s of the cards [a], [b] and [c], each followed by its text. *)
Definition row (k : string) : Element :=
  h (Comp Card) [("key", VStr k); ("id", VStr k)] [].

Definition rows (ks : list string) : Element :=
  h (Tag "ul") [] (map row ks).

Definition rows_root : RenderRoot :=
  match fst (render components 6 (rows ["a"; "b"; "c"]) 0 None container_page)
  with
  | Ok r => r
  | _ => {| root_element := None; root_mount := None |}
  end.

Definition rows_page : Page :=
  snd (render components 6 (rows ["a"; "b"; "c"]) 0 None container_page).

(** A paragraph with an [id] and one text child, and the document it
    mounts to: node 0 is the [p], node 1 its text. *)
Definition paragraph (text : string) : Element :=
  h (Tag "p") [("id", VStr "x")] [Prim (VStr text)].


(** The initial state of a store. *)
Definition counter_state : list (string * Val) :=
  [("count", VNum 0); ("name", VStr "a")].

End Examples.

(** * Properties *)

Module CoreFacts.
Import Core.

#[local] Arguments Core.scheduleTask : simpl never.
#[local] Arguments Core.cancelTask : simpl never.
#[local] Arguments Core.read : simpl never.
#[local] Arguments Core.write : simpl never.
#[local] Arguments Core.createSignal : simpl never.

Section Facts.

Variable clock : nat -> Z.
Variable apply_fn : nat -> Val -> Val.

Local Abbreviation exec := (exec clock apply_fn).
Local Abbreviation invoke := (invoke clock apply_fn).
Local Abbreviation run_queue := (run_queue clock apply_fn).
Local Abbreviation processTaskQueue := (processTaskQueue clock apply_fn).
Local Abbreviation scheduleTask := (scheduleTask clock).
Local Abbreviation schedule_all := (schedule_all clock).
Local Abbreviation drain_from := (drain_from clock apply_fn).
Local Abbreviation write := (write clock apply_fn).
Local Abbreviation run_effect := (run_effect clock apply_fn).
Local Abbreviation run_subscribers := (run_subscribers clock apply_fn).

(** ** Lists *)

Lemma filter_sublist {A} (f : A -> bool) (l1 l2 : list A) :
  sublist l1 l2 -> sublist (List.filter f l1) (List.filter f l2).
Proof.
  induction 1 as [|x l1 l2 _ IH|x l1 l2 _ IH]; simpl.
  - constructor.
  - destruct (f x); [by constructor|done].
  - destruct (f x); [by constructor|done].
Qed.

Lemma older_app n l1 l2 : older n (l1 ++ l2) = older n l1 ++ older n l2.
Proof. apply List.filter_app. Qed.

Lemma remove_first_sublist taskId q : sublist (remove_first taskId q) q.
Proof.
  induction q as [|t q IH]; simpl; [constructor|].
  destruct (has_id taskId t); [by constructor|by constructor].
Qed.

(** ** What application code can do to the queues *)

Lemma keeps_refl n w : n <= nextTaskId (sched w) -> keeps n w w.
Proof. by split. Qed.

Lemma keeps_trans n w1 w2 w3 : keeps n w1 w2 -> keeps n w2 w3 -> keeps n w1 w3.
Proof.
  intros [_ H12] [H3 H23]. split; [done|].
  intros q. etrans; [apply H23|apply H12].
Qed.

Lemma keeps_same_sched n w w' :
  sched w' = sched w -> n <= nextTaskId (sched w) -> keeps n w w'.
Proof. intros E Hn. unfold keeps, queue. rewrite E. by split. Qed.

Lemma queue_put_same p l w : queue p (put_queue p l w) = l.
Proof. by destruct p. Qed.

Lemma queue_put_other p q l w : p <> q -> queue q (put_queue p l w) = queue q w.
Proof. by destruct p, q. Qed.

Lemma scheduleTask_queue c p w q :
  queue q (snd (scheduleTask c p w)) =
  if priority_eqb p q
  then queue q w ++ [{| id := nextTaskId (sched w); callback := c;
                        priority := p |}]
  else queue q w.
Proof.
  unfold Core.scheduleTask. simpl.
  destruct (isScheduled (sched w)); by destruct p, q.
Qed.

Lemma scheduleTask_nextTaskId c p w :
  nextTaskId (sched (snd (scheduleTask c p w))) = S (nextTaskId (sched w)).
Proof.
  unfold Core.scheduleTask. simpl. by destruct (isScheduled (sched w)).
Qed.

Lemma scheduleTask_keeps n c p w :
  n <= nextTaskId (sched w) -> keeps n w (snd (scheduleTask c p w)).
Proof.
  intros Hn. split.
  - rewrite scheduleTask_nextTaskId. lia.
  - intros q. rewrite scheduleTask_queue.
    destruct (priority_eqb p q); [|done].
    rewrite older_app. simpl.
    destruct (Nat.ltb_spec (nextTaskId (sched w)) n); [lia|].
    by rewrite app_nil_r.
Qed.

Lemma cancelTask_keeps n taskId w :
  n <= nextTaskId (sched w) -> keeps n w (snd (cancelTask taskId w)).
Proof.
  intros Hn. unfold Core.cancelTask.
  repeat match goal with |- context [if ?b then _ else _] => destruct b end;
    simpl; (split; [done|]); intros q.
  - destruct q; simpl; try done. apply filter_sublist, remove_first_sublist.
  - destruct q; simpl; try done. apply filter_sublist, remove_first_sublist.
  - destruct q; simpl; try done. apply filter_sublist, remove_first_sublist.
  - done.
Qed.

Lemma write_keeps n s v w :
  n <= nextTaskId (sched w) -> keeps n w (write s v w).
Proof.
  intros Hn. unfold Core.write.
  destruct (signals (graph w) !! s) as [signal|]; [|by apply keeps_refl].
  destruct (strict_eq _ _); [by apply keeps_refl|].
  match goal with |- keeps _ _ (snd (scheduleTask ?c ?p ?w')) =>
    eapply keeps_trans; [|apply (scheduleTask_keeps n c p w'); done] end.
  by apply keeps_same_sched.
Qed.

Lemma read_sched s w : sched (snd (read s w)) = sched w.
Proof.
  unfold Core.read. destruct (signals (graph w) !! s); [|done].
  by destruct (currentEffect (graph w)).
Qed.

Lemma exec_keeps n p : forall w,
  n <= nextTaskId (sched w) -> keeps n w (snd (exec p w)).
Proof.
  induction p as [|e|v k IH|s k IH|s v k IH|v k IH|fn IHfn k IH|cb _ pr k IH
                 |taskId k IH]; intros w Hn; cbn [Core.exec].
  - by apply keeps_refl.
  - by apply keeps_refl.
  - eapply keeps_trans; [|apply IH; done]. by apply keeps_same_sched.
  - destruct (read s w) as [v w1] eqn:E.
    assert (sched w1 = sched w) as Es by (by rewrite <-(read_sched s w), E).
    eapply keeps_trans; [by apply keeps_same_sched|]. apply IH. by rewrite Es.
  - pose proof (write_keeps n s v w Hn) as Hw.
    eapply keeps_trans; [done|]. apply IH. by destruct Hw.
  - eapply keeps_trans; [|apply IH; done]. by apply keeps_same_sched.
  - match goal with |- context [exec fn ?w0] =>
      pose proof (IHfn w0 Hn) as Hfn; destruct (exec fn w0) as [o w1] end.
    simpl in Hfn.
    assert (keeps n w (set_currentEffect None w1)) as Hk.
    { eapply keeps_trans; [|eapply keeps_trans; [exact Hfn|]].
      - by apply keeps_same_sched.
      - apply keeps_same_sched; [done|]. by destruct Hfn. }
    destruct o; [|done].
    eapply keeps_trans; [exact Hk|]. apply IH. by destruct Hk.
  - pose proof (scheduleTask_keeps n (UserFn cb) pr w Hn) as Hs.
    destruct (scheduleTask (UserFn cb) pr w) as [taskId w1]. simpl in Hs.
    eapply keeps_trans; [exact Hs|]. apply IH. by destruct Hs.
  - pose proof (cancelTask_keeps n taskId w Hn) as Hc.
    destruct (cancelTask taskId w) as [b w1]. simpl in Hc.
    eapply keeps_trans; [exact Hc|]. apply IH. by destruct Hc.
Qed.

Lemma exec_executed p : forall w,
  executed (history (snd (exec p w))) = executed (history w).
Proof.
  induction p as [|e|v k IH|s k IH|s v k IH|v k IH|fn IHfn k IH|cb _ pr k IH
                 |taskId k IH]; intros w; cbn [Core.exec]; try done.
  - by rewrite IH.
  - destruct (Core.read s w) as [v w1] eqn:E. cbv beta iota. rewrite IH.
    replace w1 with (snd (Core.read s w)) by (by rewrite E).
    unfold Core.read. destruct (signals (graph w) !! s); [|done].
    by destruct (currentEffect (graph w)).
  - rewrite IH. unfold Core.write.
    destruct (signals (graph w) !! s); [|done].
    destruct (strict_eq _ _); [done|].
    unfold Core.scheduleTask. simpl. by destruct (isScheduled (sched w)).
  - unfold Core.createSignal. cbv beta iota. by rewrite IH.
  - match goal with |- context [exec fn ?w0] =>
      pose proof (IHfn w0) as Hfn; destruct (exec fn w0) as [o w1] end.
    simpl in Hfn. cbv beta iota. destruct o; [rewrite IH|]; done.
  - destruct (scheduleTask (UserFn cb) pr w) as [taskId w1] eqn:E.
    cbv beta iota. rewrite IH. replace w1 with (snd (scheduleTask (UserFn cb) pr w))
      by (by rewrite E).
    unfold Core.scheduleTask. simpl. by destruct (isScheduled (sched w)).
  - destruct (Core.cancelTask taskId w) as [b w1] eqn:E. cbv beta iota.
    rewrite IH.
    replace w1 with (snd (Core.cancelTask taskId w)) by (by rewrite E).
    unfold Core.cancelTask.
    by repeat match goal with |- context [if ?b then _ else _] =>
      destruct b end.
Qed.

Lemma run_effect_keeps n e w :
  n <= nextTaskId (sched w) -> keeps n w (snd (run_effect e w)).
Proof.
  intros Hn. unfold Core.run_effect.
  destruct (effects (graph w) !! e) as [fn|]; [|by apply keeps_refl].
  match goal with |- context [exec fn ?w0] =>
    pose proof (exec_keeps n fn w0 Hn) as Hfn;
    destruct (exec fn w0) as [o w1] end.
  simpl in *. eapply keeps_trans; [|eapply keeps_trans; [exact Hfn|]].
  - by apply keeps_same_sched.
  - apply keeps_same_sched; [done|]. by destruct Hfn.
Qed.

Lemma run_effect_executed e w :
  executed (history (snd (run_effect e w))) = executed (history w).
Proof.
  unfold Core.run_effect.
  destruct (effects (graph w) !! e) as [fn|]; [|done].
  match goal with |- context [exec fn ?w0] =>
    pose proof (exec_executed fn w0) as Hfn;
    destruct (exec fn w0) as [o w1] end.
  simpl in *. done.
Qed.

Lemma run_subscribers_keeps n l : forall w,
  n <= nextTaskId (sched w) -> keeps n w (snd (run_subscribers l w)).
Proof.
  induction l as [|e l IH]; intros w Hn; simpl; [by apply keeps_refl|].
  pose proof (run_effect_keeps n e w Hn) as He.
  destruct (run_effect e w) as [[|err] w1]; simpl in *; [|done].
  eapply keeps_trans; [exact He|]. apply IH. by destruct He.
Qed.

Lemma run_subscribers_executed l : forall w,
  executed (history (snd (run_subscribers l w))) = executed (history w).
Proof.
  induction l as [|e l IH]; intros w; simpl; [done|].
  pose proof (run_effect_executed e w) as He.
  destruct (run_effect e w) as [[|err] w1]; simpl in *; [|done].
  by rewrite IH.
Qed.

Lemma invoke_keeps n c w :
  n <= nextTaskId (sched w) -> keeps n w (snd (invoke c w)).
Proof.
  intros Hn. destruct c as [body|s]; simpl.
  - by apply exec_keeps.
  - destruct (signals (graph w) !! s); [|by apply keeps_refl].
    by apply run_subscribers_keeps.
Qed.

Lemma invoke_executed c w :
  executed (history (snd (invoke c w))) = executed (history w).
Proof.
  destruct c as [body|s]; simpl.
  - apply exec_executed.
  - destruct (signals (graph w) !! s); [|done].
    apply run_subscribers_executed.
Qed.

(** ** The drain keeps the tasks in queue order *)

Lemma over_budget_same p w :
  sched (snd (over_budget clock p w)) = sched w /\
  history (snd (over_budget clock p w)) = history w /\
  graph (snd (over_budget clock p w)) = graph w.
Proof. by destruct p. Qed.

Lemma sublist_app_fst {A} (l1 l2 l3 : list A) :
  sublist (l1 ++ l2) l3 -> sublist l1 l3.
Proof. intros H. etrans; [|exact H]. by apply sublist_inserts_r. Qed.

Lemma sublist_app_snd {A} (l1 l2 l3 : list A) :
  sublist (l1 ++ l2) l3 -> sublist l2 l3.
Proof. intros H. etrans; [|exact H]. by apply sublist_inserts_l. Qed.

Lemma run_queue_keeps n p fuel : forall w exit w',
  n <= nextTaskId (sched w) ->
  run_queue fuel p w = (exit, w') ->
  n <= nextTaskId (sched w') /\
  exists ex,
    executed (history w') = executed (history w) ++ ex /\
    sublist (older n ex ++ older n (queue p w')) (older n (queue p w)) /\
    forall q, q <> p -> sublist (older n (queue q w')) (older n (queue q w)).
Proof.
  induction fuel as [|fuel IH]; intros w exit w' Hn Hrun.
  - simpl in Hrun. destruct (queue p w) eqn:Eq; inversion Hrun; subst.
    + split; [done|]. exists []. rewrite app_nil_r, Eq. by repeat split.
    + split; [done|]. exists []. rewrite app_nil_r, Eq. by repeat split.
  - simpl in Hrun. destruct (queue p w) as [|task rest] eqn:Eq.
    { inversion Hrun; subst. split; [done|]. exists [].
      rewrite app_nil_r, Eq. by repeat split. }
    destruct (over_budget_same p w) as (Es & Eh & _).
    destruct (over_budget clock p w) as [over w1]. simpl in Es, Eh.
    destruct over.
    { inversion Hrun; subst. simpl. rewrite Es, Eh. split; [done|].
      exists []. rewrite app_nil_r. unfold queue. simpl. rewrite Es.
      fold (queue p w). rewrite Eq. by repeat split. }
    set (w2 := record_task task (put_queue p rest w1)) in *.
    assert (n <= nextTaskId (sched w2)) as Hn2 by (simpl; by rewrite Es).
    pose proof (invoke_keeps n (callback task) w2 Hn2) as Hk.
    pose proof (invoke_executed (callback task) w2) as Hx.
    destruct (invoke (callback task) w2) as [o w3]. simpl in Hk, Hx.
    set (w4 := match o with Normal => w3 | Threw error => console_error error w3 end) in *.
    assert (sched w4 = sched w3 /\ history w4 = history w3) as [Es4 Eh4]
      by (by destruct o).
    destruct Hk as [Hn3 Hq3].
    destruct (IH w4 exit w') as (Hn' & ex & Hex & Hsub & Hoth); [by rewrite Es4|done|].
    split; [done|]. exists (task :: ex). split; [|split].
    + rewrite Hex, Eh4, Hx. simpl. rewrite Eh. by rewrite <-app_assoc.
    + assert (sublist (older n ex ++ older n (queue p w')) (older n rest)) as Hr.
      { etrans; [exact Hsub|]. unfold queue at 1. rewrite Es4. fold (queue p w3).
        etrans; [apply Hq3|].
        change (queue p w2) with (queue p (put_queue p rest w1)).
        by rewrite queue_put_same. }
      simpl. destruct (id task <? n); [by constructor|done].
    + intros q Hq. etrans; [by apply Hoth|].
      unfold queue at 1. rewrite Es4. fold (queue q w3).
      etrans; [apply Hq3|].
      change (queue q w2) with (queue q (put_queue p rest w1)).
      rewrite queue_put_other by done. unfold queue. by rewrite Es.
Qed.

Lemma processTaskQueue_keeps n fuel w exit w' :
  n <= nextTaskId (sched w) ->
  processTaskQueue fuel w = (exit, w') ->
  exists ex,
    executed (history w') = executed (history w) ++ ex /\
    sublist (older n ex)
      (older n (queue HIGH w) ++ older n (queue NORMAL w)
         ++ older n (queue LOW w)).
Proof.
  intros Hn. unfold Core.processTaskQueue. simpl.
  match goal with |- context [run_queue fuel HIGH ?w0] => set (w0' := w0) end.
  assert (forall q, queue q w0' = queue q w) as Eq0 by done.
  destruct (run_queue fuel HIGH w0') as [e1 w1] eqn:E1.
  destruct (run_queue_keeps n HIGH fuel w0' e1 w1 Hn E1)
    as (Hn1 & exH & HxH & HsH & HoH).
  rewrite Eq0 in HsH.
  assert (executed (history w0') = executed (history w)) as Ex0 by done.
  destruct e1;
    [|intros [= <- <-]; exists exH; split; [by rewrite HxH, Ex0|];
      apply sublist_inserts_r; eapply sublist_app_fst; exact HsH ..].
  destruct (run_queue fuel NORMAL w1) as [e2 w2] eqn:E2.
  destruct (run_queue_keeps n NORMAL fuel w1 e2 w2 Hn1 E2)
    as (Hn2 & exN & HxN & HsN & HoN).
  assert (sublist (older n exN) (older n (queue NORMAL w))) as HN.
  { etrans; [eapply sublist_app_fst; exact HsN|].
    rewrite <-(Eq0 NORMAL). by apply HoH. }
  destruct e2;
    [|intros [= <- <-]; exists (exH ++ exN);
      (split; [by rewrite HxN, HxH, Ex0, app_assoc|]);
      rewrite older_app, (app_assoc (older n (queue HIGH w)));
      apply sublist_inserts_r, sublist_app;
        [eapply sublist_app_fst; exact HsH|exact HN] ..].
  intros E3.
  destruct (run_queue_keeps n LOW fuel w2 exit w' Hn2 E3)
    as (Hn3 & exL & HxL & HsL & HoL).
  exists (exH ++ exN ++ exL). split.
  - by rewrite HxL, HxN, HxH, Ex0, !app_assoc.
  - rewrite !older_app. apply sublist_app; [|apply sublist_app].
    + eapply sublist_app_fst; exact HsH.
    + exact HN.
    + etrans; [eapply sublist_app_fst; exact HsL|].
      etrans; [by apply HoN|].
      specialize (HoH LOW ltac:(done)). rewrite (Eq0 LOW) in HoH. exact HoH.
Qed.

(** ** Draining callbacks that stay out of the runtime *)

Lemma exec_inert p : inert p = true -> forall w,
  fst (exec p w) = outcome_of p /\
  sched (snd (exec p w)) = sched w /\
  host (snd (exec p w)) = host w /\
  graph (snd (exec p w)) = graph w /\
  executed (history (snd (exec p w))) = executed (history w).
Proof.
  induction p as [|e|v k IH| | | | | |]; intros Hi w; try done.
  simpl in Hi. specialize (IH Hi (record_output v w)).
  cbn [Core.exec]. unfold outcome_of in *. simpl. exact IH.
Qed.

Lemma invoke_inert t w : inert_task t = true ->
  fst (invoke (callback t) w) = outcome_by t /\
  sched (snd (invoke (callback t) w)) = sched w /\
  host (snd (invoke (callback t) w)) = host w /\
  graph (snd (invoke (callback t) w)) = graph w /\
  executed (history (snd (invoke (callback t) w))) = executed (history w).
Proof.
  unfold inert_task, outcome_by, thrown_by.
  destruct (callback t) as [body|s]; [|done].
  intros Hi. by apply exec_inert.
Qed.

Lemma reports_cons t l :
  reports (t :: l) =
  match thrown_by t with Some e => e :: reports l | None => reports l end.
Proof. done. Qed.

Lemma reports_app l1 l2 : reports (l1 ++ l2) = reports l1 ++ reports l2.
Proof. apply omap_app. Qed.

Lemma run_queue_inert p fuel : forall w,
  Forall (fun t => inert_task t = true) (queue p w) ->
  within_budget clock w ->
  List.length (queue p w) <= fuel ->
  exists w',
    run_queue fuel p w = (Emptied, w') /\
    queue p w' = [] /\
    (forall q, q <> p -> queue q w' = queue q w) /\
    currentFrameDeadline (sched w') = currentFrameDeadline (sched w) /\
    executed (history w') = executed (history w) ++ queue p w /\
    errors (host w') = errors (host w) ++ reports (queue p w).
Proof.
  induction fuel as [|fuel IH]; intros w Hin Hb Hlen.
  - destruct (queue p w) eqn:Eq; [|simpl in Hlen; lia].
    exists w. simpl. rewrite Eq, !app_nil_r. by repeat split.
  - simpl. destruct (queue p w) as [|task rest] eqn:Eq.
    { exists w. rewrite Eq, !app_nil_r. by repeat split. }
    assert (exists w1, over_budget clock p w = (false, w1) /\
              sched w1 = sched w /\ history w1 = history w /\
              errors (host w1) = errors (host w)) as (w1 & -> & Es & Eh & Ee).
    { destruct p; simpl; [by exists w|..];
        rewrite (proj2 (Z.leb_gt _ _) (Hb _)); by eexists. }
    inversion Hin as [|? ? Hit Hir]; subst.
    set (w2 := record_task task (put_queue p rest w1)) in *.
    destruct (invoke_inert task w2 Hit) as (Ho & Es3 & Eh3 & _ & Ex3).
    destruct (invoke (callback task) w2) as [o w3]. simpl in Ho, Es3, Eh3, Ex3.
    set (w4 := match o with Normal => w3 | Threw error => console_error error w3 end).
    assert (sched w4 = sched w2 /\ history w4 = history w3) as [Es4 Eh4]
      by (by destruct o).
    assert (queue p w4 = rest) as Eq4.
    { unfold queue. rewrite Es4. fold (queue p w2).
      change (queue p w2) with (queue p (put_queue p rest w1)).
      apply queue_put_same. }
    destruct (IH w4) as (w' & Hrun & Hq & Hoth & Hd & Hx & He).
    { by rewrite Eq4. }
    { intros n. unfold within_budget in Hb. rewrite Es4. simpl.
      rewrite Es. apply Hb. }
    { rewrite Eq4. simpl in Hlen. lia. }
    exists w'. split; [exact Hrun|]. split; [exact Hq|]. split; [|split; [|split]].
    + intros q Hne. rewrite (Hoth q Hne). unfold queue. rewrite Es4.
      fold (queue q w2).
      change (queue q w2) with (queue q (put_queue p rest w1)).
      rewrite queue_put_other by done. unfold queue. by rewrite Es.
    + rewrite Hd, Es4. simpl. by rewrite Es.
    + rewrite Hx, Eq4, Eh4, Ex3. simpl. rewrite Eh. by rewrite <-app_assoc.
    + rewrite He, Eq4, reports_cons. subst w4. rewrite Ho. unfold outcome_by.
      destruct (thrown_by task); simpl; rewrite Eh3; simpl; rewrite Ee.
      * by rewrite <-app_assoc.
      * done.
Qed.

Lemma processTaskQueue_inert fuel w :
  Forall (fun t => inert_task t = true)
    (queue HIGH w ++ queue NORMAL w ++ queue LOW w) ->
  within_budget clock w ->
  List.length (queue HIGH w ++ queue NORMAL w ++ queue LOW w) <= fuel ->
  exists w',
    processTaskQueue fuel w = (Emptied, w') /\
    (forall p, queue p w' = []) /\
    executed (history w') =
      executed (history w) ++ queue HIGH w ++ queue NORMAL w ++ queue LOW w /\
    errors (host w') =
      errors (host w)
        ++ reports (queue HIGH w ++ queue NORMAL w ++ queue LOW w).
Proof.
  intros Hin Hb Hlen. rewrite !length_app in Hlen.
  apply Forall_app in Hin as [HiH Hin]. apply Forall_app in Hin as [HiN HiL].
  unfold Core.processTaskQueue. simpl.
  match goal with |- context [run_queue fuel HIGH ?w0] => set (w0' := w0) end.
  assert (forall q, queue q w0' = queue q w) as Eq0 by done.
  destruct (run_queue_inert HIGH fuel w0') as (w1 & -> & Hq1 & Ho1 & Hd1 & Hx1 & He1);
    [by rewrite Eq0|done|rewrite Eq0; lia|].
  destruct (run_queue_inert NORMAL fuel w1) as (w2 & -> & Hq2 & Ho2 & Hd2 & Hx2 & He2).
  { by rewrite Ho1, Eq0. }
  { intros n. rewrite Hd1. apply Hb. }
  { rewrite Ho1, Eq0 by done. lia. }
  destruct (run_queue_inert LOW fuel w2) as (w3 & -> & Hq3 & Ho3 & Hd3 & Hx3 & He3).
  { by rewrite Ho2, Ho1, Eq0. }
  { intros n. rewrite Hd2, Hd1. apply Hb. }
  { rewrite Ho2, Ho1, Eq0 by done. lia. }
  exists w3. split; [done|]. split; [|split].
  - intros [| |]; [by rewrite Ho3, Ho2|by rewrite Ho3|done].
  - rewrite Hx3, Hx2, Hx1, Ho2, !Ho1, !Eq0 by done.
    by rewrite <-!app_assoc.
  - rewrite He3, He2, He1, Ho2, !Ho1, !Eq0 by done.
    by rewrite !reports_app, <-!app_assoc.
Qed.

(** ** Draining on any clock *)

Lemma run_queue_inert_prefix p fuel : forall w,
  Forall (fun t => inert_task t = true) (queue p w) ->
  List.length (queue p w) <= fuel ->
  exists k exit w',
    run_queue fuel p w = (exit, w') /\
    executed (history w') = executed (history w) ++ take k (queue p w) /\
    (forall q, q <> p -> queue q w' = queue q w) /\
    ((exit = Emptied /\ List.length (queue p w) <= k) \/
     (exit = Yielded /\ p <> HIGH /\ k <= List.length (queue p w))).
Proof.
  induction fuel as [|fuel IH]; intros w Hin Hlen.
  - destruct (queue p w) eqn:Eq; [|simpl in Hlen; lia].
    exists 0, Emptied, w. simpl. rewrite Eq, app_nil_r. split; [done|].
    split; [done|]. split; [done|]. left. split; [done|]. simpl. lia.
  - simpl. destruct (queue p w) as [|task rest] eqn:Eq.
    { exists 0, Emptied, w. rewrite app_nil_r. split; [done|].
      split; [done|]. split; [done|]. left. split; [done|]. simpl. lia. }
    destruct (over_budget_same p w) as (Es & Eh & _).
    destruct (over_budget clock p w) as [over w1] eqn:Eo. simpl in Es, Eh.
    destruct over.
    { exists 0, Yielded. eexists. split; [done|]. simpl.
      rewrite Eh, app_nil_r. split; [done|]. split.
      - intros q _. unfold queue. simpl. by rewrite Es.
      - right. split; [done|]. split; [|lia]. intros ->. discriminate Eo. }
    inversion Hin as [|? ? Hit Hir]; subst.
    set (w2 := record_task task (put_queue p rest w1)) in *.
    destruct (invoke_inert task w2 Hit) as (Ho & Es3 & Eh3 & _ & Ex3).
    destruct (invoke (callback task) w2) as [o w3].
    simpl in Ho, Es3, Eh3, Ex3.
    set (w4 := match o with Normal => w3 | Threw error => console_error error w3 end).
    assert (sched w4 = sched w2 /\ history w4 = history w3) as [Es4 Eh4]
      by (by destruct o).
    assert (queue p w4 = rest) as Eq4.
    { unfold queue. rewrite Es4. fold (queue p w2).
      change (queue p w2) with (queue p (put_queue p rest w1)).
      apply queue_put_same. }
    destruct (IH w4) as (k & exit & w' & Hrun & Hx & Hoth & Hex).
    { by rewrite Eq4. }
    { rewrite Eq4. simpl in Hlen. lia. }
    exists (S k), exit, w'. split; [exact Hrun|]. split; [|split].
    + rewrite Hx, Eq4, Eh4, Ex3. simpl. rewrite Eh. by rewrite <-app_assoc.
    + intros q Hne. rewrite (Hoth q Hne). unfold queue. rewrite Es4.
      fold (queue q w2).
      change (queue q w2) with (queue q (put_queue p rest w1)).
      rewrite queue_put_other by done. unfold queue. by rewrite Es.
    + rewrite Eq4 in Hex. simpl. destruct Hex as [[-> Hk]|(-> & Hp & Hk)].
      * left. split; [done|lia].
      * right. split; [done|]. split; [done|lia].
Qed.

Lemma processTaskQueue_inert_prefix fuel w :
  Forall (fun t => inert_task t = true)
    (queue HIGH w ++ queue NORMAL w ++ queue LOW w) ->
  List.length (queue HIGH w ++ queue NORMAL w ++ queue LOW w) <= fuel ->
  exists k,
    executed (history (snd (processTaskQueue fuel w))) =
      executed (history w) ++ queue HIGH w
        ++ take k (queue NORMAL w ++ queue LOW w).
Proof.
  intros Hin Hlen. rewrite !length_app in Hlen.
  apply Forall_app in Hin as [HiH Hin]. apply Forall_app in Hin as [HiN HiL].
  unfold Core.processTaskQueue, performance_now. cbv beta iota.
  match goal with |- context [run_queue fuel HIGH ?w0] => set (w0' := w0) end.
  assert (forall q, queue q w0' = queue q w) as Eq0 by done.
  assert (executed (history w0') = executed (history w)) as Ex0 by done.
  destruct (run_queue_inert_prefix HIGH fuel w0')
    as (k1 & e1 & w1 & -> & Hx1 & Ho1 & [[-> Hk1]|(_ & ? & _)]);
    [by rewrite Eq0|rewrite Eq0; lia| |done].
  rewrite take_ge, Eq0, Ex0 in Hx1 by done.
  destruct (run_queue_inert_prefix NORMAL fuel w1)
    as (k2 & e2 & w2 & -> & Hx2 & Ho2 & [[-> Hk2]|(-> & _ & Hk2)]).
  { by rewrite Ho1, Eq0. }
  { rewrite Ho1, Eq0 by done. lia. }
  - rewrite Ho1, Eq0 in Hx2, Hk2 by done. rewrite take_ge in Hx2 by done.
    destruct (run_queue_inert_prefix LOW fuel w2)
      as (k3 & e3 & w3 & -> & Hx3 & _ & _).
    { by rewrite Ho2, Ho1, Eq0. }
    { rewrite Ho2, Ho1, Eq0 by done. lia. }
    rewrite Ho2, Ho1, Eq0 in Hx3 by done.
    exists (List.length (queue NORMAL w) + k3). simpl.
    rewrite Hx3, Hx2, Hx1, take_app_add. by rewrite <-!app_assoc.
  - rewrite Ho1, Eq0 in Hx2, Hk2 by done.
    exists k2. simpl. rewrite Hx2, Hx1, take_app_le by done.
    by rewrite <-!app_assoc.
Qed.
(** ** Scheduling appends *)

Lemma tier_app p l1 l2 : tier p (l1 ++ l2) = tier p l1 ++ tier p l2.
Proof. apply List.filter_app. Qed.

Lemma schedule_all_spec reqs : forall w,
  nextTaskId (sched (schedule_all reqs w))
    = nextTaskId (sched w) + List.length reqs /\
  forall q, queue q (schedule_all reqs w)
    = queue q w ++ tier q (tasks_from (nextTaskId (sched w)) reqs).
Proof.
  induction reqs as [|[c p] reqs IH]; intros w.
  - split; [simpl; lia|]. intros q. simpl. by rewrite app_nil_r.
  - change (schedule_all ((c, p) :: reqs) w)
      with (schedule_all reqs (snd (scheduleTask c p w))).
    destruct (IH (snd (scheduleTask c p w))) as [Hn Hq].
    rewrite scheduleTask_nextTaskId in *. split; [rewrite Hn; simpl; lia|].
    intros q. rewrite Hq, scheduleTask_queue. simpl.
    destruct (priority_eqb p q); [|done].
    by rewrite <-app_assoc.
Qed.

Lemma scheduleTask_deadline c p w :
  currentFrameDeadline (sched (snd (scheduleTask c p w))) =
    (if isScheduled (sched w) then currentFrameDeadline (sched w)
     else clock (ticks (host w)) + frameLength)%Z /\
  isScheduled (sched (snd (scheduleTask c p w))) = true.
Proof.
  unfold Core.scheduleTask. simpl. by destruct (isScheduled (sched w)) eqn:E.
Qed.

Lemma schedule_all_deadline reqs : forall w,
  isScheduled (sched w) = true ->
  currentFrameDeadline (sched (schedule_all reqs w))
    = currentFrameDeadline (sched w).
Proof.
  induction reqs as [|[c p] reqs IH]; intros w Hs; [done|].
  change (schedule_all ((c, p) :: reqs) w)
    with (schedule_all reqs (snd (scheduleTask c p w))).
  destruct (scheduleTask_deadline c p w) as [Hd Hs'].
  rewrite IH, Hd, Hs by done. done.
Qed.

Lemma schedule_all_executed reqs : forall w,
  executed (history (schedule_all reqs w)) = executed (history w).
Proof.
  induction reqs as [|[c p] reqs IH]; intros w; [done|].
  change (schedule_all ((c, p) :: reqs) w)
    with (schedule_all reqs (snd (scheduleTask c p w))).
  rewrite IH. unfold Core.scheduleTask. simpl.
  by destruct (isScheduled (sched w)).
Qed.

Lemma tasks_from_ids reqs : forall m,
  Forall (fun t => m <= id t < m + List.length reqs) (tasks_from m reqs).
Proof.
  induction reqs as [|r reqs IH]; intros m; simpl; constructor.
  - simpl. lia.
  - eapply Forall_impl; [apply IH|]. simpl. intros t. lia.
Qed.

Lemma older_all n l : Forall (fun t => id t < n) l -> older n l = l.
Proof.
  induction 1 as [|t l Ht _ IH]; simpl; [done|].
  destruct (Nat.ltb_spec (id t) n); [by rewrite IH|lia].
Qed.

Lemma Forall_tier (P : Task -> Prop) p l : Forall P l -> Forall P (tier p l).
Proof.
  induction 1 as [|t l Ht _ IH]; simpl; [done|].
  destruct (priority_eqb (priority t) p); [by constructor|done].
Qed.

Lemma tier_length l :
  List.length (tier HIGH l ++ tier NORMAL l ++ tier LOW l) = List.length l.
Proof.
  rewrite !length_app.
  induction l as [|t l IH]; simpl; [done|].
  destruct (priority t); simpl; lia.
Qed.

Lemma tasks_from_length reqs m : List.length (tasks_from m reqs) = List.length reqs.
Proof. revert m. induction reqs as [|r reqs IH]; intros m; simpl; [done|]. by rewrite IH. Qed.

(** ** One task per write *)

(** Every write that changes the value appends one task of its own to the
    NORMAL queue, whatever is queued already. *)
Lemma write_enqueues_notifier s v w signal :
  signals (graph w) !! s = Some signal ->
  strict_eq (value signal) (resolve apply_fn v (value signal)) = false ->
  queue NORMAL (write s v w)
    = queue NORMAL w
        ++ [{| id := nextTaskId (sched w); callback := Notify s;
               priority := NORMAL |}].
Proof.
  intros Hs Hne. unfold Core.write. rewrite Hs, Hne.
  by rewrite scheduleTask_queue.
Qed.

(** ** Subscriber sets only grow *)

Lemma set_add_keeps e e' l : e ∈ l -> e ∈ set_add e' l.
Proof.
  intros H. unfold set_add. destruct (existsb _ l); [done|].
  apply elem_of_app. by left.
Qed.

Lemma subscribed_graph e s w w' :
  graph w' = graph w -> subscribed e s w -> subscribed e s w'.
Proof. unfold subscribed. by intros ->. Qed.

Lemma read_subscribed e s s' w :
  subscribed e s w -> subscribed e s (snd (read s' w)).
Proof.
  intros (sig & Hs & He). unfold Core.read.
  destruct (signals (graph w) !! s') as [sig'|] eqn:E; [|by exists sig].
  destruct (currentEffect (graph w)) as [c|]; [|by exists sig].
  unfold subscribed. cbn [snd set_signals with_graph graph signals].
  destruct (decide (s' = s)) as [->|Hne].
  - rewrite Hs in E. injection E as <-. eexists. split.
    + apply list_lookup_insert_eq. by eapply lookup_lt_Some.
    + simpl. by apply set_add_keeps.
  - exists sig. split; [|done]. by rewrite list_lookup_insert_ne.
Qed.

Lemma scheduleTask_graph c p w :
  graph (snd (scheduleTask c p w)) = graph w.
Proof. unfold Core.scheduleTask. simpl. by destruct (isScheduled (sched w)). Qed.

Lemma cancelTask_graph taskId w : graph (snd (cancelTask taskId w)) = graph w.
Proof.
  unfold Core.cancelTask.
  by repeat match goal with |- context [if ?b then _ else _] => destruct b end.
Qed.

Lemma write_subscribed e s s' v w :
  subscribed e s w -> subscribed e s (write s' v w).
Proof.
  intros (sig & Hs & He). unfold Core.write.
  destruct (signals (graph w) !! s') as [sig'|] eqn:E; [|by exists sig].
  destruct (strict_eq _ _); [by exists sig|].
  eapply subscribed_graph; [apply scheduleTask_graph|].
  unfold subscribed. cbn [set_signals with_graph graph signals].
  destruct (decide (s' = s)) as [->|Hne].
  - rewrite Hs in E. injection E as <-. eexists. split.
    + apply list_lookup_insert_eq. by eapply lookup_lt_Some.
    + done.
  - exists sig. split; [|done]. by rewrite list_lookup_insert_ne.
Qed.

Lemma createSignal_subscribed e s v w :
  subscribed e s w -> subscribed e s (snd (createSignal v w)).
Proof.
  intros (sig & Hs & He). exists sig. split; [|done].
  cbn [Core.createSignal snd set_signals with_graph graph signals].
  by apply lookup_app_l_Some.
Qed.

Lemma exec_subscribed e s p : forall w,
  subscribed e s w -> subscribed e s (snd (exec p w)).
Proof.
  induction p as [|err|v k IH|s' k IH|s' v k IH|v k IH|fn IHfn k IH|cb _ pr k IH
                 |taskId k IH]; intros w Hw; cbn [Core.exec]; try done.
  - apply IH. by eapply subscribed_graph.
  - pose proof (read_subscribed e s s' w Hw) as Hr.
    destruct (read s' w) as [v w1]. by apply IH.
  - apply IH. by apply write_subscribed.
  - pose proof (createSignal_subscribed e s v w Hw) as Hc.
    destruct (createSignal v w) as [s1 w1]. by apply IH.
  - match goal with |- context [exec fn ?w0] =>
      assert (subscribed e s w0) as H0;
      [|pose proof (IHfn w0 H0) as Hfn;
        destruct (exec fn w0) as [o w1]] end.
    { destruct Hw as (sig & Hs & He). exists sig. split; [|done]. simpl.
      done. }
    simpl in Hfn.
    assert (subscribed e s (set_currentEffect None w1)) as H1.
    { destruct Hfn as (sig & Hs & He). by exists sig. }
    destruct o; [by apply IH|done].
  - pose proof (scheduleTask_graph (UserFn cb) pr w) as Hg.
    destruct (scheduleTask (UserFn cb) pr w) as [t w1].
    apply IH. by eapply subscribed_graph.
  - pose proof (cancelTask_graph taskId w) as Hg.
    destruct (cancelTask taskId w) as [b w1].
    apply IH. by eapply subscribed_graph.
Qed.

Lemma run_effect_subscribed e s e' w :
  subscribed e s w -> subscribed e s (snd (run_effect e' w)).
Proof.
  intros Hw. unfold Core.run_effect.
  destruct (effects (graph w) !! e') as [fn|]; [|done].
  match goal with |- context [exec fn ?w0] =>
    assert (subscribed e s w0) as H0 by (by eapply subscribed_graph);
    pose proof (exec_subscribed e s fn w0 H0) as Hfn;
    destruct (exec fn w0) as [o w1] end.
  simpl in *. destruct Hfn as (sig & Hs & He). by exists sig.
Qed.

Lemma run_subscribers_subscribed e s l : forall w,
  subscribed e s w ->
  subscribed e s (snd (run_subscribers l w)).
Proof.
  induction l as [|e' l IH]; intros w Hw; simpl; [done|].
  pose proof (run_effect_subscribed e s e' w Hw) as He.
  destruct (run_effect e' w) as [[|err] w1]; simpl in *;
    [by apply IH|done].
Qed.

Lemma invoke_subscribed e s c w :
  subscribed e s w -> subscribed e s (snd (invoke c w)).
Proof.
  intros Hw. destruct c as [body|s']; simpl.
  - by apply exec_subscribed.
  - destruct (signals (graph w) !! s'); [|done].
    by apply run_subscribers_subscribed.
Qed.

Lemma run_queue_subscribed e s p fuel : forall w,
  subscribed e s w ->
  subscribed e s (snd (run_queue fuel p w)).
Proof.
  induction fuel as [|fuel IH]; intros w Hw; simpl.
  - by destruct (queue p w).
  - destruct (queue p w) as [|task rest]; [done|].
    destruct (over_budget_same p w) as (_ & _ & Eg).
    destruct (over_budget clock p w) as [over w1]. simpl in Eg.
    destruct over; [by eapply subscribed_graph; [|exact Hw]|].
    match goal with |- context [invoke _ ?w0] =>
      assert (subscribed e s w0) as H0 by (by eapply subscribed_graph; [|exact Hw]);
      pose proof (invoke_subscribed e s (callback task) w0 H0) as Hi;
      destruct (invoke (callback task) w0) as [o w2] end.
    simpl in Hi. apply IH. destruct o; [done|].
    by eapply subscribed_graph; [|exact Hi].
Qed.

(** No call of the runtime takes an effect out of a subscriber set: not
    application code, not a run of an effect closure (which is also what
    the function returned by [createEffect] does), not a drain. *)
Theorem subscriptions_are_never_removed e s w :
  subscribed e s w ->
  (forall p, subscribed e s (snd (exec p w))) /\
  (forall e', subscribed e s (snd (run_effect e' w))) /\
  (forall fuel, subscribed e s (snd (processTaskQueue fuel w))).
Proof.
  intros Hw. split; [|split].
  - intros p. by apply exec_subscribed.
  - intros e'. by apply run_effect_subscribed.
  - intros fuel. unfold Core.processTaskQueue, performance_now. cbv beta iota.
    match goal with |- context [run_queue fuel HIGH ?w0] =>
      assert (subscribed e s w0) as H0 by (by eapply subscribed_graph; [|exact Hw]);
      pose proof (run_queue_subscribed e s HIGH fuel w0 H0) as H1;
      destruct (run_queue fuel HIGH w0) as [[| |] w1] end;
      try done.
    simpl in H1.
    pose proof (run_queue_subscribed e s NORMAL fuel w1 H1) as H2.
    destruct (run_queue fuel NORMAL w1) as [[| |] w2]; try done.
    by apply run_queue_subscribed.
Qed.

(** ** The drain *)

(** C7. Whatever the order in which tasks are scheduled at HIGH, NORMAL
    and LOW before a drain, each queue holds its tasks in scheduling
    order; the tasks the drain executes, among those scheduled before it,
    come in the order all HIGH, then all NORMAL, then all LOW, each tier
    first in first out, whatever the callbacks do and whatever the clock
    reads.  When the callbacks stay out of the runtime, the drain executes
    every HIGH task and then the NORMAL and LOW tasks up to the point where
    the frame budget runs out; when the budget lasts, it executes every
    one of them. *)
Theorem drain_runs_tiers_in_fifo_order
    (reqs : list (Closure * Priority)) (fuel : nat) :
  let w := schedule_all reqs initial in
  let tasks := tasks_from 1 reqs in
  let w' := snd (processTaskQueue fuel w) in
  (forall p, queue p w = tier p tasks) /\
  sublist (older (nextTaskId (sched w)) (executed (history w')))
    (tier HIGH tasks ++ tier NORMAL tasks ++ tier LOW tasks) /\
  (Forall (fun t => inert_task t = true) tasks ->
   List.length reqs <= fuel ->
   exists k,
     executed (history w')
       = tier HIGH tasks ++ take k (tier NORMAL tasks ++ tier LOW tasks)) /\
  (Forall (fun t => inert_task t = true) tasks ->
   (forall n, (clock n < clock 0 + frameLength)%Z) ->
   List.length reqs <= fuel ->
   executed (history w')
     = tier HIGH tasks ++ tier NORMAL tasks ++ tier LOW tasks).
Proof.
  intros w tasks w'.
  destruct (schedule_all_spec reqs initial) as [Hn Hq].
  change (nextTaskId (sched initial)) with 1 in *.
  assert (forall p, queue p w = tier p tasks) as Hqueue.
  { intros p. unfold w. rewrite Hq. by destruct p. }
  assert (forall p, older (nextTaskId (sched w)) (tier p tasks) = tier p tasks)
    as Hold.
  { intros p. apply older_all, Forall_tier. unfold w. rewrite Hn.
    eapply Forall_impl; [apply tasks_from_ids|]. simpl. intros t. lia. }
  split; [exact Hqueue|]. split.
  - destruct (processTaskQueue fuel w) as [exit w''] eqn:E.
    destruct (processTaskQueue_keeps (nextTaskId (sched w)) fuel w exit w'')
      as (ex & Hex & Hsub); [done|done|].
    subst w'. simpl. rewrite Hex.
    replace (executed (history w)) with (@nil Task).
    + simpl. by rewrite !Hqueue, !Hold in Hsub.
    + unfold w. by rewrite schedule_all_executed.
  - split.
    { intros Hin Hlen.
      destruct (processTaskQueue_inert_prefix fuel w) as (k & Hk).
      - rewrite !Hqueue. rewrite !Forall_app.
        by repeat split; apply Forall_tier.
      - rewrite !Hqueue, tier_length. unfold tasks.
        by rewrite tasks_from_length.
      - exists k. subst w'. rewrite Hk, !Hqueue.
        replace (executed (history w)) with (@nil Task); [done|].
        unfold w. by rewrite schedule_all_executed. }
    intros Hin Hb Hlen.
    destruct reqs as [|[c p] reqs'] eqn:Er; [by destruct fuel|].
    destruct (processTaskQueue_inert fuel w) as (w'' & Hrun & _ & Hx & _).
    + rewrite !Hqueue. rewrite !Forall_app. by repeat split; apply Forall_tier.
    + intros n. unfold w.
      change (schedule_all ((c, p) :: reqs') initial)
        with (schedule_all reqs' (snd (scheduleTask c p initial))).
      rewrite schedule_all_deadline by done. apply Hb.
    + rewrite !Hqueue, tier_length. unfold tasks.
      by rewrite tasks_from_length.
    + subst w'. rewrite Hrun. simpl. rewrite Hx, !Hqueue.
      replace (executed (history w)) with (@nil Task); [done|].
      unfold w. by rewrite schedule_all_executed.
Qed.

(** ** Exceptions in the drain *)

(** Nothing reads what [console.error] has received: a world with more
    reports in front goes through every step as the world without them
    does. *)
Lemma processTaskQueue_drain_from fuel w :
  processTaskQueue fuel w
  = drain_from fuel fuel HIGH
      (set_isScheduled false (snd (performance_now clock w))).
Proof. reflexivity. Qed.
















(** ** The writer *)

Lemma strict_eq_refl v : strict_eq v v = true.
Proof.
  destruct v as [| |b|z|s|f|r fs]; simpl; try done.
  - by destruct b.
  - apply Z.eqb_refl.
  - apply String.eqb_refl.
  - apply Nat.eqb_refl.
  - apply Nat.eqb_refl.
Qed.

Lemma strict_eq_is_function a b :
  strict_eq a b = true -> is_function a = is_function b.
Proof. by destruct a, b. Qed.

(** C10, as the code has it. Given a function, the writer applies it to
    the previous value and the signal then holds the result, never the
    function as such; the stored value is a function exactly when that
    result is one. *)
Theorem writer_applies_function_argument
    (s f : nat) (w : World) (signal : SignalValue) :
  signals (graph w) !! s = Some signal ->
  exists signal',
    signals (graph (write s (VFun f) w)) !! s = Some signal' /\
    strict_eq (value signal') (apply_fn f (value signal)) = true /\
    is_function (value signal') = is_function (apply_fn f (value signal)) /\
    subscribers signal' = subscribers signal.
Proof.
  intros Hs. unfold Core.write. rewrite Hs. simpl.
  destruct (strict_eq (value signal) (apply_fn f (value signal))) eqn:E.
  - exists signal. split; [done|]. split; [done|]. split; [|done].
    by apply strict_eq_is_function.
  - eexists. split.
    + unfold Core.scheduleTask. simpl.
      assert (s < List.length (signals (graph w))) as Hlt
        by (by eapply lookup_lt_Some).
      destruct (isScheduled (sched w)); simpl;
        by apply list_lookup_insert_eq.
    + simpl. by rewrite strict_eq_refl.
Qed.

End Facts.

(** ** Evaluations *)

(** C7, on an example: five tasks scheduled LOW, HIGH, NORMAL, HIGH,
    NORMAL run in the order 2, 4, 3, 5, 1. *)
Lemma drain_runs_tiers_in_fifo_order_witness :
  let reqs := [(UserFn (Print (VNum 1) Return), LOW);
               (UserFn (Throw (VStr "boom")), HIGH);
               (UserFn Return, NORMAL);
               (UserFn (Print (VNum 4) Return), HIGH);
               (UserFn (Print (VNum 5) (Throw VNull)), NORMAL)] in
  map id (executed (history (snd
    (processTaskQueue still identity_fn 5
       (schedule_all still reqs initial))))) = [2; 4; 3; 5; 1].
Proof.
  intros reqs.
  destruct (drain_runs_tiers_in_fifo_order still identity_fn reqs 5)
    as (_ & _ & _ & H).
  rewrite H; [reflexivity| |intros n; reflexivity|simpl; lia].
  repeat constructor.
Defined.


(** C10: an updater that returns a function leaves that function in the
    signal. *)
Lemma writer_stores_function_result : ~ writer_never_stores_function.
Proof.
  intros H.
  pose (w := snd (createSignal (VNum 0) initial)).
  specialize (H still (fun _ _ => VFun 7) 0 (VFun 3) w
                {| value := VNum 0; subscribers := [] |}
                {| value := VFun 7; subscribers := [] |}).
  discriminate H; reflexivity.
Qed.

Lemma writer_applies_function_argument_witness :
  exists signal',
    signals (graph (write still (fun _ _ => VFun 7) 0 (VFun 3)
                      (snd (createSignal (VNum 0) initial)))) !! 0
      = Some signal' /\
    is_function (value signal') = true.
Proof.
  destruct (writer_applies_function_argument still (fun _ _ => VFun 7) 0 3
              (snd (createSignal (VNum 0) initial))
              {| value := VNum 0; subscribers := [] |})
    as (signal' & Hs & _ & Hf & _); [reflexivity|].
  exists signal'. split; [exact Hs|exact Hf].
Defined.

(** C1: in the documentation's batching example the two writes of one
    turn enqueue two tasks, and the drain runs the effect once for each:
    three runs in all, the first at creation. *)
Theorem batching_example_runs_effect_per_write :
  let w := snd (exec still identity_fn batching_example initial) in
  let w' := turn batching_example initial in
  effectRuns (history w) = [0] /\
  map id (queue NORMAL w) = [1; 2] /\
  map id (executed (history w')) = [1; 2] /\
  effectRuns (history w') = [0; 0; 0] /\
  output (history w') =
    [VStr "John"; VStr "Doe"; VStr "Jane"; VStr "Smith";
     VStr "Jane"; VStr "Smith"].
Proof. vm_compute. by repeat split. Qed.

(** C2: calling the function [createEffect] returned runs the effect body
    again and leaves the effect subscribed; a later write runs it a third
    time. *)
Theorem returned_function_reruns_effect :
  let w := turn counter_example initial in
  let w1 := snd (run_effect still identity_fn 0 w) in
  let w2 := turn (Write 0 (VNum 1) Return) w1 in
  effectRuns (history w) = [0] /\
  effectRuns (history w1) = [0; 0] /\
  map subscribers (signals (graph w1)) = [[0]] /\
  effectRuns (history w2) = [0; 0; 0] /\
  output (history w2) = [VNum 0; VNum 0; VNum 1].
Proof. vm_compute. by repeat split. Qed.

(** C3: in the documentation's dependency-tracking example the run that
    no longer reads [b] leaves the effect in [b]'s subscriber set, and the
    next write to [b] runs the effect again. *)
Theorem stale_subscription_is_kept :
  let w := turn branching_example initial in
  let w1 := turn (Write 0 (VNum (-1)) Return) w in
  let w2 := turn (Write 1 (VNum 20) Return) w1 in
  map subscribers (signals (graph w)) = [[0]; [0]] /\
  effectRuns (history w1) = [0; 0] /\
  output (history w1) = [VNum 1; VNum 2; VNum (-1)] /\
  map subscribers (signals (graph w1)) = [[0]; [0]] /\
  effectRuns (history w2) = [0; 0; 0].
Proof. vm_compute. by repeat split. Qed.

End CoreFacts.

Module ReconcilerFacts.
Import Dom Reconciler Render.

(** ** The document *)

Lemma structure_lookup pg n k p c :
  structure pg !! n = Some (k, p, c) ->
  exists nd, nodes pg !! n = Some nd /\
    kind nd = k /\ parentNode nd = p /\ childNodes nd = c.
Proof.
  unfold structure. rewrite list_lookup_fmap.
  destruct (nodes pg !! n) as [nd|]; [|done].
  intros [= <- <- <-]. by exists nd.
Qed.

Lemma structure_put pg n nd :
  structure (set_nodes (<[n := nd]> (nodes pg)) pg)
    = <[n := shape nd]> (structure pg).
Proof. unfold structure. simpl. apply list_fmap_insert. Qed.

Lemma structure_put_same pg n nd nd' :
  nodes pg !! n = Some nd -> shape nd' = shape nd ->
  structure (set_nodes (<[n := nd']> (nodes pg)) pg) = structure pg.
Proof.
  intros Hn Hs. rewrite structure_put, Hs. apply list_insert_id.
  unfold structure. by rewrite list_lookup_fmap, Hn.
Qed.

Lemma get_ok pg n nd :
  nodes pg !! n = Some nd -> get (Some n) pg = (Ok nd, pg).
Proof. intros H. unfold get. by rewrite H. Qed.

Lemma stable_ret n : stable n (ret tt).
Proof. intros pg _. by exists pg. Qed.

Lemma stable_bind n (m1 m2 : M unit) :
  stable n m1 -> stable n m2 -> stable n (m1 ;; m2).
Proof.
  intros H1 H2 pg Hn. destruct (H1 pg Hn) as (pg1 & E1 & S1).
  destruct (H2 pg1) as (pg2 & E2 & S2).
  { unfold element_at. by rewrite S1. }
  exists pg2. unfold bind. rewrite E1. split; [done|]. by rewrite S2.
Qed.

Lemma stable_for_each {A} n (f : A -> M unit) l :
  (forall x, stable n (f x)) -> stable n (for_each f l).
Proof.
  intros Hf. induction l as [|x l IH]; simpl.
  - apply stable_ret.
  - by apply stable_bind.
Qed.

Lemma stable_log n m : stable n (log m).
Proof. intros pg _. by eexists. Qed.

Lemma stable_afterLayout n ref node : stable n (afterLayout_ref ref node).
Proof. intros pg _. by eexists. Qed.

(** An update of the node [n] that keeps its shape. *)
Lemma stable_element_update n (f : Node -> Node) (m : nat -> Mutation) :
  (forall nd, shape (f nd) = shape nd) ->
  stable n ('(i, nd) <- get_element (Some n) ;; put i (f nd) ;; log (m i)).
Proof.
  intros Hf pg (svg & tag & p & c & Hs).
  destruct (structure_lookup _ _ _ _ _ Hs) as (nd & Hn & Hk & _).
  eexists. unfold bind, get_element, bind, get. rewrite Hn.
  unfold is_element. rewrite Hk. simpl. split; [done|].
  by apply (structure_put_same pg n nd).
Qed.

Lemma stable_setAttribute n name value :
  valid_attribute_name name = true ->
  stable n (setAttribute (Some n) name value).
Proof.
  intros Hv. unfold setAttribute. rewrite Hv.
  by apply (stable_element_update n (fun nd => with_attributes _ nd)).
Qed.

Lemma stable_removeAttribute n name :
  stable n (removeAttribute (Some n) name).
Proof. by apply (stable_element_update n (fun nd => with_attributes _ nd)). Qed.

Lemma stable_setStyle n property value :
  stable n (setStyle (Some n) property value).
Proof. by apply (stable_element_update n (fun nd => with_style _ nd)). Qed.

Lemma stable_addEventListener n event listener :
  stable n (addEventListener (Some n) event listener).
Proof.
  intros pg (svg & tag & p & c & Hs).
  destruct (structure_lookup _ _ _ _ _ Hs) as (nd & Hn & Hk & _).
  unfold addEventListener, bind, get. rewrite Hn.
  destruct (nullish listener || existsb _ (listeners nd)); simpl.
  - by eexists.
  - eexists. split; [done|]. by apply (structure_put_same pg n nd).
Qed.

Lemma stable_removeEventListener n event listener :
  stable n (removeEventListener (Some n) event listener).
Proof.
  intros pg (svg & tag & p & c & Hs).
  destruct (structure_lookup _ _ _ _ _ Hs) as (nd & Hn & Hk & _).
  unfold removeEventListener, bind, get. rewrite Hn. simpl.
  eexists. split; [done|]. by apply (structure_put_same pg n nd).
Qed.

Lemma position_In name l : forall i j, position name l i = Some j -> In name l.
Proof.
  induction l as [|x l IH]; intros i j; simpl; [done|].
  destruct (String.eqb_spec x name) as [->|_]; [by left|].
  intros H. right. by apply (IH (S i) j).
Qed.

(** The names that [Object.prototype] answers to are valid attribute
    names. *)
Lemma inherited_valid name :
  nullish (inherited name) = false -> valid_attribute_name name = true.
Proof.
  unfold inherited. destruct (String.eqb_spec name "__proto__") as [->|_]; [done|].
  destruct (position name object_prototype 0) as [i|] eqn:E; [|done].
  intros _. apply position_In in E.
  assert (forallb valid_attribute_name object_prototype = true) as H
    by reflexivity.
  by apply (proj1 (forallb_forall _ _) H).
Qed.

(** A prop that has a value has a name that [setAttribute] accepts, when
    the names of the object's own props are such. *)
Lemma lookup_prop_valid name props :
  well_named props ->
  nullish (lookup_prop name props) = false ->
  valid_attribute_name name = true.
Proof.
  induction 1 as [|[k v] props Hk _ IH]; simpl.
  - apply inherited_valid.
  - destruct (String.eqb_spec k name) as [<-|_]; [done|exact IH].
Qed.

Lemma stable_update_prop n oldProps newProps name :
  well_named newProps ->
  stable n (update_prop (Some n) oldProps newProps name).
Proof.
  intros Hw. unfold update_prop.
  destruct (special_prop name); [apply stable_ret|].
  destruct (nullish _ || strict_eq _ _) eqn:E.
  { destruct (starts_with_on name);
      [apply stable_removeEventListener|apply stable_removeAttribute]. }
  apply orb_false_elim in E as [E _].
  pose proof (lookup_prop_valid name newProps Hw E) as Hv.
  destruct (String.eqb name "style" && is_object _).
  { destruct (lookup_prop name newProps); try apply stable_ret.
    apply stable_for_each. intros kv. apply stable_setStyle. }
  destruct (starts_with_on name && is_function _).
  { apply stable_bind; [|apply stable_addEventListener].
    destruct (truthy _); [apply stable_removeEventListener|apply stable_ret]. }
  destruct (is_boolean _ && truthy _); by apply stable_setAttribute.
Qed.

(** On an element, [updateDOMProps] returns normally and leaves the tree
    structure alone, when the names of the new props are valid attribute
    names. *)
Lemma stable_updateDOMProps n oldProps newProps :
  well_named newProps ->
  stable n (updateDOMProps (Some n) oldProps newProps).
Proof.
  intros Hw. unfold updateDOMProps. apply stable_bind.
  - apply stable_for_each. intros name. by apply stable_update_prop.
  - destruct (truthy _ && is_function _);
      [apply stable_afterLayout|apply stable_ret].
Qed.







Lemma bind_ok {A B} (m : M A) (k : A -> M B) pg a pg' :
  m pg = (Ok a, pg') -> bind m k pg = k a pg'.
Proof. intros H. unfold bind. by rewrite H. Qed.

Lemma get_structure pg n k p c :
  structure pg !! n = Some (k, p, c) ->
  exists nd, get (Some n) pg = (Ok nd, pg) /\
    kind nd = k /\ parentNode nd = p /\ childNodes nd = c.
Proof.
  intros H. destruct (structure_lookup _ _ _ _ _ H) as (nd & Hn & ?).
  exists nd. split; [by apply get_ok|done].
Qed.


(** ** Calls into the application *)

Lemma silent_ret {A} (a : A) : silent (ret a).
Proof. done. Qed.

Lemma silent_throw {A} e : silent (@throw A e).
Proof. done. Qed.

Lemma silent_bind {A B} (m : M A) (k : A -> M B) :
  silent m -> (forall a, silent (k a)) -> silent (bind m k).
Proof.
  intros Hm Hk pg. unfold bind. specialize (Hm pg).
  destruct (m pg) as [[a|e|] pg1]; simpl in *; [|done..].
  by rewrite Hk.
Qed.

Lemma silent_for_each {A} (f : A -> M unit) l :
  (forall x, silent (f x)) -> silent (for_each f l).
Proof.
  intros Hf. induction l as [|x l IH]; simpl; [apply silent_ret|].
  apply silent_bind; [done|]. by intros _.
Qed.

Lemma silent_get n : silent (get n).
Proof.
  intros pg. unfold get. destruct n as [n|]; [|done].
  by destruct (nodes pg !! n).
Qed.

Lemma silent_put n nd : silent (put n nd).
Proof. done. Qed.

Lemma silent_log m : silent (log m).
Proof. done. Qed.

Lemma silent_cleanup c : silent (call (CallCleanup c)).
Proof.
  intros pg. unfold ref_calls. simpl. rewrite List.filter_app. simpl.
  by rewrite app_nil_r.
Qed.

Lemma silent_detach child : silent (detach child).
Proof.
  unfold detach. apply silent_bind; [apply silent_get|]. intros c.
  destruct (parentNode c); [|apply silent_ret].
  apply silent_bind; [apply silent_get|]. intros pn.
  apply silent_bind; [apply silent_put|]. intros _. apply silent_put.
Qed.

Lemma silent_removeChild parent child : silent (removeChild parent child).
Proof.
  unfold removeChild. apply silent_bind; [apply silent_get|]. intros pn.
  apply silent_bind; [apply silent_get|]. intros c.
  destruct parent, child; try apply silent_throw.
  destruct (has_parent _ _); [|apply silent_throw].
  apply silent_bind; [apply silent_detach|]. intros _. apply silent_log.
Qed.

(** [unmount] calls no [ref] function, whatever it is given. *)
Lemma unmount_is_silent : forall mounted, silent (unmount mounted).
Proof.
  fix IH 1. intros [element node cleanup children]. cbn [unmount].
  apply silent_bind.
  { apply silent_for_each. intros c. apply silent_cleanup. }
  intros _. apply silent_bind.
  { induction children as [|child children IHc]; [apply silent_ret|].
    apply silent_bind; [apply IH|]. intros _. exact IHc. }
  intros _. apply silent_bind; [apply silent_get|]. intros n.
  apply silent_bind.
  { destruct (parentNode n); [apply silent_removeChild|apply silent_ret]. }
  intros _. apply silent_ret.
Qed.

(** In [mount], a function-valued [ref] prop is called on the spot. *)
Lemma mount_prop_calls_ref node f :
  mount_prop node ("ref"%string, VFun f) = call (CallRef (VFun f) (Some node)).
Proof. reflexivity. Qed.

(** An attribute whose value is the same string before and after is set
    again all the same. *)
Lemma update_prop_sets_unchanged_attribute node props name v :
  special_prop name = false ->
  lookup_prop name props = VStr v ->
  update_prop node props props name = setAttribute node name v.
Proof.
  intros Hs Hv. unfold update_prop. rewrite Hs, Hv. simpl.
  by rewrite !andb_false_r.
Qed.

(** ** Positional keys *)








Section Components.

Variable component : nat -> list (string * Val) -> Element.










End Components.

(** ** Evaluations *)

Import Examples.
#[local] Open Scope string_scope.


(** C5: a keyed reorder in which no item changes, on a list of keyed
    components that [render] has mounted: the second [render] returns
    normally and leaves the items in the order [c], [a], [b], but on three
    nodes it has just created, the three existing ones being removed;
    [mount] left no [rendered] output on the old elements, where
    [createDOMNode] stores one.  And a keyed reorder of intrinsic items in
    which the item [c] has one more text child: the added text reaches
    [document.createElement] as [#text], the exception ends
    [updateChildren], and the items stay in the order [a], [b], [c]. *)
Theorem keyed_reorder_recreates_the_nodes :
  let updated :=
    render components 6 (rows ["c"; "a"; "b"]) 0 (Some rows_root) rows_page in
  let thrown :=
    updateChildren (diff components 4) (createDOMNode components 4) (Some 0)
      [item "a"; item "b"; item "c"] [longer_item "c"; item "a"; item "b"]
      list_page in
  structure rows_page !! 1 = Some (ElementNode false "ul", Some 0, [2; 4; 6]) /\
  List.length (nodes rows_page) = 8 /\
  (exists root, fst updated = Ok root) /\
  structure (snd updated) !! 1
    = Some (ElementNode false "ul", Some 0, [8; 10; 12]) /\
  List.filter (fun m => match m with
                        | CreateElement _ _ | RemoveChild _ _ => true
                        | _ => false
                        end)
    (mutations_since (List.length (mutations rows_page)) (snd updated))
    = [CreateElement 8 "div"; RemoveChild 1 6;
       CreateElement 10 "div"; RemoveChild 1 2;
       CreateElement 12 "div"; RemoveChild 1 4] /\
  fst thrown = Thrown InvalidCharacterError /\
  structure (snd thrown) = structure list_page.
Proof.
  vm_compute. repeat split; try reflexivity. by eexists.
Qed.


(** C6: diffing the mounted [greeting] tree against the same tree sets
    both attributes again and detaches and re-attaches the listener. *)
Theorem identical_tree_diff_mutates :
  createDOMNode components 4 greeting empty_page
    = (Ok (0, greeting), greeting_page) /\
  mutations_since (List.length (mutations greeting_page))
    (snd (diff components 4 greeting greeting (Some 0) greeting_page))
    = [SetAttribute 0 "id" "x";
       RemoveEventListener 0 "click" (VFun 9);
       AddEventListener 0 "click" (VFun 9);
       SetAttribute 2 "title" "t"].
Proof. split; vm_compute; reflexivity. Qed.

(** C9: [render] mounts the element and calls its [ref] with the node
    during the mount pass, nothing being handed to [afterLayout];
    unmounting removes the node and makes no call.  [createDOMNode], for
    the same element, defers the call. *)
Theorem mount_calls_ref_at_once_and_unmount_never :
  let mounted := render components 4 with_ref 0 None container_page in
  let root := match fst mounted with
              | Ok r => r
              | _ => {| root_element := None; root_mount := None |}
              end in
  let unmounted := render_cleanup root (snd mounted) in
  calls (snd mounted) = [CallRef (VFun 4) (Some 1)] /\
  layout (snd mounted) = [] /\
  root_mount root = Some (MountedComponent with_ref 1 [] []) /\
  fst unmounted = Ok {| root_element := None; root_mount := None |} /\
  calls (snd unmounted) = [CallRef (VFun 4) (Some 1)] /\
  mutations_since (List.length (mutations (snd mounted))) (snd unmounted)
    = [RemoveChild 0 1] /\
  layout (snd (createDOMNode components 4 with_ref empty_page))
    = [(VFun 4, Some 0)] /\
  calls (snd (createDOMNode components 4 with_ref empty_page)) = [].
Proof. vm_compute. by repeat split. Qed.

End ReconcilerFacts.

(** * Further properties *)

Module SchedulerFacts.
Import Core CoreFacts.

#[local] Arguments Core.scheduleTask : simpl never.
#[local] Arguments Core.cancelTask : simpl never.
#[local] Arguments Core.read : simpl never.
#[local] Arguments Core.write : simpl never.
#[local] Arguments Core.createSignal : simpl never.

Section Facts.

Variable clock : nat -> Z.
Variable apply_fn : nat -> Val -> Val.

Local Abbreviation exec := (exec clock apply_fn).
Local Abbreviation invoke := (invoke clock apply_fn).
Local Abbreviation run_queue := (run_queue clock apply_fn).
Local Abbreviation processTaskQueue := (processTaskQueue clock apply_fn).
Local Abbreviation scheduleTask := (scheduleTask clock).
Local Abbreviation write := (write clock apply_fn).
Local Abbreviation run_effect := (run_effect clock apply_fn).
Local Abbreviation run_subscribers := (run_subscribers clock apply_fn).
Local Abbreviation resolve := (resolve apply_fn).

Lemma well_numbered_same_sched w w' :
  sched w' = sched w -> well_numbered w -> well_numbered w'.
Proof. unfold well_numbered, queued, queue. by intros ->. Qed.

Lemma well_numbered_shrink w w' :
  (forall q, sublist (queue q w') (queue q w)) ->
  nextTaskId (sched w) <= nextTaskId (sched w') ->
  well_numbered w -> well_numbered w'.
Proof.
  intros Hq Hn [Hd Hb].
  assert (sublist (queued w') (queued w)) as Hs
    by (unfold queued; repeat apply sublist_app; apply Hq).
  split.
  - apply (sublist_NoDup _ (id <$> queued w)); [done|by apply fmap_sublist].
  - rewrite Forall_forall in *. intros t Ht.
    specialize (Hb t (elem_of_sublist _ _ _ Ht Hs)). lia.
Qed.

Lemma queued_scheduleTask c p w :
  queued (snd (scheduleTask c p w)) ≡ₚ
    {| id := nextTaskId (sched w); callback := c; priority := p |} :: queued w.
Proof.
  unfold queued. rewrite !scheduleTask_queue.
  destruct p; simpl; rewrite <-?app_assoc; simpl.
  - by rewrite <-Permutation_middle.
  - by rewrite <-!Permutation_middle.
  - rewrite !app_assoc, <-Permutation_cons_append. by rewrite <-!app_assoc.
Qed.

Lemma well_numbered_scheduleTask c p w :
  well_numbered w -> well_numbered (snd (scheduleTask c p w)).
Proof.
  intros [Hd Hb]. unfold well_numbered.
  rewrite queued_scheduleTask, scheduleTask_nextTaskId. split.
  - simpl. apply NoDup_cons. split; [|done].
    intros Hin. apply list_elem_of_fmap in Hin as (t & Ht & Hin).
    rewrite Forall_forall in Hb. specialize (Hb t Hin). lia.
  - constructor; [simpl; lia|].
    eapply Forall_impl; [exact Hb|]. simpl. intros t. lia.
Qed.

Lemma well_numbered_cancelTask taskId w :
  well_numbered w -> well_numbered (snd (cancelTask taskId w)).
Proof.
  apply well_numbered_shrink.
  - intros q. unfold Core.cancelTask.
    repeat match goal with |- context [if ?b then _ else _] => destruct b end;
      simpl; try done; destruct q; simpl; try done; apply remove_first_sublist.
  - unfold Core.cancelTask.
    by repeat match goal with |- context [if ?b then _ else _] => destruct b end.
Qed.

Lemma well_numbered_write s v w :
  well_numbered w -> well_numbered (write s v w).
Proof.
  intros Hw. unfold Core.write.
  destruct (signals (graph w) !! s) as [signal|]; [|done].
  destruct (strict_eq _ _); [done|].
  by apply well_numbered_scheduleTask.
Qed.

Lemma well_numbered_exec p : forall w,
  well_numbered w -> well_numbered (snd (exec p w)).
Proof.
  induction p as [|e|v k IH|s k IH|s v k IH|v k IH|fn IHfn k IH|cb _ pr k IH
                 |taskId k IH]; intros w Hw; cbn [Core.exec]; try done.
  - by apply IH.
  - destruct (read s w) as [v w1] eqn:E. apply IH.
    eapply well_numbered_same_sched; [|exact Hw].
    by rewrite <-(read_sched s w), E.
  - by apply IH, well_numbered_write.
  - by apply IH.
  - match goal with |- context [exec fn ?w0] =>
      pose proof (IHfn w0 Hw) as Hfn; destruct (exec fn w0) as [o w1] end.
    simpl in Hfn. destruct o; [|done]. by apply IH.
  - pose proof (well_numbered_scheduleTask (UserFn cb) pr w Hw) as Hs.
    destruct (scheduleTask (UserFn cb) pr w) as [taskId w1]. by apply IH.
  - pose proof (well_numbered_cancelTask taskId w Hw) as Hc.
    destruct (cancelTask taskId w) as [b w1]. by apply IH.
Qed.

Lemma well_numbered_run_effect e w :
  well_numbered w -> well_numbered (snd (run_effect e w)).
Proof.
  intros Hw. unfold Core.run_effect.
  destruct (effects (graph w) !! e) as [fn|]; [|done].
  match goal with |- context [exec fn ?w0] =>
    pose proof (well_numbered_exec fn w0 Hw) as Hfn;
    destruct (exec fn w0) as [o w1] end.
  done.
Qed.

Lemma well_numbered_run_subscribers l : forall w,
  well_numbered w -> well_numbered (snd (run_subscribers l w)).
Proof.
  induction l as [|e l IH]; intros w Hw; simpl; [done|].
  pose proof (well_numbered_run_effect e w Hw) as He.
  destruct (run_effect e w) as [[|err] w1]; simpl in *; [|done].
  by apply IH.
Qed.

Lemma well_numbered_invoke c w :
  well_numbered w -> well_numbered (snd (invoke c w)).
Proof.
  intros Hw. destruct c as [body|s]; simpl.
  - by apply well_numbered_exec.
  - destruct (signals (graph w) !! s); [|done].
    by apply well_numbered_run_subscribers.
Qed.

Lemma well_numbered_run_queue p fuel : forall w,
  well_numbered w -> well_numbered (snd (run_queue fuel p w)).
Proof.
  induction fuel as [|fuel IH]; intros w Hw; simpl.
  - by destruct (queue p w).
  - destruct (queue p w) as [|task rest] eqn:Eq; [done|].
    destruct (over_budget_same clock p w) as (Es & _ & _).
    destruct (over_budget clock p w) as [over w1]. simpl in Es.
    destruct over.
    { eapply well_numbered_shrink; [| |exact Hw]; simpl; [|by rewrite Es].
      intros q. unfold queue. simpl. by rewrite Es. }
    set (w2 := record_task task (put_queue p rest w1)).
    assert (well_numbered w2) as Hw2.
    { eapply well_numbered_shrink; [| |exact Hw].
      - intros q. change (queue q w2) with (queue q (put_queue p rest w1)).
        assert (p = q \/ p <> q) as [<-|Hne]
          by (destruct p, q; (by left) || by right).
        + rewrite queue_put_same, Eq. by constructor.
        + rewrite queue_put_other by done. unfold queue. by rewrite Es.
      - simpl. by rewrite Es. }
    pose proof (well_numbered_invoke (callback task) w2 Hw2) as Hi.
    destruct (invoke (callback task) w2) as [o w3]. simpl in Hi.
    apply IH. by destruct o.
Qed.

Lemma well_numbered_processTaskQueue fuel w :
  well_numbered w -> well_numbered (snd (processTaskQueue fuel w)).
Proof.
  intros Hw. unfold Core.processTaskQueue. simpl.
  match goal with |- context [run_queue fuel HIGH ?w0] =>
    assert (well_numbered w0) as Hw0 by done;
    pose proof (well_numbered_run_queue HIGH fuel w0 Hw0) as H1;
    destruct (run_queue fuel HIGH w0) as [e1 w1] end.
  simpl in H1. destruct e1; try done.
  pose proof (well_numbered_run_queue NORMAL fuel w1 H1) as H2.
  destruct (run_queue fuel NORMAL w1) as [e2 w2]. simpl in H2.
  destruct e2; try done.
  by apply well_numbered_run_queue.
Qed.

(** X1. The ids of the queued tasks stay distinct and below the task
    counter: the id that [scheduleTask] returns is that of no queued
    task, and scheduling, cancelling, any application code and any drain
    keep the numbering. *)
Theorem task_ids_stay_distinct (w : World) :
  well_numbered w ->
  (forall c p, fst (scheduleTask c p w) ∉ id <$> queued w) /\
  (forall c p, well_numbered (snd (scheduleTask c p w))) /\
  (forall taskId, well_numbered (snd (cancelTask taskId w))) /\
  (forall p, well_numbered (snd (exec p w))) /\
  (forall fuel, well_numbered (snd (processTaskQueue fuel w))).
Proof.
  intros Hw. split; [|split; [|split; [|split]]].
  - intros c p Hin. apply list_elem_of_fmap in Hin as (t & Ht & Hin).
    destruct Hw as [_ Hb]. rewrite Forall_forall in Hb.
    specialize (Hb t Hin). simpl in Ht. lia.
  - intros c p. by apply well_numbered_scheduleTask.
  - intros taskId. by apply well_numbered_cancelTask.
  - intros p. by apply well_numbered_exec.
  - intros fuel. by apply well_numbered_processTaskQueue.
Qed.

Lemma remove_first_filter taskId q :
  NoDup (id <$> q) ->
  remove_first taskId q = List.filter (other_id taskId) q.
Proof.
  induction q as [|t q IH]; intros Hd; simpl; [done|].
  apply NoDup_cons in Hd as [Hnot Hd]. unfold other_id at 1, has_id.
  destruct (Nat.eqb_spec (id t) taskId) as [E|E]; simpl.
  - clear IH. induction q as [|t' q IH]; simpl; [done|].
    unfold other_id at 1, has_id.
    destruct (Nat.eqb_spec (id t') taskId) as [E'|E']; simpl.
    + exfalso. apply Hnot. rewrite E, <-E'. simpl. left.
    + f_equal. apply IH.
      * intros Hin. apply Hnot. simpl. by right.
      * simpl in Hd. by apply NoDup_cons in Hd as [_ Hd].
  - f_equal. by apply IH.
Qed.

Lemma filter_other_id taskId q :
  existsb (has_id taskId) q = false -> List.filter (other_id taskId) q = q.
Proof.
  induction q as [|t q IH]; simpl; [done|]. unfold other_id at 1.
  destruct (has_id taskId t); simpl; [done|]. intros H. by rewrite IH.
Qed.

Lemma existsb_has_id taskId q :
  existsb (has_id taskId) q = true <-> taskId ∈ id <$> q.
Proof.
  induction q as [|t q IH]; simpl.
  - split; [done|]. by intros ?%elem_of_nil.
  - rewrite elem_of_cons, <-IH. unfold has_id at 1.
    destruct (Nat.eqb_spec (id t) taskId); simpl; split; auto.
    intros [?|?]; [congruence|done].
Qed.

Lemma well_numbered_queue q w :
  well_numbered w -> NoDup (id <$> queue q w).
Proof.
  intros [Hd _]. unfold queued in Hd. rewrite !fmap_app in Hd.
  apply NoDup_app in Hd as (H1 & _ & Hd). apply NoDup_app in Hd as (H2 & _ & H3).
  by destruct q.
Qed.

(** X2. [cancelTask] returns [true] exactly when a task with the given id
    is queued; afterwards no queue holds a task with that id, every other
    task is where it was, and a call that returns [false] changes
    nothing. *)
Theorem cancelTask_removes_the_task (taskId : nat) (w : World) :
  well_numbered w ->
  (fst (cancelTask taskId w) = true <-> taskId ∈ id <$> queued w) /\
  (forall q, queue q (snd (cancelTask taskId w))
             = List.filter (other_id taskId) (queue q w)) /\
  (fst (cancelTask taskId w) = false -> snd (cancelTask taskId w) = w).
Proof.
  intros Hw.
  pose proof (fun q => remove_first_filter taskId _ (well_numbered_queue q w Hw)) as Hr.
  pose proof (filter_other_id taskId) as Hf.
  assert (forall q, existsb (has_id taskId) (queue q w) = true ->
            forall q', q' <> q -> existsb (has_id taskId) (queue q' w) = false) as Hx.
  { intros q Hq q' Hne. destruct (existsb _ (queue q' w)) eqn:Hq'; [|done].
    apply existsb_has_id in Hq, Hq'. destruct Hw as [Hd _].
    unfold queued in Hd. rewrite !fmap_app in Hd.
    apply NoDup_app in Hd as (_ & H1 & Hd). apply NoDup_app in Hd as (_ & H2 & _).
    exfalso. destruct q, q'; try done.
    - apply (H1 _ Hq). apply elem_of_app. by left.
    - apply (H1 _ Hq). apply elem_of_app. by right.
    - apply (H1 _ Hq'). apply elem_of_app. by left.
    - by apply (H2 _ Hq).
    - apply (H1 _ Hq'). apply elem_of_app. by right.
    - by apply (H2 _ Hq'). }
  unfold queued. rewrite !fmap_app, !elem_of_app, <-!existsb_has_id.
  unfold Core.cancelTask.
  destruct (existsb _ (queue HIGH w)) eqn:EH; [|
  destruct (existsb _ (queue NORMAL w)) eqn:EN; [|
  destruct (existsb _ (queue LOW w)) eqn:EL]]; cbn [fst snd].
  - split; [by split; auto|]. split; [|done].
    intros [| |]; [by rewrite queue_put_same, Hr|..];
      rewrite queue_put_other by done; symmetry; apply Hf;
      by apply (Hx HIGH).
  - split; [by split; auto|]. split; [|done].
    intros [| |]; [|by rewrite queue_put_same, Hr|];
      rewrite queue_put_other by done; symmetry; apply Hf;
      first [done|by apply (Hx NORMAL)].
  - split; [by split; auto|]. split; [|done].
    intros [| |]; [| |by rewrite queue_put_same, Hr];
      rewrite queue_put_other by done; symmetry; by apply Hf.
  - split; [split; [done|by intros [|[|]]]|]. split; [|done].
    intros [| |]; symmetry; by apply Hf.
Qed.

(** X3. After [cancelTask] of an id handed out earlier, whatever the
    application does next and whatever the next drain executes, no task
    with that id is executed. *)
Theorem cancelled_task_never_runs (taskId : nat) (p : Prog) (fuel : nat)
    (w : World) :
  well_numbered w ->
  taskId < nextTaskId (sched w) ->
  let w1 := snd (cancelTask taskId w) in
  let w2 := snd (exec p w1) in
  let w3 := snd (processTaskQueue fuel w2) in
  exists ex,
    executed (history w3) = executed (history w) ++ ex /\
    Forall (fun t => id t <> taskId) ex.
Proof.
  intros Hw Hlt w1 w2 w3.
  destruct (cancelTask_removes_the_task taskId w Hw) as (_ & Hq & _).
  fold w1 in Hq.
  set (n := nextTaskId (sched w)).
  assert (n <= nextTaskId (sched w1)) as Hn1.
  { subst w1 n. unfold Core.cancelTask.
    by repeat match goal with |- context [if ?b then _ else _] => destruct b end. }
  pose proof (exec_keeps clock apply_fn n p w1 Hn1) as [Hn2 Hk]. fold w2 in Hn2, Hk.
  destruct (processTaskQueue_keeps clock apply_fn n fuel w2 (fst (processTaskQueue fuel w2)) w3 Hn2)
    as (ex & Hex & Hsub); [by destruct (processTaskQueue fuel w2)|].
  exists ex. split.
  - rewrite Hex. subst w2. rewrite exec_executed. subst w1.
    unfold Core.cancelTask.
    by repeat match goal with |- context [if ?b then _ else _] => destruct b end.
  - apply Forall_forall. intros t Hin Hid.
    assert (t ∈ older n ex) as Hold.
    { apply list_elem_of_In, filter_In. split; [by apply list_elem_of_In|].
      apply Nat.ltb_lt. lia. }
    pose proof (elem_of_sublist _ _ _ Hold Hsub) as Hmem.
    assert (forall q, t ∉ older n (queue q w2)) as Hno.
    { intros q Hq2. pose proof (elem_of_sublist _ _ _ Hq2 (Hk q)) as Hq1.
      apply list_elem_of_In, filter_In in Hq1 as [Hq1 _].
      rewrite Hq in Hq1. apply filter_In in Hq1 as [_ Hq1].
      unfold other_id, has_id in Hq1. rewrite Hid, Nat.eqb_refl in Hq1. done. }
    rewrite !elem_of_app in Hmem. destruct Hmem as [H|[H|H]]; by eapply Hno.
Qed.

Lemma armed_once_refl w w' :
  sched w' = sched w -> host w' = host w -> armed_once w w'.
Proof.
  intros Es Eh. unfold armed_once. rewrite Es, Eh.
  destruct (isScheduled (sched w)); (split; [lia|done]).
Qed.

Lemma armed_once_trans w1 w2 w3 :
  armed_once w1 w2 -> armed_once w2 w3 -> armed_once w1 w3.
Proof.
  unfold armed_once. intros [H12 K12] [H23 K23].
  destruct (isScheduled (sched w1)).
  - destruct K12 as (E2 & D2 & T2); [done|]. rewrite E2 in *.
    destruct K23 as (E3 & D3 & T3); [done|].
    split; [lia|]. intros _. split; [done|]. split; congruence.
  - split; [|done]. destruct (isScheduled (sched w2)).
    + destruct K23 as (E3 & _); [done|]. rewrite E3. lia.
    + lia.
Qed.

Lemma armed_once_scheduleTask c p w :
  armed_once w (snd (scheduleTask c p w)).
Proof.
  unfold armed_once, Core.scheduleTask. simpl.
  destruct (isScheduled (sched w)) eqn:E; simpl; rewrite ?E;
    (split; [lia|]); try done.
Qed.

Lemma armed_once_cancelTask taskId w :
  armed_once w (snd (cancelTask taskId w)).
Proof.
  unfold Core.cancelTask.
  repeat match goal with |- context [if ?b then _ else _] => destruct b end;
    unfold armed_once; simpl;
    destruct (isScheduled (sched w)); (split; [lia|done]).
Qed.

Lemma armed_once_write s v w : armed_once w (write s v w).
Proof.
  unfold Core.write.
  destruct (signals (graph w) !! s) as [signal|]; [|by apply armed_once_refl].
  destruct (strict_eq _ _); [by apply armed_once_refl|].
  eapply armed_once_trans; [|apply armed_once_scheduleTask].
  by apply armed_once_refl.
Qed.

Lemma read_host s w : host (snd (read s w)) = host w.
Proof.
  unfold Core.read. destruct (signals (graph w) !! s); [|done].
  by destruct (currentEffect (graph w)).
Qed.

Lemma armed_once_exec p : forall w, armed_once w (snd (exec p w)).
Proof.
  induction p as [|e|v k IH|s k IH|s v k IH|v k IH|fn IHfn k IH|cb _ pr k IH
                 |taskId k IH]; intros w; cbn [Core.exec].
  - by apply armed_once_refl.
  - by apply armed_once_refl.
  - eapply armed_once_trans; [|apply IH]. by apply armed_once_refl.
  - pose proof (read_sched s w) as Es. pose proof (read_host s w) as Eh.
    destruct (read s w) as [v w1]. simpl in Es, Eh.
    eapply armed_once_trans; [by apply armed_once_refl|apply IH].
  - eapply armed_once_trans; [apply armed_once_write|apply IH].
  - eapply armed_once_trans; [|apply IH]. by apply armed_once_refl.
  - match goal with |- context [exec fn ?w0] =>
      pose proof (IHfn w0) as Hfn; destruct (exec fn w0) as [o w1] end.
    simpl in Hfn.
    assert (armed_once w (set_currentEffect None w1)) as Hk.
    { eapply armed_once_trans; [|eapply armed_once_trans; [exact Hfn|]];
        by apply armed_once_refl. }
    destruct o; [|done].
    eapply armed_once_trans; [exact Hk|apply IH].
  - pose proof (armed_once_scheduleTask (UserFn cb) pr w) as Hs.
    destruct (scheduleTask (UserFn cb) pr w) as [taskId w1].
    eapply armed_once_trans; [exact Hs|apply IH].
  - pose proof (armed_once_cancelTask taskId w) as Hc.
    destruct (cancelTask taskId w) as [b w1].
    eapply armed_once_trans; [exact Hc|apply IH].
Qed.

(** X4. However many tasks application code schedules and however many
    signals it writes in one synchronous run, [processTaskQueue] is queued
    as a microtask at most once: not at all when a drain was pending
    already (the frame deadline and the clock are then left alone), and
    once otherwise. *)
Theorem turn_queues_the_drain_once (p : Prog) (w : World) :
  let w' := snd (exec p w) in
  microtasks (host w') =
    microtasks (host w)
      + (if isScheduled (sched w) then 0
         else if isScheduled (sched w') then 1 else 0) /\
  (isScheduled (sched w) = true ->
   isScheduled (sched w') = true /\
   currentFrameDeadline (sched w') = currentFrameDeadline (sched w) /\
   ticks (host w') = ticks (host w)).
Proof. apply armed_once_exec. Qed.

Lemma run_queue_inert_split p fuel : forall w,
  Forall (fun t => inert_task t = true) (queue p w) ->
  List.length (queue p w) <= fuel ->
  exists k exit w',
    run_queue fuel p w = (exit, w') /\
    executed (history w') = executed (history w) ++ take k (queue p w) /\
    queue p w' = drop k (queue p w) /\
    (forall q, q <> p -> queue q w' = queue q w) /\
    currentFrameDeadline (sched w') = currentFrameDeadline (sched w) /\
    ((exit = Emptied /\ queue p w' = [] /\
      frames (host w') = frames (host w) /\
      isScheduled (sched w') = isScheduled (sched w)) \/
     (exit = Yielded /\ p <> HIGH /\ queue p w' <> [] /\
      frames (host w') = frames (host w) ++ [Continuation] /\
      isScheduled (sched w') = true)).
Proof.
  induction fuel as [|fuel IH]; intros w Hin Hlen.
  - destruct (queue p w) eqn:Eq; [|simpl in Hlen; lia].
    exists 0, Emptied, w. simpl. rewrite Eq, app_nil_r.
    do 5 (split; [done|]). by left.
  - simpl. destruct (queue p w) as [|task rest] eqn:Eq.
    { exists 0, Emptied, w. rewrite app_nil_r. simpl.
      do 5 (split; [done|]). by left. }
    destruct (over_budget_same clock p w) as (Es & Eh & _).
    assert (frames (host (snd (over_budget clock p w))) = frames (host w)) as Ef
      by (by destruct p).
    destruct (over_budget clock p w) as [over w1] eqn:Eo. simpl in Es, Eh, Ef.
    destruct over.
    { exists 0, Yielded. eexists. split; [done|]. simpl.
      rewrite Eh, app_nil_r. split; [done|].
      split; [unfold queue; simpl; by rewrite Es|].
      split; [intros q _; unfold queue; simpl; by rewrite Es|].
      split; [simpl; by rewrite Es|].
      right. split; [done|]. split; [intros ->; discriminate Eo|].
      split; [unfold queue; simpl; rewrite Es; fold (queue p w); by rewrite Eq|].
      by rewrite Ef. }
    inversion Hin as [|? ? Hit Hir]; subst.
    set (w2 := record_task task (put_queue p rest w1)) in *.
    destruct (invoke_inert clock apply_fn task w2 Hit) as (Ho & Es3 & Eh3 & _ & Ex3).
    destruct (invoke (callback task) w2) as [o w3].
    simpl in Ho, Es3, Eh3, Ex3.
    set (w4 := match o with Normal => w3 | Threw error => console_error error w3 end).
    assert (sched w4 = sched w2 /\ history w4 = history w3) as [Es4 Eh4]
      by (by destruct o).
    assert (frames (host w4) = frames (host w)) as Ef4
      by (subst w4; destruct o; simpl; rewrite Eh3; exact Ef).
    assert (queue p w4 = rest) as Eq4.
    { unfold queue. rewrite Es4. fold (queue p w2).
      change (queue p w2) with (queue p (put_queue p rest w1)).
      apply queue_put_same. }
    destruct (IH w4) as (k & exit & w' & Hrun & Hx & Hq & Hoth & Hd & Hex).
    { by rewrite Eq4. }
    { rewrite Eq4. simpl in Hlen. lia. }
    exists (S k), exit, w'. split; [exact Hrun|]. split; [|split; [|split; [|split]]].
    + rewrite Hx, Eq4, Eh4, Ex3. simpl. rewrite Eh. by rewrite <-app_assoc.
    + by rewrite Hq, Eq4.
    + intros q Hne. rewrite (Hoth q Hne). unfold queue. rewrite Es4.
      fold (queue q w2).
      change (queue q w2) with (queue q (put_queue p rest w1)).
      rewrite queue_put_other by done. unfold queue. by rewrite Es.
    + rewrite Hd, Es4. simpl. by rewrite Es.
    + rewrite Ef4 in Hex. replace (isScheduled (sched w4))
        with (isScheduled (sched w)) in Hex
        by (rewrite Es4; simpl; by rewrite Es).
      exact Hex.
Qed.

Lemma drop_nil_take {A} k (l : list A) :
  drop k l = [] -> take k l = l /\ List.length l <= k.
Proof.
  intros H. assert (List.length l <= k) as Hk.
  { pose proof (length_drop l k) as Hl. rewrite H in Hl. simpl in Hl. lia. }
  split; [by apply take_ge|done].
Qed.

(** X5. On any clock, a drain of callbacks that stay out of the runtime
    executes a prefix of the queued tasks, in queue order, and leaves
    exactly the others queued, in order: no task is lost or run twice.  It
    ends with the queues empty and the flag clear, or, not before the
    HIGH tier is through, with tasks left, the flag set and one
    continuation handed to [requestAnimationFrame]. *)
Theorem interrupted_drain_keeps_the_rest (fuel : nat) (w : World) :
  Forall (fun t => inert_task t = true) (queued w) ->
  List.length (queued w) <= fuel ->
  exists k exit w',
    processTaskQueue fuel w = (exit, w') /\
    executed (history w') = executed (history w) ++ take k (queued w) /\
    queued w' = drop k (queued w) /\
    ((exit = Emptied /\ queued w' = [] /\
      frames (host w') = frames (host w) /\
      isScheduled (sched w') = false) \/
     (exit = Yielded /\ List.length (queue HIGH w) <= k /\ queued w' <> [] /\
      frames (host w') = frames (host w) ++ [Continuation] /\
      isScheduled (sched w') = true)).
Proof.
  unfold queued. intros Hin Hlen. rewrite !length_app in Hlen.
  apply Forall_app in Hin as [HiH Hin]. apply Forall_app in Hin as [HiN HiL].
  unfold Core.processTaskQueue, performance_now. cbv beta iota.
  match goal with |- context [run_queue fuel HIGH ?w0] => set (w0' := w0) end.
  assert (forall q, queue q w0' = queue q w) as Eq0 by done.
  assert (executed (history w0') = executed (history w)) as Ex0 by done.
  assert (frames (host w0') = frames (host w)) as Ef0 by done.
  assert (isScheduled (sched w0') = false) as Ei0 by done.
  destruct (run_queue_inert_split HIGH fuel w0')
    as (k1 & e1 & w1 & -> & Hx1 & Hq1 & Ho1 & _ &
        [(-> & Hn1 & Hf1 & Hi1)|(_ & ? & _)]);
    [by rewrite Eq0|rewrite Eq0; lia| |done].
  rewrite Eq0, Ex0 in Hx1. rewrite Eq0, Hn1 in Hq1.
  symmetry in Hq1. apply drop_nil_take in Hq1 as [Ht1 Hk1].
  rewrite Ht1 in Hx1. rewrite Ef0 in Hf1. rewrite Ei0 in Hi1.
  set (H := queue HIGH w) in *. set (N := queue NORMAL w) in *.
  set (L := queue LOW w) in *.
  destruct (run_queue_inert_split NORMAL fuel w1)
    as (k2 & e2 & w2 & -> & Hx2 & Hq2 & Ho2 & _ &
        [(-> & Hn2 & Hf2 & Hi2)|(-> & _ & Hn2 & Hf2 & Hi2)]).
  { by rewrite Ho1, Eq0. }
  { rewrite Ho1, Eq0 by done. fold N. lia. }
  - rewrite Ho1, Eq0 in Hx2, Hq2 by done. fold N in Hx2, Hq2.
    rewrite Hn2 in Hq2. symmetry in Hq2.
    apply drop_nil_take in Hq2 as [Ht2 Hk2]. rewrite Ht2 in Hx2.
    destruct (run_queue_inert_split LOW fuel w2)
      as (k3 & e3 & w3 & -> & Hx3 & Hq3 & Ho3 & _ & Hex).
    { by rewrite Ho2, Ho1, Eq0. }
    { rewrite Ho2, Ho1, Eq0 by done. fold L. lia. }
    rewrite Ho2, Ho1, Eq0 in Hx3, Hq3 by done. fold L in Hx3, Hq3.
    assert (queue HIGH w3 = [] /\ queue NORMAL w3 = []) as [E3H E3N].
    { rewrite !Ho3, Ho2 by done. done. }
    exists (List.length H + (List.length N + k3)), e3, w3.
    split; [done|]. rewrite E3H, E3N, !take_app_add, !drop_app_add. cbn [app].
    split; [by rewrite Hx3, Hx2, Hx1, <-!app_assoc|]. split; [done|].
    destruct Hex as [(-> & Hn3 & Hf3 & Hi3)|(-> & _ & Hn3 & Hf3 & Hi3)].
    + left. split; [done|]. split; [done|].
      split; [by rewrite Hf3, Hf2|by rewrite Hi3, Hi2].
    + right. split; [done|]. split; [lia|]. split; [done|].
      split; [by rewrite Hf3, Hf2, Hf1|done].
  - rewrite Ho1, Eq0 in Hx2, Hq2 by done. fold N in Hx2, Hq2.
    assert (k2 <= List.length N) as Hk2.
    { destruct (Nat.le_gt_cases k2 (List.length N)) as [?|Hgt]; [done|].
      exfalso. apply Hn2. rewrite Hq2. apply drop_ge. lia. }
    exists (List.length H + k2), Yielded, w2. split; [done|].
    rewrite take_app_add, drop_app_add, take_app_le, drop_app_le by done.
    rewrite Ho2 by done. rewrite Hn1. rewrite (Ho2 LOW), (Ho1 LOW), Eq0 by done.
    fold L. cbn [app].
    split; [by rewrite Hx2, Hx1, <-!app_assoc|]. split; [by rewrite Hq2|].
    right. split; [done|]. split; [lia|]. split.
    + intros E. apply app_eq_nil in E as [E _]. by apply Hn2.
    + split; [by rewrite Hf2, Hf1|done].
Qed.

Lemma run_queue_spent p fuel w :
  p <> HIGH -> queue p w <> [] ->
  (currentFrameDeadline (sched w) <= clock (ticks (host w)))%Z ->
  exists w',
    run_queue (S fuel) p w = (Yielded, w') /\
    sched w' = sched (set_isScheduled true w) /\
    history w' = history w /\
    frames (host w') = frames (host w) ++ [Continuation].
Proof.
  intros Hp Hq Hd. simpl. destruct (queue p w) as [|task rest]; [done|].
  destruct p; [done|..]; simpl; apply Z.leb_le in Hd; rewrite Hd;
    by eexists.
Qed.

Lemma run_queue_empty p fuel w :
  queue p w = [] -> run_queue fuel p w = (Emptied, w).
Proof. intros H. destruct fuel; simpl; by rewrite H. Qed.

(** X6. A drain that starts with the frame budget spent, while a NORMAL or
    a LOW task is queued and the callbacks of the HIGH tasks stay out of
    the runtime (they schedule no task and write no signal, which would
    renew the deadline), executes the HIGH tasks, all of them and in
    order, and then yields: the NORMAL and LOW queues are as they were,
    the flag is set and one continuation is handed to
    [requestAnimationFrame]. *)
Theorem spent_budget_runs_only_high (fuel : nat) (w : World) :
  Forall (fun t => inert_task t = true) (queue HIGH w) ->
  List.length (queue HIGH w) < fuel ->
  (forall n, (currentFrameDeadline (sched w) <= clock n)%Z) ->
  queue NORMAL w ++ queue LOW w <> [] ->
  exists w',
    processTaskQueue fuel w = (Yielded, w') /\
    executed (history w') = executed (history w) ++ queue HIGH w /\
    queue HIGH w' = [] /\
    queue NORMAL w' = queue NORMAL w /\
    queue LOW w' = queue LOW w /\
    frames (host w') = frames (host w) ++ [Continuation] /\
    isScheduled (sched w') = true.
Proof.
  intros HiH Hlen Hd Hne.
  unfold Core.processTaskQueue, performance_now. cbv beta iota.
  match goal with |- context [run_queue fuel HIGH ?w0] => set (w0' := w0) end.
  assert (forall q, queue q w0' = queue q w) as Eq0 by done.
  destruct (run_queue_inert_split HIGH fuel w0')
    as (k1 & e1 & w1 & -> & Hx1 & Hq1 & Ho1 & Hd1 &
        [(-> & Hn1 & Hf1 & Hi1)|(_ & ? & _)]);
    [by rewrite Eq0|rewrite Eq0; lia| |done].
  rewrite Eq0 in Hx1, Hq1. rewrite Hn1 in Hq1.
  symmetry in Hq1. apply drop_nil_take in Hq1 as [Ht1 _]. rewrite Ht1 in Hx1.
  destruct fuel as [|fuel]; [lia|].
  assert (forall q w2,
    q <> HIGH -> queue q w <> [] ->
    (forall q', queue q' w2 = queue q' w1) ->
    sched w2 = sched w1 -> history w2 = history w1 ->
    frames (host w2) = frames (host w1) ->
    exists w', run_queue (S fuel) q w2 = (Yielded, w') /\
      executed (history w') = executed (history w) ++ queue HIGH w /\
      queue HIGH w' = [] /\
      queue NORMAL w' = queue NORMAL w /\
      queue LOW w' = queue LOW w /\
      frames (host w') = frames (host w) ++ [Continuation] /\
      isScheduled (sched w') = true) as Hyield.
  { intros q w2 Hq Hnq Hqs Es Eh Ef.
    destruct (run_queue_spent q fuel w2) as (w' & -> & Es' & Eh' & Ef');
      [done|by rewrite Hqs, Ho1, Eq0| |].
    { rewrite Es, Hd1. apply Hd. }
    assert (forall q', queue q' w' = queue q' w1) as Hq'
      by (intros q'; rewrite <-Hqs; unfold queue; by rewrite Es').
    exists w'. split; [done|]. rewrite Eh', Eh, Ef', Ef, Hf1, !Hq', Es'.
    split; [done|]. split; [done|].
    split; [by rewrite (Ho1 NORMAL), (Eq0 NORMAL)|].
    split; [by rewrite (Ho1 LOW), (Eq0 LOW)|done]. }
  destruct (queue NORMAL w) as [|t N] eqn:EN.
  - assert (run_queue (S fuel) NORMAL w1 = (Emptied, w1)) as ->.
    { apply run_queue_empty. by rewrite (Ho1 NORMAL), Eq0, EN. }
    apply (Hyield LOW w1); try done.
  - destruct (Hyield NORMAL w1) as (w' & -> & H); try done. by rewrite EN.
    by exists w'.
Qed.

Lemma run_queue_step p fuel w task rest :
  queue p w = task :: rest ->
  run_queue (S fuel) p w =
    let (over, w1) := over_budget clock p w in
    if over then
      (Yielded, requestAnimationFrame Continuation (set_isScheduled true w1))
    else
      let w2 := record_task task (put_queue p rest w1) in
      let (o, w3) := invoke (callback task) w2 in
      run_queue fuel p
        (match o with
         | Normal => w3
         | Threw error => console_error error w3
         end).
Proof. intros H. simpl. by rewrite H. Qed.

Lemma tended_same w w' :
  sched w' = sched w ->
  microtasks (host w') = microtasks (host w) ->
  frames (host w') = frames (host w) ->
  tended w w'.
Proof.
  intros Es Em Ef. unfold tended, quiet, keeps_armed, armed, queue.
  rewrite Es, Em, Ef. by repeat split.
Qed.

Lemma tended_trans w1 w2 w3 : tended w1 w2 -> tended w2 w3 -> tended w1 w3.
Proof.
  intros [Q12 [K12 A12]] [Q23 [K23 A23]]. split; [|split].
  - intros H3. destruct (Q23 H3) as [H2 S23]. destruct (Q12 H2) as [H1 S12].
    split; [done|]. intros q. etrans; [apply S23|apply S12].
  - auto.
  - auto.
Qed.

Lemma tended_scheduleTask c p w : tended w (snd (scheduleTask c p w)).
Proof.
  split; [|split].
  - intros H. destruct (scheduleTask_deadline clock c p w) as [_ Ht]. congruence.
  - intros K _. unfold armed, Core.scheduleTask in *. simpl.
    destruct (isScheduled (sched w)) eqn:E; simpl; [by apply K|left; lia].
  - unfold armed, Core.scheduleTask. simpl.
    destruct (isScheduled (sched w)); simpl; [done|].
    intros [?|?]; [left; lia|by right].
Qed.

Lemma tended_cancelTask taskId w : tended w (snd (cancelTask taskId w)).
Proof.
  split; [|split].
  - intros H. split.
    + revert H. unfold Core.cancelTask.
      by repeat match goal with |- context [if ?b then _ else _] => destruct b end.
    + intros q. unfold Core.cancelTask.
      repeat match goal with |- context [if ?b then _ else _] => destruct b end;
        simpl; try done; destruct q; simpl; try done; apply remove_first_sublist.
  - unfold armed, Core.cancelTask.
    by repeat match goal with |- context [if ?b then _ else _] => destruct b end.
  - unfold armed, Core.cancelTask.
    by repeat match goal with |- context [if ?b then _ else _] => destruct b end.
Qed.

Lemma tended_write s v w : tended w (write s v w).
Proof.
  unfold Core.write.
  destruct (signals (graph w) !! s) as [signal|]; [|by apply tended_same].
  destruct (strict_eq _ _); [by apply tended_same|].
  eapply tended_trans; [|apply tended_scheduleTask].
  by apply tended_same.
Qed.

Lemma tended_exec p : forall w, tended w (snd (exec p w)).
Proof.
  induction p as [|e|v k IH|s k IH|s v k IH|v k IH|fn IHfn k IH|cb _ pr k IH
                 |taskId k IH]; intros w; cbn [Core.exec].
  - by apply tended_same.
  - by apply tended_same.
  - eapply tended_trans; [|apply IH]. by apply tended_same.
  - pose proof (read_sched s w) as Es. pose proof (read_host s w) as Eh.
    destruct (read s w) as [v w1]. simpl in Es, Eh.
    eapply tended_trans; [apply tended_same; by rewrite ?Es, ?Eh|apply IH].
  - eapply tended_trans; [apply tended_write|apply IH].
  - eapply tended_trans; [|apply IH]. by apply tended_same.
  - match goal with |- context [exec fn ?w0] =>
      pose proof (IHfn w0) as Hfn; destruct (exec fn w0) as [o w1] end.
    simpl in Hfn.
    assert (tended w (set_currentEffect None w1)) as Hk.
    { eapply tended_trans; [|eapply tended_trans; [exact Hfn|]];
        by apply tended_same. }
    destruct o; [|done].
    eapply tended_trans; [exact Hk|apply IH].
  - pose proof (tended_scheduleTask (UserFn cb) pr w) as Hs.
    destruct (scheduleTask (UserFn cb) pr w) as [taskId w1].
    eapply tended_trans; [exact Hs|apply IH].
  - pose proof (tended_cancelTask taskId w) as Hc.
    destruct (cancelTask taskId w) as [b w1].
    eapply tended_trans; [exact Hc|apply IH].
Qed.

Lemma tended_run_effect e w : tended w (snd (run_effect e w)).
Proof.
  unfold Core.run_effect.
  destruct (effects (graph w) !! e) as [fn|]; [|by apply tended_same].
  match goal with |- context [exec fn ?w0] =>
    pose proof (tended_exec fn w0) as Hfn;
    destruct (exec fn w0) as [o w1] end.
  simpl in *. eapply tended_trans; [|eapply tended_trans; [exact Hfn|]];
    by apply tended_same.
Qed.

Lemma tended_run_subscribers l : forall w,
  tended w (snd (run_subscribers l w)).
Proof.
  induction l as [|e l IH]; intros w; simpl; [by apply tended_same|].
  pose proof (tended_run_effect e w) as He.
  destruct (run_effect e w) as [[|err] w1]; simpl in *; [|done].
  eapply tended_trans; [exact He|apply IH].
Qed.

Lemma tended_invoke c w : tended w (snd (invoke c w)).
Proof.
  destruct c as [body|s]; simpl.
  - apply tended_exec.
  - destruct (signals (graph w) !! s); [|by apply tended_same].
    apply tended_run_subscribers.
Qed.

Lemma run_queue_tended p fuel : forall w exit w',
  run_queue fuel p w = (exit, w') ->
  (isScheduled (sched w) = true -> armed w) ->
  drained_before p w ->
  (isScheduled (sched w') = true -> armed w') /\
  (exit = Emptied -> drained_before p w' /\ queue p w' = []) /\
  (exit = Yielded -> isScheduled (sched w') = true).
Proof.
  induction fuel as [|fuel IH]; intros w exit w' Hrun K J.
  - simpl in Hrun. destruct (queue p w) eqn:Eq; inversion Hrun; subst; by repeat split.
  - simpl in Hrun. destruct (queue p w) as [|task rest] eqn:Eq.
    { inversion Hrun; subst. by repeat split. }
    destruct (over_budget_same clock p w) as (Es & _ & _).
    assert (microtasks (host (snd (over_budget clock p w))) = microtasks (host w) /\
            frames (host (snd (over_budget clock p w))) = frames (host w))
      as [Em Ef] by (by destruct p).
    destruct (over_budget clock p w) as [over w1]. simpl in Es, Em, Ef.
    destruct over.
    { inversion Hrun; subst. split; [|by repeat split].
      intros _. right. simpl. apply elem_of_app. right. by left. }
    set (w2 := record_task task (put_queue p rest w1)) in *.
    destruct (tended_invoke (callback task) w2) as [Q [K3 _]].
    destruct (invoke (callback task) w2) as [o w3]. simpl in Q, K3.
    set (w4 := match o with Normal => w3 | Threw error => console_error error w3 end) in *.
    assert (sched w4 = sched w3 /\ microtasks (host w4) = microtasks (host w3) /\
            frames (host w4) = frames (host w3)) as (Es4 & Em4 & Ef4)
      by (by destruct o).
    apply (IH w4 exit w' Hrun).
    + unfold armed. rewrite Es4, Em4, Ef4. apply K3.
      unfold armed, w2. simpl. rewrite Es, Em, Ef. exact K.
    + intros H4 q Hq. rewrite Es4 in H4. destruct (Q H4) as [H2 Hsub].
      unfold queue. rewrite Es4. fold (queue q w3).
      apply sublist_nil_r. rewrite <-(J ltac:(by rewrite <-Es) q Hq).
      etrans; [apply Hsub|].
      change (queue q w2) with (queue q (put_queue p rest w1)).
      rewrite queue_put_other by (intros ->; lia).
      unfold queue. by rewrite Es.
Qed.

(** X7. No queued task is left without a drain on its way: initially,
    after any application code, and after any drain that the bound on the
    iterations did not cut, a non-empty queue comes with the flag set, and
    a set flag with [processTaskQueue] queued as a microtask or its
    continuation registered for the next frame. *)
Theorem no_task_is_stranded :
  attended initial /\
  (forall p w, attended w -> attended (snd (exec p w))) /\
  (forall fuel w,
     fst (processTaskQueue fuel w) <> Starved ->
     attended (snd (processTaskQueue fuel w))).
Proof.
  split; [|split].
  - split; [done|]. simpl. done.
  - intros p w [Hq Hk]. destruct (tended_exec p w) as [Q [K _]].
    split; [|by apply K].
    intros Hne. destruct (isScheduled (sched (snd (exec p w)))) eqn:E; [done|].
    destruct (Q E) as [H Hsub]. exfalso. apply Hne.
    assert (queued w = []) as Hnil.
    { destruct (queued w) eqn:Eq; [done|]. rewrite Hq in H; done. }
    unfold queued in *.
    apply app_eq_nil in Hnil as [HH Hnil]. apply app_eq_nil in Hnil as [HN HL].
    pose proof (Hsub HIGH) as S1. pose proof (Hsub NORMAL) as S2.
    pose proof (Hsub LOW) as S3. rewrite HH in S1. rewrite HN in S2.
    rewrite HL in S3. apply sublist_nil_r in S1, S2, S3.
    by rewrite S1, S2, S3.
  - intros fuel w. unfold Core.processTaskQueue, performance_now.
    cbv beta iota.
    match goal with |- context [run_queue fuel HIGH ?w0] => set (w0' := w0) end.
    assert (isScheduled (sched w0') = true -> armed w0') as K0 by done.
    assert (drained_before HIGH w0') as J0.
    { intros _ q Hq. destruct q; simpl in Hq; lia. }
    assert (forall w', (isScheduled (sched w') = true -> armed w') ->
              isScheduled (sched w') = true -> attended w') as Hy.
    { intros w' K H. by split. }
    assert (forall w', (isScheduled (sched w') = true -> armed w') ->
              drained_before LOW w' -> queue LOW w' = [] -> attended w') as He.
    { intros w' K J HL. split; [|done]. intros Hne.
      destruct (isScheduled (sched w')) eqn:E; [done|]. exfalso. apply Hne.
      unfold queued. rewrite (J E HIGH), (J E NORMAL), HL; simpl; [done|lia..]. }
    destruct (run_queue fuel HIGH w0') as [e1 w1] eqn:E1.
    destruct (run_queue_tended HIGH fuel w0' e1 w1 E1 K0 J0) as (K1 & HE1 & HY1).
    destruct e1; cbn [fst snd]; [|intros _; apply Hy; auto|done].
    destruct HE1 as [J1 Q1]; [done|].
    assert (drained_before NORMAL w1) as J1'.
    { intros H q Hq. destruct q; simpl in Hq; [done|lia..]. }
    destruct (run_queue fuel NORMAL w1) as [e2 w2] eqn:E2.
    destruct (run_queue_tended NORMAL fuel w1 e2 w2 E2 K1 J1') as (K2 & HE2 & HY2).
    destruct e2; cbn [fst snd]; [|intros _; apply Hy; auto|done].
    destruct HE2 as [J2 Q2]; [done|].
    assert (drained_before LOW w2) as J2'.
    { intros H q Hq. destruct q; simpl in Hq;
        [apply J2; [done|simpl; lia]|done|lia]. }
    destruct (run_queue fuel LOW w2) as [e3 w3] eqn:E3.
    destruct (run_queue_tended LOW fuel w2 e3 w3 E3 K2 J2') as (K3 & HE3 & HY3).
    destruct e3; cbn [fst snd]; [|intros _; apply Hy; auto|done].
    destruct HE3 as [J3 Q3]; [done|]. intros _. by apply He.
Qed.

End Facts.

(** ** Evaluations *)

Lemma task_ids_stay_distinct_witness :
  well_numbered
    (snd (exec still identity_fn
            (ScheduleTask Return NORMAL (fun _ => CancelTask 1 (fun _ => Return)))
            two_queued)).
Proof.
  apply (task_ids_stay_distinct still identity_fn two_queued).
  split; [apply (bool_decide_unpack _); vm_compute; exact I|].
  repeat constructor.
Defined.

Lemma cancelTask_removes_the_task_witness :
  map id (queue LOW (snd (cancelTask 1 two_queued))) = [] /\
  map id (queue HIGH (snd (cancelTask 1 two_queued))) = [2].
Proof.
  destruct (cancelTask_removes_the_task 1 two_queued) as (_ & Hq & _).
  - split; [apply (bool_decide_unpack _); vm_compute; exact I|].
    repeat constructor.
  - rewrite !Hq. split; reflexivity.
Defined.

Lemma cancelled_task_never_runs_witness :
  exists ex,
    executed (history (snd (processTaskQueue still identity_fn 4
      (snd (exec still identity_fn (ScheduleTask Return LOW (fun _ => Return))
         (snd (cancelTask 1 two_queued)))))))
      = executed (history two_queued) ++ ex /\
    Forall (fun t => id t <> 1) ex.
Proof.
  apply (cancelled_task_never_runs still identity_fn 1
           (ScheduleTask Return LOW (fun _ => Return)) 4 two_queued).
  - split; [apply (bool_decide_unpack _); vm_compute; exact I|].
    repeat constructor.
  - vm_compute. lia.
Defined.

Lemma spent_budget_runs_only_high_witness :
  exists w',
    processTaskQueue (fun _ => 16%Z) identity_fn 2 two_queued = (Yielded, w') /\
    map id (executed (history w')) = [2] /\
    map id (queue LOW w') = [1] /\
    frames (host w') = [Continuation].
Proof.
  destruct (spent_budget_runs_only_high (fun _ => 16%Z) identity_fn 2 two_queued)
    as (w' & E & Hx & _ & _ & HL & Hf & _).
  - repeat constructor.
  - vm_compute. lia.
  - intros n. vm_compute. discriminate.
  - vm_compute. discriminate.
  - exists w'. rewrite Hx, HL, Hf. repeat split; reflexivity || exact E.
Defined.

Lemma interrupted_drain_keeps_the_rest_witness :
  exists k exit w',
    processTaskQueue (fun n => (20 * Z.of_nat n)%Z) identity_fn 2 two_queued
      = (exit, w') /\
    executed (history w')
      = executed (history two_queued) ++ take k (queued two_queued) /\
    queued w' = drop k (queued two_queued) /\
    ((exit = Emptied /\ queued w' = [] /\
      frames (host w') = frames (host two_queued) /\
      isScheduled (sched w') = false) \/
     (exit = Yielded /\ List.length (queue HIGH two_queued) <= k /\
      queued w' <> [] /\
      frames (host w') = frames (host two_queued) ++ [Continuation] /\
      isScheduled (sched w') = true)).
Proof.
  apply (interrupted_drain_keeps_the_rest (fun n => (20 * Z.of_nat n)%Z)
           identity_fn 2 two_queued).
  - repeat constructor.
  - vm_compute. lia.
Defined.

End SchedulerFacts.

Module ReactivityFacts.
Import Core CoreFacts SchedulerFacts.

#[local] Arguments Core.scheduleTask : simpl never.
#[local] Arguments Core.cancelTask : simpl never.
#[local] Arguments Core.read : simpl never.
#[local] Arguments Core.write : simpl never.
#[local] Arguments Core.createSignal : simpl never.

Section Facts.

Variable clock : nat -> Z.
Variable apply_fn : nat -> Val -> Val.

Local Abbreviation exec := (exec clock apply_fn).
Local Abbreviation invoke := (invoke clock apply_fn).
Local Abbreviation run_queue := (run_queue clock apply_fn).
Local Abbreviation processTaskQueue := (processTaskQueue clock apply_fn).
Local Abbreviation scheduleTask := (scheduleTask clock).
Local Abbreviation write := (write clock apply_fn).
Local Abbreviation run_effect := (run_effect clock apply_fn).
Local Abbreviation run_subscribers := (run_subscribers clock apply_fn).
Local Abbreviation resolve := (resolve apply_fn).

Lemma read_write s v w signal :
  signals (graph w) !! s = Some signal ->
  strict_eq (fst (read s (write s v w))) (resolve v (value signal)) = true /\
  (forall s', s' <> s -> fst (read s' (write s v w)) = fst (read s' w)).
Proof.
  intros Hs. unfold Core.write. rewrite Hs.
  destruct (strict_eq (value signal) _) eqn:E.
  - split; [|done]. unfold Core.read. rewrite Hs.
    by destruct (currentEffect (graph w)).
  - split.
    + unfold Core.read. rewrite scheduleTask_graph. simpl.
      rewrite list_lookup_insert_eq by (by eapply lookup_lt_Some).
      simpl. apply strict_eq_refl.
    + intros s' Hne. unfold Core.read. rewrite scheduleTask_graph. simpl.
      rewrite list_lookup_insert_ne by done.
      destruct (signals (graph w) !! s'); [|done]. simpl.
      by destruct (currentEffect (graph w)).
Qed.

(** X8. Reading a signal right after writing it yields the resolved
    value (the old one when the two are identical), and the write leaves
    what every other signal's reader returns as it was. *)
Theorem read_returns_last_write (s : nat) (v : Val) (w : World)
    (signal : SignalValue) :
  signals (graph w) !! s = Some signal ->
  strict_eq (fst (read s (write s v w))) (resolve v (value signal)) = true /\
  (forall s', s' <> s -> fst (read s' (write s v w)) = fst (read s' w)).
Proof. apply read_write. Qed.

Lemma read_value s w :
  value <$> signals (graph (snd (read s w))) = value <$> signals (graph w) /\
  effects (graph (snd (read s w))) = effects (graph w) /\
  currentEffect (graph (snd (read s w))) = currentEffect (graph w) /\
  history (snd (read s w)) = history w.
Proof.
  unfold Core.read. destruct (signals (graph w) !! s) as [signal|] eqn:Hs; [|done].
  destruct (currentEffect (graph w)) eqn:Ec; [|by rewrite ?Ec]. simpl.
  split; [|by rewrite ?Ec]. rewrite list_fmap_insert. simpl.
  apply list_insert_id. by rewrite list_lookup_fmap, Hs.
Qed.

Lemma exec_reads_only o p : reads_only o p -> forall w,
  fst (exec p w) = o /\
  sched (snd (exec p w)) = sched w /\
  host (snd (exec p w)) = host w /\
  executed (history (snd (exec p w))) = executed (history w) /\
  effectRuns (history (snd (exec p w))) = effectRuns (history w) /\
  effects (graph (snd (exec p w))) = effects (graph w) /\
  currentEffect (graph (snd (exec p w))) = currentEffect (graph w) /\
  value <$> signals (graph (snd (exec p w))) = value <$> signals (graph w).
Proof.
  induction p as [|e|v k IH|s k IH| | | | |]; intros Ho w; try done.
  - cbn [Core.exec]. simpl in Ho. destruct (IH Ho (record_output v w))
      as (H1 & H2 & H3 & H4 & H5 & H6 & H7 & H8).
    by rewrite H1, H2, H3, H4, H5, H6, H7, H8.
  - cbn [Core.exec]. simpl in Ho.
    pose proof (read_sched s w) as Es. pose proof (read_host s w) as Eh.
    destruct (read_value s w) as (Ev & Ee & Ec & Ehi).
    destruct (read s w) as [v w1]. simpl in *.
    destruct (IH v (Ho v) w1) as (H1 & H2 & H3 & H4 & H5 & H6 & H7 & H8).
    by rewrite H1, H2, H3, H4, H5, H6, H7, H8, Es, Eh, Ev, Ee, Ec, Ehi.
Qed.

Lemma run_effect_observer e fn w :
  effects (graph w) !! e = Some fn -> observer fn ->
  fst (run_effect e w) = Normal /\
  sched (snd (run_effect e w)) = sched w /\
  host (snd (run_effect e w)) = host w /\
  executed (history (snd (run_effect e w))) = executed (history w) /\
  effectRuns (history (snd (run_effect e w))) = effectRuns (history w) ++ [e] /\
  effects (graph (snd (run_effect e w))) = effects (graph w) /\
  value <$> signals (graph (snd (run_effect e w))) = value <$> signals (graph w).
Proof.
  intros He Ho. unfold Core.run_effect. rewrite He.
  match goal with |- context [exec fn ?w0] =>
    destruct (exec_reads_only Normal fn Ho w0)
      as (H1 & H2 & H3 & H4 & H5 & H6 & H7 & H8);
    destruct (exec fn w0) as [o w1] end.
  simpl in *. by rewrite H1, H2, H3, H4, H5, H6, H8.
Qed.

Lemma run_subscribers_observers l : forall w,
  observers l w ->
  fst (run_subscribers l w) = Normal /\
  sched (snd (run_subscribers l w)) = sched w /\
  host (snd (run_subscribers l w)) = host w /\
  executed (history (snd (run_subscribers l w))) = executed (history w) /\
  effectRuns (history (snd (run_subscribers l w)))
    = effectRuns (history w) ++ l /\
  effects (graph (snd (run_subscribers l w))) = effects (graph w) /\
  value <$> signals (graph (snd (run_subscribers l w)))
    = value <$> signals (graph w).
Proof.
  induction l as [|e l IH]; intros w Hl; simpl.
  - by rewrite app_nil_r.
  - inversion Hl as [|? ? (fn & He & Ho) Hl']; subst.
    destruct (run_effect_observer e fn w He Ho)
      as (H1 & H2 & H3 & H4 & H5 & H6 & H7).
    destruct (run_effect e w) as [o w1]. simpl in *. subst o.
    destruct (IH w1) as (K1 & K2 & K3 & K4 & K5 & K6 & K7).
    { unfold observers. by rewrite H6. }
    rewrite K1, K2, K3, K4, K5, K6, K7, H2, H3, H4, H5, H6, H7.
    by rewrite <-app_assoc.
Qed.

(** X9. A write that changes a signal, made while nothing is queued, and
    the drain that follows: the new value is stored, every subscriber
    is run once, in subscription order (the subscribers being observers),
    nothing is reported to [console.error] and the queues are empty
    again. *)
Theorem drain_notifies_every_subscriber (s : nat) (v : Val) (w : World)
    (signal : SignalValue) (fuel : nat) :
  signals (graph w) !! s = Some signal ->
  strict_eq (value signal) (resolve v (value signal)) = false ->
  observers (subscribers signal) w ->
  queued w = [] ->
  isScheduled (sched w) = false ->
  (clock (S (S (ticks (host w)))) < clock (ticks (host w)) + frameLength)%Z ->
  0 < fuel ->
  let w' := snd (processTaskQueue fuel (write s v w)) in
  effectRuns (history w') = effectRuns (history w) ++ subscribers signal /\
  value <$> signals (graph w') !! s = Some (resolve v (value signal)) /\
  queued w' = [] /\
  errors (host w') = errors (host w).
Proof.
  intros Hs Hne Hobs Hq Hsch Hclk Hfuel.
  apply app_eq_nil in Hq as [HqH Hq]. apply app_eq_nil in Hq as [HqN HqL].
  destruct fuel as [|fuel]; [lia|].
  set (signal' := {| value := resolve v (value signal);
                     subscribers := subscribers signal |}).
  set (t := {| id := nextTaskId (sched w); callback := Notify s;
               priority := NORMAL |}).
  assert (queue NORMAL (write s v w) = [t]) as EqN.
  { rewrite (write_enqueues_notifier clock apply_fn s v w signal) by done.
    by rewrite HqN. }
  unfold Core.write in *. rewrite Hs, Hne in *. fold signal' in EqN |- *.
  set (w0 := set_signals (<[s:=signal']> (signals (graph w))) w) in *.
  assert (queue HIGH (snd (scheduleTask (Notify s) NORMAL w0)) = [] /\
          queue LOW (snd (scheduleTask (Notify s) NORMAL w0)) = []) as [EqH EqL].
  { rewrite !scheduleTask_queue. by simpl. }
  pose proof (scheduleTask_graph clock (Notify s) NORMAL w0) as Eg.
  assert (history (snd (scheduleTask (Notify s) NORMAL w0)) = history w) as Ehist.
  { unfold Core.scheduleTask. simpl. by rewrite Hsch. }
  assert (errors (host (snd (scheduleTask (Notify s) NORMAL w0))) = errors (host w)
          /\ ticks (host (snd (scheduleTask (Notify s) NORMAL w0))) = S (ticks (host w))
          /\ currentFrameDeadline (sched (snd (scheduleTask (Notify s) NORMAL w0)))
               = (clock (ticks (host w)) + frameLength)%Z) as (Eerr & Etick & Edl).
  { unfold Core.scheduleTask. simpl. by rewrite Hsch. }
  destruct (scheduleTask (Notify s) NORMAL w0) as [tid w1]. simpl in *.
  unfold Core.processTaskQueue, performance_now. cbv beta iota.
  match goal with |- context [run_queue (S fuel) HIGH ?w0] => set (w2 := w0) end.
  assert (forall q, queue q w2 = queue q w1) as Eq2 by done.
  rewrite run_queue_empty by (by rewrite Eq2).
  rewrite (run_queue_step clock apply_fn NORMAL fuel w2 t []) by (by rewrite Eq2).
  assert (over_budget clock NORMAL w2 =
          (false, snd (over_budget clock NORMAL w2))) as Eo.
  { unfold over_budget, performance_now. simpl. rewrite Etick, Edl.
    f_equal. by apply Z.leb_gt. }
  destruct (over_budget_same clock NORMAL w2) as (Es3 & Eh3 & Eg3).
  assert (host (snd (over_budget clock NORMAL w2)) = host (snd (performance_now clock w2)))
    as Eho3 by done.
  rewrite Eo. set (w3 := snd (over_budget clock NORMAL w2)) in *.
  cbv beta iota zeta.
  set (w4 := record_task t (put_queue NORMAL [] w3)).
  assert (signals (graph w4) !! s = Some signal') as Hs4.
  { unfold w4. simpl. rewrite Eg. simpl.
    apply list_lookup_insert_eq. by eapply lookup_lt_Some. }
  cbn [Core.invoke callback t]. rewrite Hs4. cbn [subscribers signal'].
  destruct (run_subscribers_observers (subscribers signal) w4)
    as (K1 & K2 & K3 & K4 & K5 & K6 & K7).
  { unfold observers, w4. simpl. rewrite Eg. exact Hobs. }
  destruct (run_subscribers (subscribers signal) w4) as [o w5]. simpl in K1.
  subst o. simpl in K2, K3, K4, K5, K6, K7.
  assert (forall q, queue q w5 = []) as Eq5.
  { intros q. unfold queue. rewrite K2. simpl.
    destruct q; simpl; [apply EqH|done|apply EqL]. }
  rewrite !run_queue_empty by apply Eq5. simpl.
  unfold queued. rewrite !Eq5. split; [|split; [|split; [done|]]].
  - rewrite K5. unfold w4. simpl. by rewrite Ehist.
  - rewrite <-list_lookup_fmap, K7. unfold w4. simpl.
    rewrite Eg. simpl. rewrite list_lookup_fmap.
    by rewrite list_lookup_insert_eq by (by eapply lookup_lt_Some).
  - rewrite K3. unfold w4. simpl. exact Eerr.
Qed.

Lemma set_add_in e l : e ∈ set_add e l.
Proof.
  unfold set_add. destruct (existsb (Nat.eqb e) l) eqn:E.
  - apply existsb_exists in E as (x & Hin & Hx).
    apply Nat.eqb_eq in Hx as ->. by apply list_elem_of_In.
  - apply elem_of_app. right. by apply list_elem_of_singleton.
Qed.

Lemma subscribed_signals e s w w' :
  signals (graph w') = signals (graph w) -> subscribed e s w -> subscribed e s w'.
Proof. unfold subscribed. by intros ->. Qed.

Lemma run_effect_reads e s k w signal :
  effects (graph w) !! e = Some (Read s k) ->
  signals (graph w) !! s = Some signal ->
  subscribed e s (snd (run_effect e w)).
Proof.
  intros He Hs. unfold Core.run_effect. rewrite He. cbn [Core.exec].
  match goal with |- context [read s ?w0] => set (w0' := w0) end.
  assert (subscribed e s (snd (read s w0'))) as Hsub.
  { unfold Core.read. subst w0'. cbn - [set_add]. rewrite Hs. cbn - [set_add].
    eexists. split; [apply list_lookup_insert_eq; by eapply lookup_lt_Some|].
    apply set_add_in. }
  destruct (read s w0') as [v w1]. simpl in Hsub.
  pose proof (exec_subscribed clock apply_fn e s (k v) w1 Hsub) as Hk.
  destruct (exec (k v) w1) as [o w2]. simpl in *.
  by eapply subscribed_signals; [|exact Hk].
Qed.

(** X10. An effect whose body reads a signal is in the signal's subscriber
    set once the body has run, whatever the body does after the read: on
    every run of the effect closure, and on the first run, made by
    [createEffect], which hands the new closure back. *)
Theorem effect_subscribes_to_the_signal_it_reads (s : nat) (k : Val -> Prog)
    (w : World) (signal : SignalValue) :
  signals (graph w) !! s = Some signal ->
  (forall e, effects (graph w) !! e = Some (Read s k) ->
     subscribed e s (snd (run_effect e w))) /\
  (let r := createEffect clock apply_fn (Read s k) w in
   snd (fst r) = List.length (effects (graph w)) /\
   subscribed (snd (fst r)) s (snd r)).
Proof.
  intros Hs. split.
  - intros e He. by eapply run_effect_reads.
  - unfold Core.createEffect.
    match goal with |- context [run_effect ?e ?w0] =>
      pose proof (run_effect_reads e s k w0 signal) as Hr;
      destruct (run_effect e w0) as [o w1] end.
    simpl in *. split; [done|]. apply Hr; [|done].
    rewrite lookup_app_r by done. by rewrite Nat.sub_diag.
Qed.

Lemma run_subscribers_app l1 l2 w :
  run_subscribers (l1 ++ l2) w =
  match run_subscribers l1 w with
  | (Normal, w1) => run_subscribers l2 w1
  | r => r
  end.
Proof.
  revert w. induction l1 as [|e l1 IH]; intros w; simpl; [done|].
  destruct (run_effect e w) as [[|err] w1]; [apply IH|done].
Qed.

(** X11. The task queued by a write calls the subscribers in subscription
    order and stops at the first that throws: with observers before it,
    the observers and the throwing effect are run, the exception leaves
    the task, and no later subscriber is called. *)
Theorem throwing_subscriber_ends_the_notification (s e : nat)
    (before rest : list nat) (body : Prog) (err : Val) (w : World)
    (signal : SignalValue) :
  signals (graph w) !! s = Some signal ->
  subscribers signal = before ++ e :: rest ->
  observers before w ->
  effects (graph w) !! e = Some body ->
  reads_only (Threw err) body ->
  fst (invoke (Notify s) w) = Threw err /\
  effectRuns (history (snd (invoke (Notify s) w)))
    = effectRuns (history w) ++ before ++ [e].
Proof.
  intros Hs Hsub Hobs He Hr. cbn [Core.invoke]. rewrite Hs, Hsub.
  rewrite run_subscribers_app.
  destruct (run_subscribers_observers before w Hobs)
    as (K1 & _ & _ & _ & K5 & K6 & _).
  destruct (run_subscribers before w) as [o w1]. simpl in K1, K5, K6. subst o.
  cbn [Core.run_subscribers]. unfold Core.run_effect. rewrite K6, He.
  match goal with |- context [exec body ?w0] =>
    destruct (exec_reads_only (Threw err) body Hr w0)
      as (Ho & _ & _ & _ & Hx & _);
    destruct (exec body w0) as [o w2] end.
  simpl in Ho, Hx. subst o.
  simpl. split; [done|]. by rewrite Hx, K5, <-app_assoc.
Qed.

(** X12. An effect body that creates an effect and then reads a signal:
    [createEffect] leaves no effect current when it returns, so the read
    that follows registers nothing; the signal's subscriber set is as it
    was. *)
Theorem nested_effect_ends_the_tracking (e s : nat) (inner : Prog)
    (w : World) (signal : SignalValue) :
  effects (graph w) !! e
    = Some (CreateEffect inner (fun _ => Read s (fun _ => Return))) ->
  inert inner = true ->
  thrown inner = None ->
  signals (graph w) !! s = Some signal ->
  signals (graph (snd (run_effect e w))) !! s = Some signal.
Proof.
  intros He Hi Ht Hs. unfold Core.run_effect. rewrite He. cbn [Core.exec].
  match goal with |- context [exec inner ?w0] =>
    destruct (exec_inert clock apply_fn inner Hi w0) as (Ho & _ & _ & Hg & _);
    destruct (exec inner w0) as [o w1] end.
  simpl in Ho, Hg. unfold outcome_of in Ho. rewrite Ht in Ho. subst o.
  unfold Core.read. simpl. rewrite Hg. simpl. rewrite Hs. simpl.
  by rewrite Hg.
Qed.

Lemma resolve_value v prev : is_function v = false -> resolve v prev = v.
Proof. by destruct v. Qed.

Lemma read_outside s w signal :
  signals (graph w) !! s = Some signal ->
  currentEffect (graph w) = None ->
  read s w = (value signal, w).
Proof. intros Hs Hc. unfold Core.read. by rewrite Hs, Hc. Qed.

Lemma read_inside s w signal e :
  signals (graph w) !! s = Some signal ->
  currentEffect (graph w) = Some e ->
  read s w =
    (value signal,
     set_signals
       (<[s := {| value := value signal;
                  subscribers := set_add e (subscribers signal) |}]>
          (signals (graph w))) w).
Proof. intros Hs Hc. unfold Core.read. by rewrite Hs, Hc. Qed.

Lemma write_same s v w signal :
  signals (graph w) !! s = Some signal ->
  strict_eq (value signal) (resolve v (value signal)) = true ->
  write s v w = w.
Proof. intros Hs He. unfold Core.write. by rewrite Hs, He. Qed.

Lemma write_other s v w signal :
  signals (graph w) !! s = Some signal ->
  strict_eq (value signal) (resolve v (value signal)) = false ->
  write s v w =
    snd (scheduleTask (Notify s) NORMAL
           (set_signals
              (<[s := {| value := resolve v (value signal);
                         subscribers := subscribers signal |}]>
                 (signals (graph w))) w)).
Proof. intros Hs He. unfold Core.write. by rewrite Hs, He. Qed.

Lemma createMemo_exec (a : nat) (g : Val -> Val)
    (k : nat -> Prog) (w : World) (source : SignalValue) :
  signals (graph w) !! a = Some source ->
  currentEffect (graph w) = None ->
  is_function (g (value source)) = false ->
  let m := List.length (signals (graph w)) in
  let e := List.length (effects (graph w)) in
  exists w',
    exec (createMemo (fun k => Read a (fun v => k (g v))) k) w = exec (k m) w' /\
    signals (graph w') =
      <[a := {| value := value source;
                subscribers := set_add e (subscribers source) |}]>
        (signals (graph w))
      ++ [{| value := g (value source); subscribers := [] |}] /\
    effects (graph w') =
      effects (graph w) ++ [Read a (fun v => Write m (g v) Return)] /\
    currentEffect (graph w') = None /\
    sched w' = sched w /\ host w' = host w /\
    executed (history w') = executed (history w) /\
    effectRuns (history w') = effectRuns (history w) ++ [e] /\
    output (history w') = output (history w).
Proof.
  intros Ha Hc Hg m e.
  assert (a < m) as La by (by eapply lookup_lt_Some).
  unfold createMemo. cbn [Core.exec].
  rewrite (read_outside a w source Ha Hc). cbn [Core.exec].
  unfold Core.createSignal at 1. cbv beta iota. fold m e.
  match goal with |- context [read a ?w0] => set (w1 := w0) end.
  rewrite (read_inside a w1 source e).
  2:{ unfold w1. simpl. by apply lookup_app_l_Some. }
  2:{ done. }
  cbn [Core.exec].
  match goal with |- context [write m _ ?w0] => set (w2 := w0) end.
  rewrite (write_same m (g (value source)) w2
             {| value := g (value source); subscribers := [] |}).
  2:{ unfold w2, w1. simpl. rewrite list_lookup_insert_ne by lia.
      rewrite lookup_app_r by done. by rewrite Nat.sub_diag. }
  2:{ simpl. rewrite resolve_value by done. apply strict_eq_refl. }
  cbn [Core.exec]. eexists. split; [reflexivity|].
  unfold w2, w1. simpl. split; [|done].
  rewrite insert_app_l by done. done.
Qed.

Lemma over_budget_fresh p w t :
  currentFrameDeadline (sched w) = (clock t + frameLength)%Z ->
  (forall n n', (clock n < clock n' + frameLength)%Z) ->
  over_budget clock p w = (false, snd (over_budget clock p w)).
Proof.
  intros Hd Hc. destruct p; [done|..]; unfold over_budget, performance_now;
    simpl; rewrite Hd; f_equal; apply Z.leb_gt, Hc.
Qed.

Lemma createMemo_follows (a : nat) (g : Val -> Val) (v : Val)
    (w : World) (source : SignalValue) (fuel : nat) :
  signals (graph w) !! a = Some source ->
  subscribers source = [] ->
  currentEffect (graph w) = None ->
  queued w = [] ->
  isScheduled (sched w) = false ->
  (forall x, is_function (g x) = false) ->
  strict_eq (value source) (resolve v (value source)) = false ->
  (forall n n', (clock n < clock n' + frameLength)%Z) ->
  2 <= fuel ->
  let m := List.length (signals (graph w)) in
  let w1 := snd (exec (createMemo (fun k => Read a (fun v => k (g v))) (fun _ => Return)) w) in
  let w2 := snd (processTaskQueue fuel (write a v w1)) in
  exists memo,
    signals (graph w2) !! m = Some memo /\
    strict_eq (value memo) (g (resolve v (value source))) = true /\
    queued w2 = [].
Proof.
  intros Ha Hsub Hc Hq Hsch Hg Hne Hclk Hfuel m w1 w2.
  apply app_eq_nil in Hq as [HqH Hq]. apply app_eq_nil in Hq as [HqN HqL].
  destruct fuel as [|[|fuel]]; [lia..|].
  set (e := List.length (effects (graph w))).
  set (body := Read a (fun v => Write m (g v) Return)).
  set (new := resolve v (value source)).
  assert (a < m) as La by (by eapply lookup_lt_Some).
  destruct (createMemo_exec a g (fun _ => Return) w source Ha Hc
              (Hg _)) as (w' & Ew & Hsig & Heff & Hcur & Hs & Hh & _).
  fold m e body in Hsig, Heff.
  assert (w1 = w') as -> by (unfold w1; by rewrite Ew).
  rewrite Hsub in Hsig. cbn [set_add existsb app] in Hsig.
  assert (signals (graph w') !! a
          = Some {| value := value source; subscribers := [e] |}) as Ha'.
  { rewrite Hsig. apply lookup_app_l_Some, list_lookup_insert_eq. done. }
  assert (write a v w' = _) as Ew2 by (by apply (write_other a v w' _ Ha')).
  cbn [value subscribers] in Ew2. fold new in Ew2.
  subst w2. rewrite Ew2. clear Ew2.
  match goal with |- context [scheduleTask (Notify a) NORMAL ?w0] =>
    set (ws := w0) end.
  assert (signals (graph ws) =
    <[a := {| value := new; subscribers := [e] |}]>
      (<[a := {| value := value source; subscribers := [e] |}]>
         (signals (graph w)))
    ++ [{| value := g (value source); subscribers := [] |}]) as Hsigs.
  { unfold ws. simpl. rewrite Hsig.
    by rewrite insert_app_l by (by rewrite length_insert). }
  pose proof (scheduleTask_graph clock (Notify a) NORMAL ws) as Eg.
  assert (forall q, queue q (snd (scheduleTask (Notify a) NORMAL ws)) =
     match q with
     | NORMAL => [{| id := nextTaskId (sched w); callback := Notify a;
                     priority := NORMAL |}]
     | _ => []
     end) as Eq.
  { intros q. rewrite scheduleTask_queue.
    replace (queue q ws) with (queue q w)
      by (unfold ws, queue; simpl; by rewrite Hs).
    destruct q; unfold priority_eqb; cbn [priority_index Nat.eqb];
      rewrite ?HqH, ?HqN, ?HqL; try done.
    unfold ws. simpl. by rewrite Hs. }
  assert (currentFrameDeadline (sched (snd (scheduleTask (Notify a) NORMAL ws)))
          = (clock (ticks (host w)) + frameLength)%Z) as Ed.
  { unfold Core.scheduleTask, ws. simpl. rewrite Hs, Hsch. simpl. by rewrite Hh. }
  destruct (scheduleTask (Notify a) NORMAL ws) as [tid wa]. simpl in Eg, Eq, Ed.
  unfold Core.processTaskQueue, performance_now. cbv beta iota.
  match goal with |- context [run_queue _ HIGH ?w0] => set (wb := w0) end.
  assert (forall q, queue q wb = queue q wa) as Eqb by done.
  rewrite run_queue_empty by (by rewrite Eqb, Eq).
  rewrite (run_queue_step clock apply_fn NORMAL _ wb _ [])
    by (by rewrite Eqb, Eq).
  rewrite (over_budget_fresh NORMAL wb (ticks (host w))) by done.
  destruct (over_budget_same clock NORMAL wb) as (Es3 & Eh3 & Eg3).
  set (wc := snd (over_budget clock NORMAL wb)) in *.
  cbv beta iota zeta.
  match goal with |- context [invoke _ ?w0] => set (wd := w0) end.
  assert (graph wd = graph ws) as Egd.
  { unfold wd. simpl. rewrite ?Eg3. simpl. exact Eg. }
  assert (forall q, queue q wd = []) as Eqd.
  { intros q. unfold wd, queue. simpl. rewrite ?Es3. simpl.
    specialize (Eq q). unfold queue in Eq. destruct q; simpl; done. }
  assert (isScheduled (sched wd) = false) as Esd.
  { unfold wd. simpl. by rewrite ?Es3. }
  cbn [Core.invoke callback]. rewrite Egd, Hsigs.
  rewrite (lookup_app_l_Some _ _ a {| value := new; subscribers := [e] |})
    by (apply list_lookup_insert_eq; by rewrite length_insert).
  cbn [subscribers Core.run_subscribers].
  set (we := set_currentEffect (Some e) (record_effect e wd)).
  set (wf := set_signals
               (<[a := {| value := new; subscribers := [e] |}]>
                  (signals (graph we))) we).
  assert (signals (graph we) = signals (graph ws)) as Hswe
    by (rewrite <-Egd; done).
  assert (read a we = (new, wf)) as Er.
  { rewrite (read_inside a we {| value := new; subscribers := [e] |} e);
      [|rewrite Hswe, Hsigs;
        apply lookup_app_l_Some, list_lookup_insert_eq;
        by rewrite length_insert|done].
    unfold set_add. simpl. by rewrite Nat.eqb_refl. }
  assert (signals (graph wf) !! m
          = Some {| value := g (value source); subscribers := [] |}) as Hm.
  { unfold wf. cbn [graph set_signals with_graph signals]. rewrite Hswe, Hsigs.
    rewrite list_lookup_insert_ne by lia.
    rewrite lookup_app_r by (by rewrite !length_insert).
    by rewrite !length_insert, Nat.sub_diag. }
  assert (forall q, queue q wf = []) as Eqf.
  { intros q. rewrite <-(Eqd q). done. }
  assert (run_effect e wd
          = (Normal, set_currentEffect None (write m (g new) wf))) as Erun.
  { unfold Core.run_effect. rewrite Egd. unfold ws at 1. simpl effects.
    rewrite Heff, lookup_app_r by done. fold e. rewrite Nat.sub_diag.
    cbn [lookup list_lookup]. unfold body at 1. cbn [Core.exec].
    fold we. rewrite Er. by cbn [Core.exec]. }
  rewrite Erun. clear Erun.
  destruct (strict_eq (g (value source)) (g new)) eqn:Hsame.
  - rewrite (write_same m (g new) wf _ Hm)
      by (simpl; by rewrite resolve_value).
    assert (forall q, queue q (set_currentEffect None wf) = []) as Eqn
      by (intros q; by rewrite <-(Eqf q)).
    rewrite !run_queue_empty by apply Eqn.
    cbn [snd]. eexists. split; [exact Hm|]. split; [exact Hsame|].
    unfold queued. by rewrite !Eqn.
  - rewrite (write_other m (g new) wf _ Hm)
      by (simpl; by rewrite resolve_value).
    cbn [value subscribers]. rewrite resolve_value by done.
    match goal with |- context [scheduleTask (Notify m) NORMAL ?w0] =>
      set (wg := w0) end.
    pose proof (scheduleTask_graph clock (Notify m) NORMAL wg) as Egh.
    assert (forall q, queue q (snd (scheduleTask (Notify m) NORMAL wg)) =
       match q with
       | NORMAL => [{| id := nextTaskId (sched wg); callback := Notify m;
                       priority := NORMAL |}]
       | _ => []
       end) as Eqh.
    { intros q. rewrite scheduleTask_queue.
      replace (queue q wg) with (@nil Task) by (by rewrite <-(Eqf q)).
      by destruct q. }
    assert (currentFrameDeadline (sched (snd (scheduleTask (Notify m) NORMAL wg)))
            = (clock (ticks (host wg)) + frameLength)%Z) as Edh.
    { unfold Core.scheduleTask. simpl.
      replace (isScheduled (sched wg)) with false by (by rewrite <-Esd).
      done. }
    destruct (scheduleTask (Notify m) NORMAL wg) as [tid2 wh].
    simpl in Egh, Eqh, Edh. cbn [snd].
    match goal with |- context [run_queue _ NORMAL ?w0] => set (wi := w0) end.
    assert (forall q, queue q wi = queue q wh) as Eqi by done.
    rewrite (run_queue_step clock apply_fn NORMAL _ wi _ [])
      by (by rewrite Eqi, Eqh).
    rewrite (over_budget_fresh NORMAL wi (ticks (host wg))) by done.
    destruct (over_budget_same clock NORMAL wi) as (Es5 & Eh5 & Eg5).
    set (wj := snd (over_budget clock NORMAL wi)) in *.
    cbv beta iota zeta.
    match goal with |- context [invoke _ ?w0] => set (wk := w0) end.
    assert (signals (graph wk) !! m
            = Some {| value := g new; subscribers := [] |}) as Hmk.
    { unfold wk. simpl. rewrite ?Eg5. simpl. rewrite Egh. unfold wg. simpl.
      apply list_lookup_insert_eq. by eapply lookup_lt_Some. }
    assert (forall q, queue q wk = []) as Eqk.
    { intros q. unfold wk, queue. simpl. rewrite ?Es5. simpl.
      specialize (Eqh q). unfold queue in Eqh. destruct q; simpl; done. }
    cbn [Core.invoke callback]. rewrite Hmk. cbn [subscribers Core.run_subscribers].
    rewrite !run_queue_empty by apply Eqk.
    simpl. eexists. split; [exact Hmk|]. split; [apply strict_eq_refl|].
    unfold queued. by rewrite !Eqk.
Qed.

Lemma is_function_of_primitive p : is_function (of_primitive p) = false.
Proof. by destruct p. Qed.

(** X13. [createMemo(() => g(source()))], for a pure [g] whose results
    are primitive values ([undefined], [null], booleans, integers,
    strings), called outside any effect: the new signal handed back holds
    [g] of the source's value, the memo's effect has run once and is a
    subscriber of the source; the second result of [g] being identical to
    the first, nothing is written and no task is scheduled. *)
Theorem memo_holds_the_derived_value (a : nat) (g : Val -> Primitive)
    (k : nat -> Prog) (w : World) (source : SignalValue) :
  signals (graph w) !! a = Some source ->
  currentEffect (graph w) = None ->
  let m := List.length (signals (graph w)) in
  let e := List.length (effects (graph w)) in
  exists w',
    exec (createMemo (derived a g) k) w = exec (k m) w' /\
    signals (graph w') =
      <[a := {| value := value source;
                subscribers := set_add e (subscribers source) |}]>
        (signals (graph w))
      ++ [{| value := of_primitive (g (value source)); subscribers := [] |}] /\
    effects (graph w') =
      effects (graph w) ++ [derived a g (fun v => Write m v Return)] /\
    currentEffect (graph w') = None /\
    sched w' = sched w /\ host w' = host w /\
    executed (history w') = executed (history w) /\
    effectRuns (history w') = effectRuns (history w) ++ [e] /\
    output (history w') = output (history w).
Proof.
  intros Ha Hc.
  apply (createMemo_exec a (fun v => of_primitive (g v)) k w source Ha Hc).
  apply is_function_of_primitive.
Qed.

(** X14. A memo over a source that has no other subscriber follows the
    source.  [createMemo(() => g(source()))], for a pure [g] whose
    results are primitive values, is called outside any effect, while
    nothing is queued and no drain is pending; then comes a write that
    changes the source, and the drain, which stays within the frame
    budget: after it the memo's signal holds [g] of the new value and the
    queues are empty again. *)
Theorem memo_follows_its_source (a : nat) (g : Val -> Primitive) (v : Val)
    (w : World) (source : SignalValue) (fuel : nat) :
  signals (graph w) !! a = Some source ->
  subscribers source = [] ->
  currentEffect (graph w) = None ->
  queued w = [] ->
  isScheduled (sched w) = false ->
  strict_eq (value source) (resolve v (value source)) = false ->
  (forall n n', (clock n < clock n' + frameLength)%Z) ->
  2 <= fuel ->
  let m := List.length (signals (graph w)) in
  let w1 := snd (exec (createMemo (derived a g) (fun _ => Return)) w) in
  let w2 := snd (processTaskQueue fuel (write a v w1)) in
  exists memo,
    signals (graph w2) !! m = Some memo /\
    strict_eq (value memo) (of_primitive (g (resolve v (value source)))) = true /\
    queued w2 = [].
Proof.
  intros Ha Hsub Hc Hq Hsch Hne Hclk Hfuel.
  apply (createMemo_follows a (fun x => of_primitive (g x)) v w source fuel);
    try done.
  intros x. apply is_function_of_primitive.
Qed.

End Facts.

(** ** Evaluations *)

Lemma read_returns_last_write_witness :
  strict_eq
    (fst (read 0 (write still identity_fn 0 (VNum 5)
                    (snd (createSignal (VNum 0) initial)))))
    (VNum 5) = true.
Proof.
  exact (proj1 (read_returns_last_write still identity_fn 0 (VNum 5)
                 (snd (createSignal (VNum 0) initial))
                 {| value := VNum 0; subscribers := [] |} eq_refl)).
Defined.

Lemma effect_subscribes_to_the_signal_it_reads_witness :
  subscribed 0 0
    (snd (createEffect still identity_fn (Read 0 (fun c => Print c Return))
            (snd (createSignal (VNum 0) initial)))).
Proof.
  destruct (effect_subscribes_to_the_signal_it_reads still identity_fn 0
              (fun c => Print c Return) (snd (createSignal (VNum 0) initial))
              {| value := VNum 0; subscribers := [] |} eq_refl) as [_ [_ H]].
  exact H.
Defined.

Lemma throwing_subscriber_ends_the_notification_witness :
  fst (invoke still identity_fn (Notify 0) three_subscribers)
    = Threw (VStr "boom") /\
  effectRuns (history (snd (invoke still identity_fn (Notify 0)
                              three_subscribers)))
    = effectRuns (history three_subscribers) ++ [0; 1].
Proof.
  apply (throwing_subscriber_ends_the_notification still identity_fn 0 1 [0] [2]
           (Read 0 (fun _ => Throw (VStr "boom"))) (VStr "boom")
           three_subscribers {| value := VNum 0; subscribers := [0; 1; 2] |}).
  - reflexivity.
  - reflexivity.
  - constructor; [|constructor]. eexists. split; [reflexivity|].
    simpl. intros v. reflexivity.
  - reflexivity.
  - simpl. intros v. reflexivity.
Defined.

Lemma drain_notifies_every_subscriber_witness :
  let w := snd (exec still identity_fn counter_example initial) in
  let w' := snd (processTaskQueue still identity_fn 1
                   (write still identity_fn 0 (VNum 1) w)) in
  effectRuns (history w') = [0; 0] /\
  value <$> signals (graph w') !! 0 = Some (VNum 1) /\
  queued w' = [] /\
  errors (host w') = [].
Proof.
  apply (drain_notifies_every_subscriber still identity_fn 0 (VNum 1)
           (snd (exec still identity_fn counter_example initial))
           {| value := VNum 0; subscribers := [0] |} 1).
  - reflexivity.
  - reflexivity.
  - constructor; [|constructor]. eexists. split; [reflexivity|].
    simpl. intros v. reflexivity.
  - reflexivity.
  - reflexivity.
  - reflexivity.
  - lia.
Defined.

Lemma nested_effect_ends_the_tracking_witness :
  signals (graph (snd (run_effect still identity_fn 0
                         (snd (exec still identity_fn nested_example initial)))))
    !! 0
  = Some {| value := VNum 0; subscribers := [] |}.
Proof.
  apply (nested_effect_ends_the_tracking still identity_fn 0 0
           (Print (VStr "inner") Return)
           (snd (exec still identity_fn nested_example initial))
           {| value := VNum 0; subscribers := [] |});
    reflexivity.
Defined.

Lemma memo_holds_the_derived_value_witness :
  exists w',
    exec still identity_fn (createMemo (derived 0 double) (fun _ => Return))
      (snd (createSignal (VNum 1) initial)) = (Normal, w') /\
    map value (signals (graph w')) = [VNum 1; VNum 2].
Proof.
  destruct (memo_holds_the_derived_value still identity_fn 0 double
              (fun _ => Return) (snd (createSignal (VNum 1) initial))
              {| value := VNum 1; subscribers := [] |})
    as (w' & E & Hs & _); [reflexivity..|].
  exists w'. split; [exact E|]. rewrite Hs. reflexivity.
Defined.

Lemma memo_follows_its_source_witness :
  exists memo,
    signals (graph (snd (processTaskQueue still identity_fn 2
      (write still identity_fn 0 (VNum 5)
         (snd (exec still identity_fn
                 (createMemo (derived 0 double) (fun _ => Return))
                 (snd (createSignal (VNum 1) initial)))))))) !! 1
      = Some memo /\
    strict_eq (value memo) (VNum 10) = true.
Proof.
  destruct (memo_follows_its_source still identity_fn 0 double (VNum 5)
              (snd (createSignal (VNum 1) initial))
              {| value := VNum 1; subscribers := [] |} 2)
    as (memo & Hm & Hv & _).
  - reflexivity.
  - reflexivity.
  - reflexivity.
  - reflexivity.
  - reflexivity.
  - reflexivity.
  - intros n n'. reflexivity.
  - lia.
  - exists memo. split; [exact Hm|exact Hv].
Defined.

End ReactivityFacts.

Module StoreFacts.
Import Core Store CoreFacts ReactivityFacts.

#[local] Arguments Core.read : simpl never.
#[local] Arguments Core.write : simpl never.
#[local] Arguments Core.createSignal : simpl never.

Lemma state_get_set key k signal state :
  state_get key (state_set k signal state)
    = if String.eqb k key then Some signal else state_get key state.
Proof.
  induction state as [|[k' s'] state IH]; simpl.
  - done.
  - destruct (String.eqb_spec k' k) as [->|Hne]; simpl.
    + by destruct (String.eqb k key).
    + rewrite IH. destruct (String.eqb_spec k' key) as [->|Hne']; [|done].
      destruct (String.eqb_spec k key) as [->|_]; done.
Qed.

Lemma entry_in key entries v :
  entry key entries = Some v -> key ∈ fst <$> entries.
Proof.
  induction entries as [|[k' v'] entries IH]; simpl; [done|].
  destruct (String.eqb_spec k' key) as [->|_]; [intros _; left|].
  intros H. right. by apply IH.
Qed.

(** Every key of the state has a signal of its own, created already. *)
Lemma allotted_set key state w v :
  allotted state w ->
  allotted (state_set key (List.length (signals (graph w))) state)
    (snd (createSignal v w)).
Proof.
  intros [Hinj Hb]. split.
  - intros k1 k2 s. rewrite !state_get_set.
    destruct (String.eqb_spec key k1) as [<-|H1], (String.eqb_spec key k2) as [<-|H2];
      try done.
    + intros [= <-] H. apply Hb in H. lia.
    + intros H [= <-]. apply Hb in H. lia.
    + apply Hinj.
  - intros k s. rewrite state_get_set. unfold createSignal. simpl.
    rewrite length_app. simpl.
    destruct (String.eqb key k); [intros [= <-]; lia|].
    intros H. apply Hb in H. lia.
Qed.

Lemma create_state_spec entries : forall state w,
  allotted state w ->
  let r := create_state entries state w in
  allotted (fst r) (snd r) /\
  (forall s signal, signals (graph w) !! s = Some signal ->
     signals (graph (snd r)) !! s = Some signal) /\
  (forall key,
     match entry key entries with
     | Some _ => True
     | None => state_get key (fst r) = state_get key state
     end) /\
  (forall key, key ∈ fst <$> entries -> exists s, state_get key (fst r) = Some s) /\
  sched (snd r) = sched w /\ host (snd r) = host w /\
  history (snd r) = history w /\
  currentEffect (graph (snd r)) = currentEffect (graph w).
Proof.
  induction entries as [|[k v] entries IH]; intros state w Ha;
    cbn [create_state].
  - simpl. repeat split; try done; try apply Ha. by intros key ?%elem_of_nil.
  - change (createSignal v w)
      with (List.length (signals (graph w)), snd (createSignal v w)).
    cbv beta iota zeta.
    match goal with |- context [create_state entries ?st ?w0] =>
      destruct (IH st w0) as (Ha' & Hpre & Hkeep & Hkeys & Es & Eh & Ehi & Ec) end.
    { by apply allotted_set. }
    split; [exact Ha'|]. split; [|split; [|split]].
    + intros s signal Hs. apply Hpre. simpl. by apply lookup_app_l_Some.
    + intros key. specialize (Hkeep key). cbn [entry].
      destruct (String.eqb_spec k key) as [->|Hne]; [exact I|].
      destruct (entry key entries); [done|].
      rewrite Hkeep, state_get_set.
      by destruct (String.eqb_spec k key).
    + intros key Hin. rewrite fmap_cons in Hin. cbn [fst] in Hin.
      apply elem_of_cons in Hin as [->|Hin]; [|by apply Hkeys].
      specialize (Hkeep k).
      destruct (entry k entries) as [v'|] eqn:Hk.
      { by eapply Hkeys, entry_in. }
      rewrite Hkeep, state_get_set, String.eqb_refl. by eexists.
    + by rewrite Es, Eh, Ehi, Ec.
Qed.

Lemma entry_None key entries :
  key ∉ fst <$> entries -> entry key entries = None.
Proof.
  induction entries as [|[k' v'] entries IH]; simpl; [done|].
  rewrite not_elem_of_cons. intros [Hne Hnin].
  destruct (String.eqb_spec k' key); [done|]. by apply IH.
Qed.

Lemma allotted_nil w : allotted [] w.
Proof. by split. Qed.

Lemma create_state_value entries : forall state w key v,
  allotted state w ->
  NoDup (fst <$> entries) ->
  entry key entries = Some v ->
  let r := create_state entries state w in
  exists s,
    state_get key (fst r) = Some s /\
    signals (graph (snd r)) !! s = Some {| value := v; subscribers := [] |}.
Proof.
  induction entries as [|[k v0] entries IH]; intros state w key v Ha Hd He;
    [done|].
  cbn [create_state].
  change (createSignal v0 w)
    with (List.length (signals (graph w)), snd (createSignal v0 w)).
  cbv beta iota zeta.
  rewrite fmap_cons in Hd. apply NoDup_cons in Hd as [Hnin Hd].
  pose proof (allotted_set k state w v0 Ha) as Ha0.
  cbn [entry] in He. destruct (String.eqb_spec k key) as [->|Hne].
  - injection He as ->.
    destruct (create_state_spec entries _ _ Ha0) as (_ & Hpre & Hkeep & _).
    specialize (Hkeep key). rewrite (entry_None key entries Hnin) in Hkeep.
    exists (List.length (signals (graph w))). split.
    + by rewrite Hkeep, state_get_set, String.eqb_refl.
    + apply Hpre. unfold createSignal. simpl.
      rewrite lookup_app_r by done. by rewrite Nat.sub_diag.
  - by apply IH.
Qed.

(** X15. Right after [createStore(initialState)], [getState(key)] returns
    [initialState[key]] for every key of the initial state, and throws a
    [TypeError] for any other key. *)
Theorem store_holds_its_initial_state
    (initialState : list (string * Val)) (key : string) (w : World) :
  NoDup (fst <$> initialState) ->
  let r := createStore initialState w in
  fst (getState (fst r) key (snd r)) =
    match entry key initialState with
    | Some v => Returned v
    | None => ThrewTypeError
    end.
Proof.
  intros Hd r. subst r. unfold getState, createStore.
  destruct (entry key initialState) as [v|] eqn:He.
  - destruct (create_state_value initialState [] w key v (allotted_nil w) Hd He)
      as (s & -> & Hs).
    unfold Core.read. rewrite Hs.
    by destruct (currentEffect (graph _)).
  - destruct (create_state_spec initialState [] w (allotted_nil w))
      as (_ & _ & Hkeep & _).
    specialize (Hkeep key). rewrite He in Hkeep. by rewrite Hkeep.
Qed.

Section Facts.

Variable clock : nat -> Z.
Variable apply_fn : nat -> Val -> Val.

(** X16. For a key of the initial state, in any later world:
    [setState(key, value)] returns normally, [getState(key)] then returns
    the resolved value, and for every other key [getState] returns what it
    returned before. *)
Theorem store_set_then_get
    (initialState : list (string * Val)) (w0 : World) (key : string)
    (value : Val) (w : World) :
  let r := createStore initialState w0 in
  let state := fst r in
  let w' := snd (setState clock apply_fn state key value w) in
  key ∈ fst <$> initialState ->
  List.length (signals (graph (snd r))) <= List.length (signals (graph w)) ->
  fst (setState clock apply_fn state key value w) = Returned tt /\
  (exists old new,
     fst (getState state key w) = Returned old /\
     fst (getState state key w') = Returned new /\
     strict_eq new (resolve apply_fn value old) = true) /\
  (forall key', key' <> key ->
     fst (getState state key' w') = fst (getState state key' w)).
Proof.
  intros r state w' Hin Hlen.
  destruct (create_state_spec initialState [] w0 (allotted_nil w0))
    as ([Hinj Hb] & _ & _ & Hkeys & _).
  fold (createStore initialState w0) in Hinj, Hb, Hkeys. fold r in Hinj, Hb, Hkeys.
  fold state in Hinj, Hb, Hkeys.
  destruct (Hkeys key Hin) as (s & Hk).
  destruct (lookup_lt_is_Some_2 (signals (graph w)) s) as (signal & Hs).
  { apply Hb in Hk. lia. }
  destruct (read_write clock apply_fn s value w signal Hs) as [Hrt Hfr].
  subst w'. unfold setState, getState. rewrite Hk. cbn [fst snd].
  split; [done|]. split.
  - exists (fst (read s w)), (fst (read s (write clock apply_fn s value w))).
    split; [by destruct (read s w)|]. split; [by destruct (read s _)|].
    replace (fst (read s w)) with (Core.value signal); [done|].
    unfold Core.read. rewrite Hs. by destruct (currentEffect (graph w)).
  - intros key' Hne. destruct (state_get key' state) as [s'|] eqn:Hk'; [|done].
    assert (s' <> s) as Hne' by (intros ->; by apply Hne, (Hinj key' key s)).
    specialize (Hfr s' Hne').
    destruct (read s' (write clock apply_fn s value w)), (read s' w).
    simpl in *. by rewrite Hfr.
Qed.

End Facts.

(** ** Evaluations *)

#[local] Open Scope string_scope.

Lemma store_holds_its_initial_state_witness :
  fst (getState (fst (createStore Examples.counter_state initial)) "count"
         (snd (createStore Examples.counter_state initial)))
    = Returned (VNum 0) /\
  fst (getState (fst (createStore Examples.counter_state initial)) "total"
         (snd (createStore Examples.counter_state initial)))
    = ThrewTypeError.
Proof.
  assert (NoDup (fst <$> Examples.counter_state)) as Hd.
  { repeat (apply NoDup_cons_2;
      [intros H; repeat (apply elem_of_cons in H as [H|H]; [discriminate H|]);
       by apply elem_of_nil in H|]).
    apply NoDup_nil_2. }
  split.
  - exact (store_holds_its_initial_state Examples.counter_state "count"
             initial Hd).
  - exact (store_holds_its_initial_state Examples.counter_state "total"
             initial Hd).
Defined.

Lemma store_set_then_get_witness :
  let state := fst (createStore Examples.counter_state initial) in
  let w := snd (createStore Examples.counter_state initial) in
  fst (getState state "name"
         (snd (setState still identity_fn state "count" (VNum 3) w)))
    = Returned (VStr "a").
Proof.
  destruct (store_set_then_get still identity_fn Examples.counter_state initial
              "count" (VNum 3) (snd (createStore Examples.counter_state initial)))
    as (_ & _ & Hother).
  - apply elem_of_cons. by left.
  - lia.
  - intros state w.
    refine (eq_trans (Hother "name" _) _); [discriminate|reflexivity].
Defined.

End StoreFacts.

Module DocumentFacts.
Import Dom Reconciler Render ReconcilerFacts.

(** ** The document, continued *)

Lemma structure_length pg : List.length (structure pg) = List.length (nodes pg).
Proof. unfold structure. apply length_fmap. Qed.

Lemma createTextNode_structure data pg :
  exists pg',
    createTextNode data pg = (Ok (List.length (nodes pg)), pg') /\
    structure pg' = structure pg ++ [(TextNode data, None, [])] /\
    mutations pg' = mutations pg ++ [CreateTextNode (List.length (nodes pg)) data] /\
    calls pg' = calls pg /\ layout pg' = layout pg /\
    attributes <$> nodes pg' = (attributes <$> nodes pg) ++ [[]].
Proof.
  eexists. split; [reflexivity|]. unfold structure. simpl.
  by rewrite !fmap_app.
Qed.

Lemma createElement_structure svg tag pg :
  valid_name tag = true ->
  exists pg',
    createElement svg tag pg = (Ok (List.length (nodes pg)), pg') /\
    structure pg' = structure pg ++ [(ElementNode svg tag, None, [])] /\
    mutations pg' = mutations pg ++ [CreateElement (List.length (nodes pg)) tag] /\
    calls pg' = calls pg /\ layout pg' = layout pg /\
    attributes <$> nodes pg' = (attributes <$> nodes pg) ++ [[]].
Proof.
  intros Hv. unfold createElement. rewrite Hv.
  eexists. split; [reflexivity|]. unfold structure. simpl.
  by rewrite !fmap_app.
Qed.

(** Appending a node that has no parent. *)
Lemma appendChild_orphan pg P c svg tag pP cs kc cc :
  structure pg !! P = Some (ElementNode svg tag, pP, cs) ->
  structure pg !! c = Some (kc, None, cc) ->
  P <> c ->
  exists pg',
    appendChild (Some P) c pg = (Ok tt, pg') /\
    structure pg' =
      <[c := (kc, Some P, cc)]>
        (<[P := (ElementNode svg tag, pP, cs ++ [c])]> (structure pg)) /\
    mutations pg' = mutations pg ++ [AppendChild P c] /\
    calls pg' = calls pg /\ layout pg' = layout pg /\
    attributes <$> nodes pg' = attributes <$> nodes pg.
Proof.
  intros HP Hc HPc.
  destruct (structure_lookup _ _ _ _ _ HP) as (ndP & EP & KP & PP & CP).
  destruct (structure_lookup _ _ _ _ _ Hc) as (ndc & Ec & Kc & Pc & Cc).
  assert (P < List.length (nodes pg)) as LP by (by eapply lookup_lt_Some).
  assert (c < List.length (nodes pg)) as Lc by (by eapply lookup_lt_Some).
  unfold appendChild, bind at 1. rewrite (get_ok _ _ _ EP).
  unfold is_element. rewrite KP.
  destruct (Nat.eqb_spec P c) as [|_]; [done|]. simpl.
  unfold adopt, detach, bind, put, log, ret. rewrite (get_ok _ _ _ Ec), Pc.
  rewrite (get_ok _ _ _ EP), (get_ok _ _ _ Ec). simpl.
  eexists. split; [reflexivity|]. split; [|split; [done|split; [done|split; [done|]]]].
  - unfold structure. simpl.
    rewrite !list_fmap_insert. unfold shape at 1 2. simpl.
    by rewrite Kc, Cc, KP, PP, CP.
  - cbn [nodes]. rewrite !list_fmap_insert. simpl.
    rewrite (list_insert_id (attributes <$> nodes pg) P)
      by (by rewrite list_lookup_fmap, EP).
    apply list_insert_id. by rewrite list_lookup_fmap, Ec.
Qed.

(** Removing a child from its parent. *)
Lemma removeChild_structure pg P c kP pP cs kc cc :
  structure pg !! P = Some (kP, pP, cs) ->
  structure pg !! c = Some (kc, Some P, cc) ->
  exists pg',
    removeChild (Some P) (Some c) pg = (Ok tt, pg') /\
    structure pg' =
      <[c := (kc, None, cc)]> (<[P := (kP, pP, remove_id c cs)]> (structure pg)) /\
    mutations pg' = mutations pg ++ [RemoveChild P c] /\
    calls pg' = calls pg /\ layout pg' = layout pg.
Proof.
  intros HP Hc.
  destruct (structure_lookup _ _ _ _ _ HP) as (ndP & EP & KP & PP & CP).
  destruct (structure_lookup _ _ _ _ _ Hc) as (ndc & Ec & Kc & Pc & Cc).
  unfold removeChild, bind at 1. rewrite (get_ok _ _ _ EP).
  unfold bind at 1. rewrite (get_ok _ _ _ Ec).
  unfold has_parent. rewrite Pc, Nat.eqb_refl.
  unfold detach, bind, put, log, ret. rewrite (get_ok _ _ _ Ec), Pc.
  rewrite (get_ok _ _ _ EP). simpl.
  eexists. split; [reflexivity|]. split; [|done].
  unfold structure. simpl.
  rewrite !list_fmap_insert. unfold shape at 1 2. simpl.
  by rewrite Kc, Cc, KP, PP, CP.
Qed.



Lemma detach_structure pg P c kP pP cs kc cc :
  structure pg !! P = Some (kP, pP, cs) ->
  structure pg !! c = Some (kc, Some P, cc) ->
  exists pg',
    detach c pg = (Ok tt, pg') /\
    structure pg' =
      <[c := (kc, None, cc)]> (<[P := (kP, pP, remove_id c cs)]> (structure pg)) /\
    mutations pg' = mutations pg /\
    calls pg' = calls pg /\ layout pg' = layout pg.
Proof.
  intros HP Hc.
  destruct (structure_lookup _ _ _ _ _ HP) as (ndP & EP & KP & PP & CP).
  destruct (structure_lookup _ _ _ _ _ Hc) as (ndc & Ec & Kc & Pc & Cc).
  unfold detach, bind, put, ret. rewrite (get_ok _ _ _ Ec), Pc.
  rewrite (get_ok _ _ _ EP). simpl.
  eexists. split; [reflexivity|]. split; [|done].
  unfold structure. simpl.
  rewrite !list_fmap_insert. unfold shape at 1 2. simpl.
  by rewrite Kc, Cc, KP, PP, CP.
Qed.

Lemma elem_of_remove_id x c l : x ∈ remove_id c l <-> x ∈ l /\ x <> c.
Proof.
  unfold remove_id. rewrite list_elem_of_In, filter_In, <-list_elem_of_In.
  rewrite negb_true_iff, Nat.eqb_neq. done.
Qed.

Lemma detach_all P kP pP l : forall pg cur,
  NoDup l -> P ∉ l ->
  structure pg !! P = Some (kP, pP, cur) ->
  (forall c, c ∈ l -> exists k cc, structure pg !! c = Some (k, Some P, cc)) ->
  exists pg' cur',
    for_each detach l pg = (Ok tt, pg') /\
    structure pg' !! P = Some (kP, pP, cur') /\
    (forall x, x ∈ cur' <-> x ∈ cur /\ x ∉ l) /\
    (forall c k cc, c ∈ l -> structure pg !! c = Some (k, Some P, cc) ->
       structure pg' !! c = Some (k, None, cc)) /\
    (forall i, i <> P -> i ∉ l -> structure pg' !! i = structure pg !! i) /\
    List.length (nodes pg') = List.length (nodes pg) /\
    mutations pg' = mutations pg /\ calls pg' = calls pg /\ layout pg' = layout pg.
Proof.
  induction l as [|c l IH]; intros pg cur Hd HP HsP Hl.
  - exists pg, cur. simpl. split; [done|]. split; [done|].
    split; [intros x; split; [intros ?; split; [done|by intros ?%elem_of_nil]|by intros []]|].
    split; [by intros c k cc ?%elem_of_nil|]. by repeat split.
  - apply NoDup_cons in Hd as [Hc Hd]. apply not_elem_of_cons in HP as [HPc HP].
    destruct (Hl c) as (k & cc & Hsc); [by left|].
    destruct (detach_structure pg P c kP pP cur k cc HsP Hsc)
      as (pg1 & E1 & S1 & M1 & C1 & L1).
    assert (P < List.length (structure pg)) as LP by (by eapply lookup_lt_Some).
    assert (c < List.length (structure pg)) as Lc by (by eapply lookup_lt_Some).
    destruct (IH pg1 (remove_id c cur) Hd HP)
      as (pg' & cur' & E & SP & Hcur & Hch & Hoth & Hlen & M & C & L).
    { rewrite S1, list_lookup_insert_ne, list_lookup_insert_eq by done. done. }
    { intros c' Hc'. destruct (Hl c') as (k' & cc' & Hsc'); [by right|].
      exists k', cc'. rewrite S1.
      rewrite !list_lookup_insert_ne; [done| |]; intros ->; done. }
    exists pg', cur'. cbn [for_each]. rewrite (bind_ok _ _ _ _ _ E1).
    split; [exact E|]. split; [exact SP|]. split; [|split; [|split; [|split]]].
    + intros x. rewrite Hcur, elem_of_remove_id, not_elem_of_cons. tauto.
    + intros c' k' cc' Hin Hs'. apply elem_of_cons in Hin as [->|Hin].
      * rewrite Hoth by done. rewrite S1, list_lookup_insert_eq.
        -- congruence.
        -- by rewrite length_insert.
      * apply Hch; [done|]. rewrite S1.
        rewrite !list_lookup_insert_ne; [done| |]; intros ->; done.
    + intros i Hi Hni. apply not_elem_of_cons in Hni as [Hic Hni].
      rewrite Hoth, S1 by done. by rewrite !list_lookup_insert_ne.
    + rewrite Hlen, <-!structure_length, S1. by rewrite !length_insert.
    + by rewrite M, C, L.
Qed.

Lemma clearChildren_structure pg P kP pP cs :
  structure pg !! P = Some (kP, pP, cs) ->
  NoDup cs -> P ∉ cs ->
  (forall c, c ∈ cs -> exists k cc, structure pg !! c = Some (k, Some P, cc)) ->
  exists pg',
    clearChildren (Some P) pg = (Ok tt, pg') /\
    structure pg' !! P = Some (kP, pP, []) /\
    (forall c k cc, c ∈ cs -> structure pg !! c = Some (k, Some P, cc) ->
       structure pg' !! c = Some (k, None, cc)) /\
    (forall i, i <> P -> i ∉ cs -> structure pg' !! i = structure pg !! i) /\
    List.length (nodes pg') = List.length (nodes pg) /\
    mutations pg' = mutations pg ++ [ClearChildren P] /\
    calls pg' = calls pg.
Proof.
  intros HP Hd HPc Hcs.
  destruct (detach_all P kP pP cs pg cs Hd HPc HP Hcs)
    as (pg1 & cur' & E & SP & Hcur & Hch & Hoth & Hlen & M & C & _).
  assert (cur' = []) as ->.
  { apply elem_of_nil_inv. intros x Hx. apply Hcur in Hx. tauto. }
  destruct (get_structure _ _ _ _ _ HP) as (nd & Hg & _ & _ & Hc).
  unfold clearChildren.
  eexists. unfold bind at 1. rewrite Hg, Hc.
  unfold bind at 1. rewrite E. unfold log. simpl.
  split; [reflexivity|]. unfold structure in *. simpl.
  split; [done|]. split; [done|]. split; [done|]. split; [done|].
  by rewrite M, C.
Qed.

Lemma primitive_child c :
  el_is_primitive c = true -> absent c = false /\ el_is_object c = false.
Proof. by destruct c as [| |[]]. Qed.

(** ** Attributes *)

Lemma attr_get_set name k v l :
  attr_get name (assoc_set k v l)
    = if String.eqb k name then Some v else attr_get name l.
Proof.
  induction l as [|[k' v'] l IH]; simpl; [done|].
  destruct (String.eqb_spec k' k) as [->|Hne]; simpl.
  - by destruct (String.eqb k name).
  - rewrite IH. destruct (String.eqb_spec k' name) as [->|]; [|done].
    by destruct (String.eqb_spec k name).
Qed.

Lemma attr_get_remove name k (l : list (string * string)) :
  attr_get name (assoc_remove k l)
    = if String.eqb k name then None else attr_get name l.
Proof.
  unfold assoc_remove. induction l as [|[k' v'] l IH]; simpl.
  - by destruct (String.eqb k name).
  - destruct (String.eqb_spec k' k) as [->|Hne]; simpl.
    + rewrite IH. by destruct (String.eqb k name).
    + rewrite IH. destruct (String.eqb_spec k' name) as [->|]; [|done].
      by destruct (String.eqb_spec k name).
Qed.

(** What a step of [updateDOMProps] does to the attributes of the element
    [n]: it returns normally, leaves the element at [n], and the
    attributes are those given by [f]. *)
Lemma alters_ret k n : alters k n (ret tt) (fun a => a).
Proof. intros pg nd Hn Hk He. by exists pg, nd. Qed.

Lemma is_element_kind nd nd' : kind nd' = kind nd -> is_element nd' = is_element nd.
Proof. unfold is_element. by intros ->. Qed.

Lemma alters_bind k n (m1 m2 : M unit) f1 f2 :
  alters k n m1 f1 -> alters k n m2 f2 ->
  alters k n (m1 ;; m2) (fun a => f2 (f1 a)).
Proof.
  intros H1 H2 pg nd Hn Hk He.
  destruct (H1 pg nd Hn Hk He) as (pg1 & nd1 & E1 & Hn1 & Hk1 & A1).
  destruct (H2 pg1 nd1 Hn1 Hk1) as (pg2 & nd2 & E2 & Hn2 & Hk2 & A2).
  { rewrite <-He. apply is_element_kind. congruence. }
  exists pg2, nd2. unfold bind. rewrite E1. by rewrite A2, A1.
Qed.

Lemma alters_for_each_id {A} k n (f : A -> M unit) l :
  (forall x, alters k n (f x) (fun a => a)) ->
  alters k n (for_each f l) (fun a => a).
Proof.
  intros Hf. induction l as [|x l IH]; simpl.
  - apply alters_ret.
  - by apply (alters_bind k n _ _ (fun a => a) (fun a => a)).
Qed.

Lemma alters_afterLayout k n ref node :
  alters k n (afterLayout_ref ref node) (fun a => a).
Proof.
  intros pg nd Hn Hk He. by exists (snd (afterLayout_ref ref node pg)), nd.
Qed.

Lemma alters_element_update k n (g : Node -> Node) (m : nat -> Mutation) f :
  (forall nd, kind (g nd) = kind nd) ->
  (forall nd, kind nd = k -> attributes (g nd) = f (attributes nd)) ->
  alters k n ('(i, nd) <- get_element (Some n) ;; put i (g nd) ;; log (m i)) f.
Proof.
  intros Hg Hf pg nd Hn Hk He.
  eexists _, (g nd). unfold bind, get_element, bind, get. rewrite Hn, He.
  simpl. split; [done|]. split.
  - apply list_lookup_insert_eq. by eapply lookup_lt_Some.
  - by rewrite Hg, Hf.
Qed.

Lemma alters_setAttribute k n name value :
  valid_attribute_name name = true ->
  alters k n (setAttribute (Some n) name value)
    (assoc_set (attribute_name k name) value).
Proof.
  intros Hv. unfold setAttribute. rewrite Hv.
  apply (alters_element_update k n (fun nd => with_attributes _ nd)); [done|].
  by intros nd ->.
Qed.

Lemma alters_removeAttribute k n name :
  alters k n (removeAttribute (Some n) name)
    (assoc_remove (attribute_name k name)).
Proof.
  apply (alters_element_update k n (fun nd => with_attributes _ nd)); [done|].
  by intros nd ->.
Qed.

Lemma alters_setStyle k n property value :
  alters k n (setStyle (Some n) property value) (fun a => a).
Proof. by apply (alters_element_update k n (fun nd => with_style _ nd)). Qed.

Lemma alters_addEventListener k n event listener :
  alters k n (addEventListener (Some n) event listener) (fun a => a).
Proof.
  intros pg nd Hn Hk He. unfold addEventListener, bind, get. rewrite Hn.
  destruct (nullish listener || existsb _ (listeners nd)); simpl.
  - eexists _, nd. split; [done|]. by split.
  - eexists _, _. split; [done|]. split.
    + apply list_lookup_insert_eq. by eapply lookup_lt_Some.
    + split; [exact Hk|done].
Qed.

Lemma alters_removeEventListener k n event listener :
  alters k n (removeEventListener (Some n) event listener) (fun a => a).
Proof.
  intros pg nd Hn Hk He. unfold removeEventListener, bind, get. rewrite Hn.
  simpl. eexists _, _. split; [done|]. split.
  - apply list_lookup_insert_eq. by eapply lookup_lt_Some.
  - split; [exact Hk|done].
Qed.

(** One prop name: the attributes of other names stay, the attribute of a
    plain prop becomes what its new value stands for, and a special prop
    changes nothing. *)
Lemma update_prop_alters k n oldProps newProps name :
  well_named newProps ->
  exists f,
    alters k n (update_prop (Some n) oldProps newProps name) f /\
    (forall x a, x <> attribute_name k name -> attr_get x (f a) = attr_get x a) /\
    (special_prop name = true -> forall a, f a = a) /\
    (plain_prop name (lookup_prop name newProps) = true ->
     forall a, attr_get (attribute_name k name) (f a)
               = attribute_of (lookup_prop name newProps)).
Proof.
  intros Hw. unfold update_prop, plain_prop, attribute_of.
  destruct (special_prop name) eqn:Hsp.
  { exists (fun a => a). split; [apply alters_ret|]. by repeat split. }
  pose proof (lookup_prop_valid name newProps Hw) as Hvalid.
  set (v := lookup_prop name newProps) in *.
  destruct (nullish v || strict_eq v (VBool false)) eqn:Hnull.
  { destruct (starts_with_on name) eqn:Hon.
    - exists (fun a => a). split; [apply alters_removeEventListener|].
      by repeat split.
    - exists (assoc_remove (attribute_name k name)).
      split; [apply alters_removeAttribute|].
      split; [|split; [done|]].
      + intros x a Hx. rewrite attr_get_remove.
        by destruct (String.eqb_spec (attribute_name k name) x).
      + intros _ a. by rewrite attr_get_remove, String.eqb_refl. }
  apply orb_false_elim in Hnull as [Hnull _]. specialize (Hvalid Hnull).
  destruct (String.eqb name "style" && is_object v) eqn:Hst.
  { exists (fun a => a). split; [|split; [done|split; [done|]]].
    - destruct v; try apply alters_ret.
      apply alters_for_each_id. intros kv. apply alters_setStyle.
    - by rewrite andb_false_r. }
  destruct (starts_with_on name && is_function v) eqn:Hev.
  { exists (fun a => a). split; [|split; [done|split; [done|]]].
    - apply (alters_bind k n _ _ (fun a => a) (fun a => a));
        [|apply alters_addEventListener].
      destruct (truthy _); [apply alters_removeEventListener|apply alters_ret].
    - apply andb_prop in Hev as [-> _]. done. }
  destruct (is_boolean v && truthy v).
  - exists (assoc_set (attribute_name k name) EmptyString).
    split; [by apply alters_setAttribute|].
    split; [|split; [done|]].
    + intros x a Hx. rewrite attr_get_set.
      by destruct (String.eqb_spec (attribute_name k name) x).
    + intros _ a. by rewrite attr_get_set, String.eqb_refl.
  - exists (assoc_set (attribute_name k name) (to_string v)).
    split; [by apply alters_setAttribute|].
    split; [|split; [done|]].
    + intros x a Hx. rewrite attr_get_set.
      by destruct (String.eqb_spec (attribute_name k name) x).
    + intros _ a. by rewrite attr_get_set, String.eqb_refl.
Qed.

Lemma update_props_alters k n oldProps newProps names :
  well_named newProps ->
  NoDup (attribute_name k <$> names) ->
  exists f,
    alters k n (for_each (update_prop (Some n) oldProps newProps) names) f /\
    (forall x a,
       (forall name, name ∈ names -> special_prop name = false ->
          attribute_name k name <> x) ->
       attr_get x (f a) = attr_get x a) /\
    (forall name a, name ∈ names ->
       plain_prop name (lookup_prop name newProps) = true ->
       attr_get (attribute_name k name) (f a)
         = attribute_of (lookup_prop name newProps)).
Proof.
  intros Hw. induction names as [|name names IH]; intros Hd; simpl.
  - exists (fun a => a). split; [apply alters_ret|].
    split; [done|]. by intros x a ?%elem_of_nil.
  - rewrite fmap_cons in Hd. apply NoDup_cons in Hd as [Hnin Hd].
    destruct (IH Hd) as (f2 & Ha2 & Ho2 & Hp2).
    destruct (update_prop_alters k n oldProps newProps name Hw)
      as (f1 & Ha1 & Ho1 & Hs1 & Hp1).
    exists (fun a => f2 (f1 a)). split; [by apply alters_bind|]. split.
    + intros x a Hx. rewrite Ho2.
      * destruct (special_prop name) eqn:Hsp; [by rewrite Hs1|].
        apply Ho1. intros ->. by apply (Hx name); [left|..].
      * intros name' Hin. apply Hx. by right.
    + intros x a Hx Hpl. apply elem_of_cons in Hx as [->|Hx].
      * rewrite Ho2; [by apply Hp1|].
        intros name' Hin _ E. apply Hnin. rewrite <-E.
        by apply list_elem_of_fmap_2.
      * by apply Hp2.
Qed.

Lemma dedup_spec l : forall seen,
  NoDup (dedup l seen) /\
  (forall x, x ∈ dedup l seen <-> x ∈ l /\ x ∉ seen).
Proof.
  induction l as [|y l IH]; intros seen; simpl.
  - split; [constructor|]. intros x. split; [by intros ?%elem_of_nil|].
    by intros [?%elem_of_nil _].
  - destruct (existsb (String.eqb y) seen) eqn:E.
    + destruct (IH seen) as [Hd Hx]. split; [done|].
      intros x. rewrite Hx, elem_of_cons. split; [tauto|].
      intros [[->|Hin] Hns]; [|done]. exfalso. apply Hns.
      apply existsb_exists in E as (z & Hz & Hyz).
      apply String.eqb_eq in Hyz as ->. by apply list_elem_of_In.
    + destruct (IH (y :: seen)) as [Hd Hx]. split.
      * apply NoDup_cons. split; [|done]. rewrite Hx.
        intros [_ Hn]. apply Hn. by left.
      * intros x. rewrite !elem_of_cons, Hx, not_elem_of_cons.
        split.
        -- intros [->|[Hin [Hne Hns]]]; [|tauto]. split; [by left|].
           intros Hin. apply list_elem_of_In in Hin.
           assert (existsb (String.eqb y) seen = true) as Ht; [|congruence].
           apply existsb_exists. exists y. split; [done|apply String.eqb_refl].
        -- intros [[->|Hin] Hns]; [by left|].
           destruct (String.eqb_spec x y) as [->|Hne]; [by left|]. right. done.
Qed.

(** The names of the union, each once. *)
Lemma dedup_names l :
  NoDup (dedup l []) /\ (forall x, x ∈ dedup l [] <-> x ∈ l).
Proof.
  destruct (dedup_spec l []) as [Hd Hin]. split; [done|].
  intros x. rewrite Hin. split; [tauto|]. intros H. split; [done|].
  by intros ?%elem_of_nil.
Qed.

Lemma updateDOMProps_attributes n oldProps newProps pg nd :
  nodes pg !! n = Some nd ->
  is_element nd = true ->
  well_named newProps ->
  distinct_attributes (kind nd) (map fst oldProps ++ map fst newProps) ->
  exists pg' nd',
    updateDOMProps (Some n) oldProps newProps pg = (Ok tt, pg') /\
    nodes pg' !! n = Some nd' /\
    kind nd' = kind nd /\
    (forall name,
       name ∈ map fst oldProps ++ map fst newProps ->
       plain_prop name (lookup_prop name newProps) = true ->
       attr_get (attribute_name (kind nd) name) (attributes nd')
         = attribute_of (lookup_prop name newProps)) /\
    (forall x,
       (forall name, name ∈ map fst oldProps ++ map fst newProps ->
          special_prop name = false -> attribute_name (kind nd) name <> x) ->
       attr_get x (attributes nd') = attr_get x (attributes nd)).
Proof.
  intros Hn He Hw Hinj. unfold updateDOMProps.
  set (names := dedup (map fst oldProps ++ map fst newProps) []).
  destruct (dedup_names (map fst oldProps ++ map fst newProps)) as [Hd Hin].
  fold names in Hd, Hin.
  assert (NoDup (attribute_name (kind nd) <$> names)) as Hd'.
  { apply NoDup_fmap_2_strong; [|done].
    intros x y Hx Hy. apply Hinj; by apply Hin. }
  destruct (update_props_alters (kind nd) n oldProps newProps names Hw Hd')
    as (f & Ha & Ho & Hp).
  assert (alters (kind nd) n
    (for_each (update_prop (Some n) oldProps newProps) names ;;
     (if truthy (lookup_prop "ref" newProps)
         && is_function (lookup_prop "ref" newProps)
      then afterLayout_ref (lookup_prop "ref" newProps) (Some n)
      else ret tt)) f) as Hall.
  { apply (alters_bind _ n _ _ f (fun a => a)); [done|].
    destruct (_ && _); [apply alters_afterLayout|apply alters_ret]. }
  destruct (Hall pg nd Hn eq_refl He) as (pg' & nd' & E & Hn' & Hk' & HA).
  exists pg', nd'. split; [exact E|]. split; [exact Hn'|].
  split; [exact Hk'|]. rewrite HA. split.
  - intros name Hname Hpl. apply Hp; [|done]. by apply Hin.
  - intros x Hx. apply Ho. intros name Hname. apply Hx. by apply Hin.
Qed.





(** ** Mounting *)

Lemma stable_call n c : stable n (call c).
Proof. intros pg _. by eexists. Qed.

Lemma stable_for_each_Forall {A} n (f : A -> M unit) (P : A -> Prop) l :
  (forall x, P x -> stable n (f x)) -> Forall P l -> stable n (for_each f l).
Proof.
  intros Hf. induction 1 as [|x l Hx _ IH]; simpl.
  - apply stable_ret.
  - apply stable_bind; [by apply Hf|done].
Qed.

Lemma stable_mount_prop n entry :
  valid_attribute_name (fst entry) = true -> stable n (mount_prop n entry).
Proof.
  destruct entry as [key value]. intros Hv. simpl in Hv. unfold mount_prop.
  destruct (String.eqb key "ref" && is_function value); [apply stable_call|].
  destruct (String.eqb key "style" && is_object value).
  { destruct value; try apply stable_ret.
    apply stable_for_each. intros kv. apply stable_setStyle. }
  destruct (starts_with_on key && is_function value);
    [apply stable_addEventListener|].
  destruct (negb _ && negb _); [|apply stable_ret].
  destruct (is_boolean value && truthy value); [by apply stable_setAttribute|].
  destruct (negb _ && negb _); [by apply stable_setAttribute|apply stable_ret].
Qed.

Section Components.

Variable component : nat -> list (string * Val) -> Element.

(** X18. [diff] with no new element: with no old element either it does
    nothing; with an old element it takes the node out of its parent (one
    [removeChild], nothing else changes in the tree) or, for a node without
    a parent, does nothing; it returns [null] in each case. *)
Theorem diff_against_nothing_removes_the_node
    (fuel : nat) (oldElement newElement : Element) (n : nat) (pg : Page) :
  present newElement = false ->
  (present oldElement = false ->
   diff component (S fuel) oldElement newElement (Some n) pg
     = (Ok (None, newElement), pg)) /\
  (present oldElement = true ->
   forall P kP pP cs kn cn,
     structure pg !! P = Some (kP, pP, cs) ->
     structure pg !! n = Some (kn, Some P, cn) ->
     exists pg',
       diff component (S fuel) oldElement newElement (Some n) pg
         = (Ok (None, newElement), pg') /\
       structure pg' =
         <[n := (kn, None, cn)]>
           (<[P := (kP, pP, remove_id n cs)]> (structure pg)) /\
       mutations pg' = mutations pg ++ [RemoveChild P n]) /\
  (present oldElement = true ->
   forall kn cn,
     structure pg !! n = Some (kn, None, cn) ->
     diff component (S fuel) oldElement newElement (Some n) pg
       = (Ok (None, newElement), pg)).
Proof.
  intros Hnew. split; [|split].
  - intros Hold. cbn [diff]. by rewrite Hold, Hnew.
  - intros Hold P kP pP cs kn cn HP Hn. cbn [diff]. rewrite Hold, Hnew.
    cbn [negb andb].
    destruct (get_structure _ _ _ _ _ Hn) as (nd & Hg & _ & Hp & _).
    rewrite (bind_ok _ _ _ _ _ Hg), Hp.
    destruct (removeChild_structure pg P n kP pP cs kn cn HP Hn)
      as (pg' & E & Hs & Hm & _).
    exists pg'. by rewrite (bind_ok _ _ _ _ _ E).
  - intros Hold kn cn Hn. cbn [diff]. rewrite Hold, Hnew. cbn [negb andb].
    destruct (get_structure _ _ _ _ _ Hn) as (nd & Hg & _ & Hp & _).
    by rewrite (bind_ok _ _ _ _ _ Hg), Hp.
Qed.





Lemma append_children_texts create P svg tag pP new : forall pg cs,
  structure pg !! P = Some (ElementNode svg tag, pP, cs) ->
  Forall (fun c => el_is_primitive c = true) new ->
  exists pg',
    append_children create (Some P) new pg = (Ok new, pg') /\
    structure pg' =
      <[P := (ElementNode svg tag, pP,
              cs ++ seq (List.length (nodes pg)) (List.length new))]>
        (structure pg)
      ++ map (fun c => (TextNode (el_to_string c), Some P, [])) new /\
    calls pg' = calls pg /\ layout pg' = layout pg.
Proof.
  induction new as [|c new IH]; intros pg cs HP Hnew.
  - exists pg. simpl. rewrite !app_nil_r. split; [done|]. split; [|done].
    symmetry. by apply list_insert_id.
  - inversion Hnew as [|? ? Hc Hnew']; subst.
    destruct (primitive_child c Hc) as [Ha Ho].
    cbn [append_children]. rewrite Ha, Ho.
    destruct (createTextNode_structure (el_to_string c) pg)
      as (pg1 & E1 & S1 & _ & C1 & L1 & _).
    assert (P < List.length (nodes pg)) as LP
      by (rewrite <-structure_length; by eapply lookup_lt_Some).
    destruct (appendChild_orphan pg1 P (List.length (nodes pg)) svg tag pP cs
                (TextNode (el_to_string c)) [])
      as (pg2 & E2 & S2 & _ & C2 & L2 & _).
    { rewrite S1. by apply lookup_app_l_Some. }
    { rewrite S1, lookup_app_r by (by rewrite structure_length).
      by rewrite structure_length, Nat.sub_diag. }
    { lia. }
    assert (structure pg2 =
      <[P := (ElementNode svg tag, pP, cs ++ [List.length (nodes pg)])]>
        (structure pg)
      ++ [(TextNode (el_to_string c), Some P, [])]) as S2'.
    { rewrite S2, S1. rewrite insert_app_l by (by rewrite structure_length).
      rewrite insert_app_r_alt by (by rewrite length_insert, structure_length).
      by rewrite length_insert, structure_length, Nat.sub_diag. }
    destruct (IH pg2 (cs ++ [List.length (nodes pg)])) as (pg' & E & HS & C & L);
      [|done|].
    { rewrite S2'. apply lookup_app_l_Some, list_lookup_insert_eq.
      by rewrite structure_length. }
    exists pg'.
    unfold bind at 1. unfold bind at 1. unfold bind at 1.
    rewrite E1. unfold ret at 1. unfold bind at 1. rewrite E2.
    unfold ret at 1. unfold bind at 1. rewrite E. unfold ret.
    split; [done|]. split; [|by rewrite C, L, C2, L2, C1, L1].
    rewrite HS, S2'.
    rewrite insert_app_l by (by rewrite length_insert, structure_length).
    rewrite list_insert_insert_eq. rewrite <-app_assoc. cbn [map app].
    assert (List.length (nodes pg2) = S (List.length (nodes pg))) as ->.
    { rewrite <-structure_length, S2', length_app, length_insert,
        structure_length. simpl. lia. }
    by rewrite <-app_assoc.
Qed.

(** X21. [updateChildren] with no old children appends: for new children
    that are strings, numbers or booleans it creates one text node each,
    holding the child's string, and appends them to the parent in order;
    no other node changes. *)
Theorem first_children_are_appended_in_order
    (fuel : nat) (P : nat) (pg : Page) (svg : bool) (tag : string)
    (pP : option nat) (cs : list nat) (newChildren : list Element) :
  structure pg !! P = Some (ElementNode svg tag, pP, cs) ->
  Forall (fun c => el_is_primitive c = true) newChildren ->
  exists pg',
    updateChildren (diff component fuel) (createDOMNode component fuel)
      (Some P) [] newChildren pg = (Ok newChildren, pg') /\
    structure pg' =
      <[P := (ElementNode svg tag, pP,
              cs ++ seq (List.length (nodes pg)) (List.length newChildren))]>
        (structure pg)
      ++ map (fun c => (TextNode (el_to_string c), Some P, [])) newChildren.
Proof.
  intros HP Hnew.
  destruct (append_children_texts (createDOMNode component fuel) P svg tag pP
              newChildren pg cs HP Hnew) as (pg' & E & S & _).
  by exists pg'.
Qed.

(** X22. [updateChildren] with old children and no new ones empties the
    parent: every child node is detached, no other node changes, and the
    one mutation made is the clearing of the parent. *)
Theorem children_are_cleared_when_none_remain
    (fuel : nat) (P : nat) (pg : Page) (kP : Kind) (pP : option nat)
    (cs : list nat) (oldChildren : list Element) :
  oldChildren <> [] ->
  structure pg !! P = Some (kP, pP, cs) ->
  NoDup cs -> P ∉ cs ->
  (forall c, c ∈ cs -> exists k cc, structure pg !! c = Some (k, Some P, cc)) ->
  exists pg',
    updateChildren (diff component fuel) (createDOMNode component fuel)
      (Some P) oldChildren [] pg = (Ok [], pg') /\
    structure pg' !! P = Some (kP, pP, []) /\
    (forall c k cc, c ∈ cs -> structure pg !! c = Some (k, Some P, cc) ->
       structure pg' !! c = Some (k, None, cc)) /\
    (forall i, i <> P -> i ∉ cs -> structure pg' !! i = structure pg !! i) /\
    mutations pg' = mutations pg ++ [ClearChildren P].
Proof.
  intros Hold HP Hd HPc Hcs.
  destruct (clearChildren_structure pg P kP pP cs HP Hd HPc Hcs)
    as (pg' & E & SP & Hch & Hoth & _ & M & _).
  exists pg'. destruct oldChildren as [|o old]; [done|].
  unfold updateChildren. unfold bind at 1. by rewrite E.
Qed.

Lemma create_children_texts create P svg tag pP children : forall pg cs,
  structure pg !! P = Some (ElementNode svg tag, pP, cs) ->
  Forall (fun c => el_is_primitive c = true) children ->
  exists pg',
    create_children create P children pg = (Ok children, pg') /\
    structure pg' =
      <[P := (ElementNode svg tag, pP,
              cs ++ seq (List.length (nodes pg)) (List.length children))]>
        (structure pg)
      ++ map (fun c => (TextNode (el_to_string c), Some P, [])) children /\
    attributes <$> nodes pg' =
      (attributes <$> nodes pg) ++ replicate (List.length children) [].
Proof.
  induction children as [|c children IH]; intros pg cs HP Hch.
  - exists pg. simpl. rewrite !app_nil_r. split; [done|]. split; [|done].
    symmetry. by apply list_insert_id.
  - inversion Hch as [|? ? Hc Hch']; subst.
    destruct (primitive_child c Hc) as [Ha Ho].
    cbn [create_children]. rewrite Ha, Hc.
    destruct (createTextNode_structure (el_to_string c) pg)
      as (pg1 & E1 & S1 & _ & _ & _ & A1).
    assert (P < List.length (nodes pg)) as LP
      by (rewrite <-structure_length; by eapply lookup_lt_Some).
    destruct (appendChild_orphan pg1 P (List.length (nodes pg)) svg tag pP cs
                (TextNode (el_to_string c)) [])
      as (pg2 & E2 & S2 & _ & _ & _ & A2).
    { rewrite S1. by apply lookup_app_l_Some. }
    { rewrite S1, lookup_app_r by (by rewrite structure_length).
      by rewrite structure_length, Nat.sub_diag. }
    { lia. }
    assert (structure pg2 =
      <[P := (ElementNode svg tag, pP, cs ++ [List.length (nodes pg)])]>
        (structure pg)
      ++ [(TextNode (el_to_string c), Some P, [])]) as S2'.
    { rewrite S2, S1. rewrite insert_app_l by (by rewrite structure_length).
      rewrite insert_app_r_alt by (by rewrite length_insert, structure_length).
      by rewrite length_insert, structure_length, Nat.sub_diag. }
    destruct (IH pg2 (cs ++ [List.length (nodes pg)])) as (pg' & E & HS & HA);
      [|done|].
    { rewrite S2'. apply lookup_app_l_Some, list_lookup_insert_eq.
      by rewrite structure_length. }
    exists pg'.
    unfold bind, ret. rewrite E1. cbv beta iota. rewrite E2. cbv beta iota.
    rewrite E. cbv beta iota.
    split; [done|]. split.
    + rewrite HS, S2'.
      rewrite insert_app_l by (by rewrite length_insert, structure_length).
      rewrite list_insert_insert_eq. rewrite <-app_assoc. cbn [map app].
      assert (List.length (nodes pg2) = S (List.length (nodes pg))) as ->.
      { rewrite <-structure_length, S2', length_app, length_insert,
          structure_length. simpl. lia. }
      by rewrite <-app_assoc.
    + rewrite HA, A2, A1. by rewrite <-app_assoc.
Qed.

Lemma createDOMNode_intrinsic
    (fuel : nat) (t : string) (props : list (string * Val))
    (children : list Element) (key : Val) (rendered : option Element)
    (pg : Page) :
  valid_name t = true ->
  well_named props ->
  Forall (fun c => el_is_primitive c = true) children ->
  let element := Elem (Tag t) props children key rendered in
  let n := List.length (nodes pg) in
  let k := ElementNode (String.eqb t "svg") t in
  exists pg' nd',
    createDOMNode component (S fuel) element pg = (Ok (n, element), pg') /\
    structure pg' =
      structure pg
      ++ (k, None, seq (S n) (List.length children))
         :: map (fun c => (TextNode (el_to_string c), Some n, [])) children /\
    nodes pg' !! n = Some nd' /\
    (distinct_attributes k (map fst props) ->
     forall name,
       name ∈ map fst props ->
       plain_prop name (lookup_prop name props) = true ->
       is_function (lookup_prop name props) = false ->
       attr_get (attribute_name k name) (attributes nd')
         = attribute_of (lookup_prop name props)).
Proof.
  intros Hv Hw Hch element n k. unfold k.
  cbn [createDOMNode]. unfold deref. cbn [absent el_type el_props el_children element].
  unfold bind at 1. unfold ret at 1.
  destruct (createElement_structure (String.eqb t "svg") t pg Hv)
    as (pg1 & E1 & S1 & _ & _ & _ & A1).
  fold n in E1. unfold bind at 1. rewrite E1.
  assert (structure pg1 !! n
          = Some (ElementNode (String.eqb t "svg") t, None, [])) as Hn1.
  { rewrite S1, lookup_app_r by (by rewrite structure_length).
    by rewrite structure_length, Nat.sub_diag. }
  destruct (structure_lookup _ _ _ _ _ Hn1) as (nd1 & En1 & Kn1 & _).
  assert (attributes nd1 = []) as An1.
  { apply (f_equal (fun l => l !! n)) in A1.
    rewrite list_lookup_fmap, En1, lookup_app_r in A1
      by (by rewrite length_fmap).
    rewrite length_fmap, Nat.sub_diag in A1. simpl in A1. congruence. }
  destruct (stable_updateDOMProps n [] props Hw pg1) as (pg2 & E2 & S2).
  { by eexists _, _, _, _. }
  assert (exists nd2, nodes pg2 !! n = Some nd2) as [nd2 En2].
  { apply lookup_lt_is_Some. rewrite <-structure_length, S2, structure_length.
    by eapply lookup_lt_Some. }
  unfold bind at 1. rewrite E2.
  destruct (create_children_texts (createDOMNode component fuel) n
              (String.eqb t "svg") t None children pg2 [])
    as (pg3 & E3 & S3 & A3); [by rewrite S2|done|].
  unfold bind at 1. rewrite E3. unfold ret.
  assert (List.length (nodes pg2) = S n) as L2.
  { rewrite <-structure_length, S2, S1, length_app, structure_length.
    simpl. lia. }
  rewrite L2 in S3. cbn [app] in S3.
  assert (exists nd3, nodes pg3 !! n = Some nd3 /\ attributes nd3 = attributes nd2)
    as (nd3 & En3 & An3).
  { apply (f_equal (fun l => l !! n)) in A3.
    rewrite lookup_app_l, !list_lookup_fmap, En2 in A3
      by (rewrite length_fmap, L2; lia).
    destruct (nodes pg3 !! n) as [nd3|]; [|done].
    exists nd3. split; [done|]. simpl in A3. congruence. }
  exists pg3, nd3. split; [done|]. split; [|split; [done|]].
  - rewrite S3, S2, S1.
    rewrite insert_app_r_alt by (by rewrite structure_length).
    rewrite structure_length. fold n. rewrite Nat.sub_diag. cbn [insert list_insert].
    by rewrite <-app_assoc.
  - intros Hd name Hin Hpl _. rewrite An3.
    destruct (updateDOMProps_attributes n [] props pg1 nd1 En1)
      as (pg2' & nd2' & E2' & En2' & _ & Hattr & _); [|done|by rewrite Kn1|].
    { unfold is_element. by rewrite Kn1. }
    rewrite E2 in E2'. injection E2' as <-.
    rewrite En2 in En2'. injection En2' as <-.
    rewrite Kn1 in Hattr. apply Hattr; [|done].
    apply elem_of_app. by right.
Qed.

(** X23. [createDOMNode] on an intrinsic element whose tag is a valid
    element name, whose prop names are valid attribute names, no two
    standing for one attribute, and whose children are strings, numbers
    or booleans: it adds to the document one element of that tag,
    without a parent, followed by one text node per child, in order, each
    holding the child's string; the existing nodes are untouched, and for
    every prop that is treated as an attribute and whose value is no
    function, the element's attribute is what the value stands for. *)
Theorem createDOMNode_builds_the_element
    (fuel : nat) (t : string) (props : list (string * Val))
    (children : list Element) (key : Val) (rendered : option Element)
    (pg : Page) :
  valid_name t = true ->
  well_named props ->
  distinct_attributes (ElementNode (String.eqb t "svg") t) (map fst props) ->
  Forall (fun c => el_is_primitive c = true) children ->
  let element := Elem (Tag t) props children key rendered in
  let n := List.length (nodes pg) in
  let k := ElementNode (String.eqb t "svg") t in
  exists pg' nd',
    createDOMNode component (S fuel) element pg = (Ok (n, element), pg') /\
    structure pg' =
      structure pg
      ++ (k, None, seq (S n) (List.length children))
         :: map (fun c => (TextNode (el_to_string c), Some n, [])) children /\
    nodes pg' !! n = Some nd' /\
    (forall name,
       name ∈ map fst props ->
       plain_prop name (lookup_prop name props) = true ->
       is_function (lookup_prop name props) = false ->
       attr_get (attribute_name k name) (attributes nd')
         = attribute_of (lookup_prop name props)).
Proof.
  intros Hv Hw Hd Hch.
  destruct (createDOMNode_intrinsic fuel t props children key rendered pg
              Hv Hw Hch) as (pg' & nd' & E & Hs & Hn & Ha).
  exists pg', nd'. split; [exact E|]. split; [exact Hs|].
  split; [exact Hn|by apply Ha].
Qed.

Lemma mount_children_texts mount P svg tag pP children : forall pg cs,
  structure pg !! P = Some (ElementNode svg tag, pP, cs) ->
  Forall (fun c => el_is_primitive c = true) children ->
  exists pg',
    mount_children mount P children pg = (Ok [], pg') /\
    structure pg' =
      <[P := (ElementNode svg tag, pP,
              cs ++ seq (List.length (nodes pg)) (List.length children))]>
        (structure pg)
      ++ map (fun c => (TextNode (el_to_string c), Some P, [])) children.
Proof.
  induction children as [|c children IH]; intros pg cs HP Hch.
  - exists pg. simpl. rewrite !app_nil_r. split; [done|].
    symmetry. by apply list_insert_id.
  - inversion Hch as [|? ? Hc Hch']; subst.
    cbn [mount_children]. rewrite Hc.
    destruct (createTextNode_structure (el_to_string c) pg)
      as (pg1 & E1 & S1 & _).
    assert (P < List.length (nodes pg)) as LP
      by (rewrite <-structure_length; by eapply lookup_lt_Some).
    destruct (appendChild_orphan pg1 P (List.length (nodes pg)) svg tag pP cs
                (TextNode (el_to_string c)) [])
      as (pg2 & E2 & S2 & _).
    { rewrite S1. by apply lookup_app_l_Some. }
    { rewrite S1, lookup_app_r by (by rewrite structure_length).
      by rewrite structure_length, Nat.sub_diag. }
    { lia. }
    assert (structure pg2 =
      <[P := (ElementNode svg tag, pP, cs ++ [List.length (nodes pg)])]>
        (structure pg)
      ++ [(TextNode (el_to_string c), Some P, [])]) as S2'.
    { rewrite S2, S1. rewrite insert_app_l by (by rewrite structure_length).
      rewrite insert_app_r_alt by (by rewrite length_insert, structure_length).
      by rewrite length_insert, structure_length, Nat.sub_diag. }
    destruct (IH pg2 (cs ++ [List.length (nodes pg)])) as (pg' & E & HS);
      [|done|].
    { rewrite S2'. apply lookup_app_l_Some, list_lookup_insert_eq.
      by rewrite structure_length. }
    exists pg'.
    unfold bind at 1. unfold bind at 1.
    rewrite E1. unfold bind at 1. rewrite E2.
    unfold ret at 1. unfold bind at 1. rewrite E. unfold ret.
    split; [done|].
    rewrite HS, S2'.
    rewrite insert_app_l by (by rewrite length_insert, structure_length).
    rewrite list_insert_insert_eq. rewrite <-app_assoc. cbn [map app].
    assert (List.length (nodes pg2) = S (List.length (nodes pg))) as ->.
    { rewrite <-structure_length, S2', length_app, length_insert,
        structure_length. simpl. lia. }
    by rewrite <-app_assoc.
Qed.

Lemma mount_flat fuel t props children key rendered C isSVG pg svg tag pC cs :
  valid_name t = true ->
  well_named props ->
  Forall (fun c => el_is_primitive c = true) children ->
  structure pg !! C = Some (ElementNode svg tag, pC, cs) ->
  let element := Elem (Tag t) props children key rendered in
  let n := List.length (nodes pg) in
  exists pg',
    mount component (S fuel) element (Some C) isSVG pg
      = (Ok (MountedComponent element n [] []), pg') /\
    structure pg' !! C = Some (ElementNode svg tag, pC, cs ++ [n]) /\
    structure pg' !! n
      = Some (ElementNode (isSVG || String.eqb t "svg") t, Some C,
              seq (S n) (List.length children)) /\
    (forall i, i < n -> i <> C -> structure pg' !! i = structure pg !! i).
Proof.
  intros Hv Hw Hch HC element n.
  assert (C < n) as LC
    by (unfold n; rewrite <-structure_length; by eapply lookup_lt_Some).
  cbn [mount]. unfold deref. cbn [absent el_type el_props el_children element].
  unfold bind at 1. unfold ret at 1.
  destruct (createElement_structure (isSVG || String.eqb t "svg") t pg Hv)
    as (pg1 & E1 & S1 & _).
  fold n in E1. unfold bind at 1. rewrite E1.
  assert (structure pg1 !! n
          = Some (ElementNode (isSVG || String.eqb t "svg") t, None, [])) as Hn1.
  { rewrite S1, lookup_app_r by (by rewrite structure_length).
    by rewrite structure_length, Nat.sub_diag. }
  destruct (stable_for_each_Forall n (mount_prop n) _ props
              (stable_mount_prop n) Hw pg1)
    as (pg2 & E2 & S2).
  { by eexists _, _, _, _. }
  unfold bind at 1. rewrite E2.
  destruct (mount_children_texts
              (fun child => mount component fuel child (Some n)
                              (isSVG || String.eqb t "svg"))
              n (isSVG || String.eqb t "svg") t None children pg2 [])
    as (pg3 & E3 & S3); [by rewrite S2|done|].
  unfold bind at 1. rewrite E3.
  assert (List.length (nodes pg2) = S n) as L2.
  { rewrite <-structure_length, S2, S1, length_app, structure_length.
    simpl. lia. }
  rewrite L2 in S3. cbn [app] in S3.
  destruct (appendChild_orphan pg3 C n svg tag pC cs
              (ElementNode (isSVG || String.eqb t "svg") t)
              (seq (S n) (List.length children)))
    as (pg4 & E4 & S4 & _).
  { rewrite S3, S2, S1. apply lookup_app_l_Some.
    rewrite list_lookup_insert_ne by lia. by apply lookup_app_l_Some. }
  { rewrite S3, S2, S1. apply lookup_app_l_Some.
    apply list_lookup_insert_eq. rewrite length_app, structure_length.
    simpl. lia. }
  { lia. }
  exists pg4. unfold bind at 1. rewrite E4. unfold ret.
  split; [done|].
  assert (List.length (structure pg3) = S n + List.length children) as L3.
  { rewrite S3, length_app, length_insert, S2, S1, length_app,
      structure_length, length_map. simpl. fold n. lia. }
  rewrite S4. split; [|split].
  - rewrite list_lookup_insert_ne by lia.
    apply list_lookup_insert_eq. lia.
  - apply list_lookup_insert_eq. rewrite length_insert. lia.
  - intros i Hi HiC. rewrite !list_lookup_insert_ne by lia.
    rewrite S3, lookup_app_l
      by (rewrite length_insert, S2, S1, length_app, structure_length;
          simpl; fold n; lia).
    rewrite list_lookup_insert_ne by lia. rewrite S2, S1.
    apply lookup_app_l. rewrite structure_length. fold n. lia.
Qed.

(** X24. The first [render] into a container, one that carries no
    [_helixRoot] record, of an intrinsic element with a valid tag, valid
    attribute names as prop names and text children, whatever the
    container's children were, leaves the new element as the container's
    only child; the function that [render] returns then takes it out
    again, so that the container is empty and the root record is
    cleared. *)
Theorem render_then_cleanup_empties_the_container
    (fuel : nat) (t : string) (props : list (string * Val))
    (children : list Element) (key : Val) (rendered : option Element)
    (C : nat) (pg : Page) (svg : bool) (tag : string) (pC : option nat)
    (cs : list nat) :
  valid_name t = true ->
  well_named props ->
  Forall (fun c => el_is_primitive c = true) children ->
  structure pg !! C = Some (ElementNode svg tag, pC, cs) ->
  NoDup cs -> C ∉ cs ->
  (forall c, c ∈ cs -> exists k cc, structure pg !! c = Some (k, Some C, cc)) ->
  let element := Elem (Tag t) props children key rendered in
  let n := List.length (nodes pg) in
  exists root pg1 pg2,
    render component (S fuel) element C None pg = (Ok root, pg1) /\
    root_element root = Some element /\
    structure pg1 !! C = Some (ElementNode svg tag, pC, [n]) /\
    render_cleanup root pg1
      = (Ok {| root_element := None; root_mount := None |}, pg2) /\
    structure pg2 !! C = Some (ElementNode svg tag, pC, []) /\
    structure pg2 !! n
      = Some (ElementNode (String.eqb t "svg") t, None,
              seq (S n) (List.length children)).
Proof.
  intros Hv Hw Hch HC Hd HCc Hcs element n.
  destruct (clearChildren_structure pg C _ pC cs HC Hd HCc Hcs)
    as (pg0 & E0 & S0 & _ & _ & L0 & _).
  destruct (mount_flat fuel t props children key rendered C false pg0 svg tag
              pC [] Hv Hw Hch S0) as (pg1 & E1 & SC1 & Sn1 & _).
  rewrite L0 in E1, SC1, Sn1. fold n in E1, SC1, Sn1. fold element in E1.
  cbn [app orb] in SC1, Sn1.
  destruct (removeChild_structure pg1 C n _ pC [n] _ _ SC1 Sn1)
    as (pg2 & E2 & S2 & _).
  assert (C < n) as LC
    by (unfold n; rewrite <-structure_length; by eapply lookup_lt_Some).
  exists {| root_element := Some element;
            root_mount := Some (MountedComponent element n [] []) |}, pg1, pg2.
  split; [|split; [done|split; [done|split; [|split]]]].
  - unfold render. cbn [root_element]. unfold bind at 1. rewrite E0.
    unfold bind at 1. by rewrite E1.
  - unfold render_cleanup. cbn [root_mount unmount for_each].
    destruct (get_structure _ _ _ _ _ Sn1) as (nd & Hg & _ & Hp & _).
    unfold bind, ret. by rewrite Hg, Hp, E2.
  - rewrite S2, list_lookup_insert_ne by lia.
    rewrite list_lookup_insert_eq by (by eapply lookup_lt_Some).
    unfold remove_id. simpl. by rewrite Nat.eqb_refl.
  - rewrite S2. apply list_lookup_insert_eq. rewrite length_insert.
    by eapply lookup_lt_Some.
Qed.

(** ** Components *)




End Components.

(** ** Evaluations *)

Import Examples.
#[local] Open Scope string_scope.

Lemma diff_against_nothing_removes_the_node_witness :
  exists pg',
    diff components 1 (item "a") (Prim VNull) (Some 1) list_page
      = (Ok (None, Prim VNull), pg') /\
    structure pg' !! 0 = Some (ElementNode false "ul", None, [3; 5]).
Proof.
  destruct (diff_against_nothing_removes_the_node components 0 (item "a")
              (Prim VNull) 1 list_page eq_refl) as (_ & H & _).
  destruct (H eq_refl 0 (ElementNode false "ul") None [1; 3; 5]
              (ElementNode false "li") [2] eq_refl eq_refl)
    as (pg' & E & Hs & _).
  exists pg'. split; [exact E|]. rewrite Hs. reflexivity.
Defined.



Lemma first_children_are_appended_in_order_witness :
  exists pg',
    updateChildren (diff components 1) (createDOMNode components 1) (Some 0)
      [] [Prim (VStr "a"); Prim (VNum 1)] container_page
      = (Ok [Prim (VStr "a"); Prim (VNum 1)], pg') /\
    structure pg' =
      [(ElementNode false "div", None, [1; 2]);
       (TextNode "a", Some 0, []); (TextNode "1", Some 0, [])].
Proof.
  destruct (first_children_are_appended_in_order components 1 0 container_page
              false "div" None [] [Prim (VStr "a"); Prim (VNum 1)])
    as (pg' & E & Hs).
  - reflexivity.
  - repeat constructor.
  - exists pg'. split; [exact E|]. rewrite Hs. reflexivity.
Defined.

Lemma children_are_cleared_when_none_remain_witness :
  exists pg',
    updateChildren (diff components 1) (createDOMNode components 1) (Some 0)
      [item "a"; item "b"; item "c"] [] list_page = (Ok [], pg') /\
    structure pg' !! 0 = Some (ElementNode false "ul", None, []) /\
    structure pg' !! 3 = Some (ElementNode false "li", None, [4]).
Proof.
  destruct (children_are_cleared_when_none_remain components 1 0 list_page
              (ElementNode false "ul") None [1; 3; 5]
              [item "a"; item "b"; item "c"])
    as (pg' & E & HP & Hc & _).
  - discriminate.
  - reflexivity.
  - apply (bool_decide_unpack _). vm_compute. exact I.
  - apply (bool_decide_unpack _). vm_compute. exact I.
  - intros c Hc.
    repeat (apply elem_of_cons in Hc as [->|Hc]; [eexists _, _; vm_compute; reflexivity|]).
    by apply elem_of_nil in Hc.
  - exists pg'. split; [exact E|]. split; [exact HP|].
    apply Hc; [|reflexivity]. apply elem_of_cons. right. apply elem_of_cons.
    by left.
Defined.



Lemma createDOMNode_builds_the_element_witness :
  exists pg' nd',
    createDOMNode components 1 (paragraph "hi") empty_page
      = (Ok (0, paragraph "hi"), pg') /\
    structure pg' =
      [(ElementNode false "p", None, [1]); (TextNode "hi", Some 0, [])] /\
    nodes pg' !! 0 = Some nd' /\
    attr_get "id" (attributes nd') = Some "x".
Proof.
  destruct (createDOMNode_builds_the_element components 0 "p"
              [("id", VStr "x")] [Prim (VStr "hi")] VUndefined None empty_page)
    as (pg' & nd' & E & Hs & Hn & Hp).
  - reflexivity.
  - repeat constructor.
  - intros x y Hx Hy. apply list_elem_of_In in Hx, Hy. simpl in Hx, Hy.
    destruct Hx as [<-|[]], Hy as [<-|[]]. reflexivity.
  - repeat constructor.
  - exists pg', nd'. split; [exact E|]. split; [rewrite Hs; reflexivity|].
    split; [exact Hn|]. refine (Hp "id" _ eq_refl eq_refl).
    apply list_elem_of_In. simpl. tauto.
Defined.

Lemma render_then_cleanup_empties_the_container_witness :
  exists root pg1 pg2,
    render components 1 (paragraph "hi") 0 None container_page
      = (Ok root, pg1) /\
    structure pg1 !! 0 = Some (ElementNode false "div", None, [1]) /\
    render_cleanup root pg1
      = (Ok {| root_element := None; root_mount := None |}, pg2) /\
    structure pg2 !! 0 = Some (ElementNode false "div", None, []).
Proof.
  destruct (render_then_cleanup_empties_the_container components 0 "p"
              [("id", VStr "x")] [Prim (VStr "hi")] VUndefined None
              0 container_page false "div" None [])
    as (root & pg1 & pg2 & E1 & _ & H1 & E2 & H2 & _).
  - reflexivity.
  - repeat constructor.
  - repeat constructor.
  - reflexivity.
  - constructor.
  - apply not_elem_of_nil.
  - intros c Hc. by apply elem_of_nil in Hc.
  - exists root, pg1, pg2. split; [exact E1|]. split; [exact H1|].
    split; [exact E2|exact H2].
Defined.

End DocumentFacts.
